(** * LL(1) and SLR(1) parser construction: a shallow embedding

    The development follows the three Python modules of the repository:
    [grammar.py] (class [Grammar]: productions, FIRST and FOLLOW),
    [ll1_parser.py] (class [LL1Parser]) and [slr1_parser.py]
    (class [SLR1Parser]).

    Conventions of the embedding.
    - A Python [str] is a [string]; iterating over a production yields its
      one-character strings ([chars]).  Text is ASCII.
    - A Python [set] is a [gset]; a [for] loop over a set runs over
      [elements].  The iteration order of a Python set is unspecified; no
      statement below depends on it.
    - [Grammar.productions] is an insertion-ordered [dict]: an association
      list with unique keys.  The other dictionaries are only looked up or
      scanned for a marker, they are [gmap]s.
    - [None] stored in a table cell (the conflict marker) is the inner
      [None] of an [option string] value.
    - A [while] loop is run with fuel; the theorems show that the fuel the
      model supplies is never exhausted. *)

From Stdlib Require Import Ascii String.
From stdpp Require Import base gmap sets list strings pretty.

Local Open Scope stdpp_scope.

(** * The program *)

(** ** Python strings *)

(** [for symbol in prod]: the one-character strings of [prod]. *)
Fixpoint chars (s : string) : list string :=
  match s with
  | EmptyString => []
  | String c rest => String c EmptyString :: chars rest
  end.

Definition ascii_upper (c : ascii) : bool :=
  let n := nat_of_ascii c in (65 <=? n)%nat && (n <=? 90)%nat.

Definition ascii_lower (c : ascii) : bool :=
  let n := nat_of_ascii c in (97 <=? n)%nat && (n <=? 122)%nat.

Fixpoint has_upper (s : string) : bool :=
  match s with
  | EmptyString => false
  | String c rest => ascii_upper c || has_upper rest
  end.

Fixpoint has_lower (s : string) : bool :=
  match s with
  | EmptyString => false
  | String c rest => ascii_lower c || has_lower rest
  end.

(** [str.isupper()]: at least one cased character and no lowercase one. *)
Definition isupper (s : string) : bool := has_upper s && negb (has_lower s).

(** [s.endswith('$')]. *)
Fixpoint ends_dollar (s : string) : bool :=
  match s with
  | EmptyString => false
  | String c EmptyString => bool_decide (c = "$"%char)
  | String _ rest => ends_dollar rest
  end.

(** ** grammar.py: class Grammar *)

Record Grammar := mkGrammar {
  productions : list (string * list string);
  terminals : gset string;
  non_terminals : gset string;
  start_symbol : string
}.

(** [Grammar.__init__]. *)
Definition Grammar_init : Grammar := mkGrammar [] ∅ ∅ "S".

(** [d[k]] on the ordered dictionary. *)
Fixpoint dict_get (k : string) (d : list (string * list string)) : option (list string) :=
  match d with
  | [] => None
  | (k', v) :: rest => if decide (k = k') then Some v else dict_get k rest
  end.

Definition dict_keys (d : list (string * list string)) : list string := d.*1.

(** [d[k].append(x)] for a key that is present. *)
Fixpoint dict_append (k x : string) (d : list (string * list string))
    : list (string * list string) :=
  match d with
  | [] => []
  | (k', v) :: rest =>
      if decide (k = k') then (k', v ++ [x]) :: rest else (k', v) :: dict_append k x rest
  end.

(** The body of the inner loop of [add_production]: classify one symbol. *)
Definition classify (g : Grammar) (symbol : string) : Grammar :=
  if isupper symbol then
    mkGrammar (productions g) (terminals g) ({[symbol]} ∪ non_terminals g) (start_symbol g)
  else if bool_decide (symbol ≠ "e") then
    mkGrammar (productions g) ({[symbol]} ∪ terminals g) (non_terminals g) (start_symbol g)
  else g.

Definition add_one (non_terminal : string) (g : Grammar) (prod : string) : Grammar :=
  let g' := mkGrammar (dict_append non_terminal prod (productions g))
                      (terminals g) (non_terminals g) (start_symbol g) in
  foldl classify g' (chars prod).

Definition add_production (g : Grammar) (non_terminal : string) (prods : list string) : Grammar :=
  let g1 :=
    if bool_decide (non_terminal ∉ dict_keys (productions g)) then
      mkGrammar (productions g ++ [(non_terminal, [])]) (terminals g)
                ({[non_terminal]} ∪ non_terminals g) (start_symbol g)
    else g in
  foldl (add_one non_terminal) g1 prods.

(** What [read_grammar] does once every line is split at the arrow and its
    right-hand side at the blanks: one [add_production] per line. *)
Definition grammar_of (rules : list (string * list string)) : Grammar :=
  foldl (λ g r, add_production g r.1 r.2) Grammar_init rules.

(** ** Exceptions and fuel *)

Inductive exn := KeyError (k : string) | IndexError | ValueError.

(** The outcome of a piece of Python code: a value, an exception, or a loop
    that used up the fuel given to it. *)
Inductive result (A : Type) : Type :=
  | Ok (a : A)
  | Raise (e : exn)
  | OutOfFuel.
Arguments Ok {A} a.
Arguments Raise {A} e.
Arguments OutOfFuel {A}.

Global Instance result_ret : MRet result := λ A a, Ok a.
Global Instance result_bind : MBind result := λ A B f r,
  match r with
  | Ok a => f a
  | Raise e => Raise e
  | OutOfFuel => OutOfFuel
  end.

Definition foldlM {A B} (f : A → B → result A) : A → list B → result A :=
  fix go a l :=
    match l with
    | [] => Ok a
    | b :: l' => a' ← f a b; go a' l'
    end.

(** [while True: s, updated = pass(s); if not updated: break]. *)
Fixpoint iterate {S} (pass : S → result (S * bool)) (fuel : nat) (s : S) : result S :=
  match fuel with
  | 0 => OutOfFuel
  | S n =>
      '(s', updated) ← pass s;
      if updated : bool then iterate pass n s' else Ok s'
  end.

(** [while cond(s): s = body(s)], at most [2 ^ k] rounds.  The flag of the
    result tells that the condition was seen to fail. *)
Fixpoint while_pow {S} (cond : S → bool) (body : S → result S) (k : nat) (s : S)
    : result (S * bool) :=
  match k with
  | 0 => if cond s then s' ← body s; Ok (s', false) else Ok (s, true)
  | S k' =>
      '(s', finished) ← while_pow cond body k' s;
      if finished : bool then Ok (s', true) else while_pow cond body k' s'
  end.

Definition while_loop {S} (cond : S → bool) (body : S → result S) (k : nat) (s : S)
    : result S :=
  '(s', finished) ← while_pow cond body k s;
  if finished : bool then Ok s' else if cond s' then OutOfFuel else Ok s'.

(** ** grammar.py: FIRST and FOLLOW *)

Abbreviation setmap := (gmap string (gset string)).

(** [if term not in sets[key]: sets[key].add(term); updated = True]. *)
Definition sets_add (key term : string) (st : setmap * bool) : setmap * bool :=
  if bool_decide (term ∈ st.1 !!! key) then st
  else (<[key := {[term]} ∪ st.1 !!! key]> st.1, true).

(** [for term in src: if term not in sets[key]: ...]. *)
Definition sets_add_all (key : string) (src : gset string) (st : setmap * bool)
    : setmap * bool :=
  foldl (λ st term, sets_add key term st) st (elements src).

(** [for term in src: if term != 'e' and term not in sets[key]: ...]. *)
Definition sets_add_terms (key : string) (src : gset string) (st : setmap * bool)
    : setmap * bool :=
  foldl (λ st term, if bool_decide (term ≠ "e") then sets_add key term st else st)
        st (elements src).

(** The three initialisations at the head of [get_first_set]. *)
Definition first_init (g : Grammar) : setmap :=
  <["e" := {["e"]}]>
    (foldl (λ first terminal, <[terminal := {[terminal]}]> first)
           (gset_to_gmap ∅ (non_terminals g)) (elements (terminals g))).

(** [if symbol not in first: first[symbol] = set() or {symbol}]. *)
Definition first_ensure (symbol : string) (first : setmap) : setmap :=
  match first !! symbol with
  | Some _ => first
  | None => <[symbol := if isupper symbol then ∅ else {[symbol]}]> first
  end.

(** The walk over the symbols of one production; the flag returned is
    [eps_in_everything]. *)
Fixpoint first_walk (non_terminal : string) (syms : list string) (st : setmap * bool)
    : (setmap * bool) * bool :=
  match syms with
  | [] => (st, true)
  | symbol :: rest =>
      let st1 := (first_ensure symbol st.1, st.2) in
      let st2 := sets_add_terms non_terminal (st1.1 !!! symbol) st1 in
      if bool_decide ("e" ∈ st2.1 !!! symbol) then first_walk non_terminal rest st2
      else (st2, false)
  end.

Definition first_production (non_terminal : string) (st : setmap * bool)
    (production : string) : setmap * bool :=
  if bool_decide (production = "e") then sets_add non_terminal "e" st
  else
    let r := first_walk non_terminal (chars production) st in
    if r.2 then sets_add non_terminal "e" r.1 else r.1.

(** One round of the [while True] loop of [get_first_set]. *)
Definition first_pass (g : Grammar) (first : setmap) : setmap * bool :=
  foldl (λ st r, foldl (first_production r.1) st r.2) (first, false) (productions g).

Definition first_fuel (g : Grammar) : nat :=
  S (size (non_terminals g) * S (size (terminals g))).

Definition get_first_set (g : Grammar) : result setmap :=
  iterate (λ first, Ok (first_pass g first)) (first_fuel g) (first_init g).

(** FIRST of the rest of a production, as [get_follow_set] computes it; the
    flag is [all_have_epsilon]. *)
Fixpoint first_of_rest (first_sets : setmap) (rest : list string) : gset string * bool :=
  match rest with
  | [] => (∅, true)
  | sym :: rest' =>
      match first_sets !! sym with
      | None =>
          if isupper sym then first_of_rest first_sets rest' else ({[sym]}, false)
      | Some fs =>
          if bool_decide ("e" ∈ fs) then
            let r := first_of_rest first_sets rest' in (fs ∖ {["e"]} ∪ r.1, r.2)
          else (fs ∖ {["e"]}, false)
      end
  end.

(** The loop [for i, symbol in enumerate(production)]; [rest] is
    [production[i+1:]], empty exactly when [i = len(production) - 1]. *)
Fixpoint follow_symbols (first_sets : setmap) (non_terminal : string)
    (syms : list string) (st : setmap * bool) : setmap * bool :=
  match syms with
  | [] => st
  | symbol :: rest =>
      let st' :=
        if isupper symbol then
          match rest with
          | [] => sets_add_all symbol (st.1 !!! non_terminal) st
          | _ :: _ =>
              let fr := first_of_rest first_sets rest in
              let st1 := sets_add_all symbol fr.1 st in
              if fr.2 then sets_add_all symbol (st1.1 !!! non_terminal) st1 else st1
          end
        else st in
      follow_symbols first_sets non_terminal rest st'
  end.

Definition follow_production (first_sets : setmap) (non_terminal : string)
    (st : setmap * bool) (production : string) : setmap * bool :=
  if bool_decide (production = "e") then st
  else follow_symbols first_sets non_terminal (chars production) st.

Definition follow_pass (g : Grammar) (first_sets : setmap) (follow : setmap)
    : setmap * bool :=
  foldl (λ st r, foldl (follow_production first_sets r.1) st r.2)
        (follow, false) (productions g).

(** Every term that can enter a FOLLOW set. *)
Definition follow_universe (g : Grammar) (first_sets : setmap) : gset string :=
  {["$"]} ∪ ⋃ (map_to_list first_sets).*2
          ∪ list_to_set (concat (chars <$> concat (productions g).*2)).

Definition follow_fuel (g : Grammar) (first_sets : setmap) : nat :=
  S (size (non_terminals g) * size (follow_universe g first_sets)).

Definition follow_init (g : Grammar) : result setmap :=
  let follow : setmap := gset_to_gmap ∅ (non_terminals g) in
  match follow !! start_symbol g with
  | None => Raise (KeyError (start_symbol g))
  | Some s => Ok (<[start_symbol g := {["$"]} ∪ s]> follow)
  end.

Definition get_follow_set (g : Grammar) (first_sets : setmap) : result setmap :=
  follow ← follow_init g;
  iterate (λ follow, Ok (follow_pass g first_sets follow)) (follow_fuel g first_sets) follow.

(** ** ll1_parser.py: class LL1Parser *)

Abbreviation ll1_table := (gmap string (gmap string (option string))).

Module LL1Parser.

Record t := mk {
  grammar : Grammar;
  first_sets : setmap;
  follow_sets : setmap;
  parse_table : ll1_table;
  is_ll1 : bool
}.

(** The loop of [_get_first_of_string]; the flag is [all_derive_epsilon]. *)
Fixpoint first_of_symbols (first_sets : setmap) (syms : list string)
    : gset string * bool :=
  match syms with
  | [] => (∅, true)
  | symbol :: rest =>
      match first_sets !! symbol with
      | None => ({[symbol]}, false)
      | Some fs =>
          if bool_decide ("e" ∈ fs) then
            let r := first_of_symbols first_sets rest in (fs ∖ {["e"]} ∪ r.1, r.2)
          else (fs ∖ {["e"]}, false)
      end
  end.

Definition _get_first_of_string (first_sets : setmap) (s : string) : gset string :=
  if bool_decide (s = "" ∨ s = "e") then {["e"]}
  else
    let r := first_of_symbols first_sets (chars s) in
    if r.2 then {["e"]} ∪ r.1 else r.1.

(** The write of [_build_parse_table]: an occupied cell becomes the
    conflict marker, a free one takes the production. *)
Definition table_write (non_terminal production : string) (parse_table : ll1_table)
    (terminal : string) : ll1_table :=
  let row := parse_table !!! non_terminal in
  if bool_decide (terminal ∈ dom row) then
    <[non_terminal := <[terminal := None]> row]> parse_table
  else
    <[non_terminal := <[terminal := Some production]> row]> parse_table.

Definition table_production (first_sets follow_sets : setmap) (non_terminal : string)
    (parse_table : ll1_table) (production : string) : ll1_table :=
  let first_of_production := _get_first_of_string first_sets production in
  let parse_table1 :=
    foldl (λ tbl terminal,
             if bool_decide (terminal ≠ "e")
             then table_write non_terminal production tbl terminal else tbl)
          parse_table (elements first_of_production) in
  if bool_decide ("e" ∈ first_of_production) then
    foldl (table_write non_terminal production) parse_table1
          (elements (follow_sets !!! non_terminal))
  else parse_table1.

Definition _build_parse_table (g : Grammar) (first_sets follow_sets : setmap)
    : ll1_table :=
  foldl (λ tbl r, foldl (table_production first_sets follow_sets r.1) tbl r.2)
        (gset_to_gmap ∅ (non_terminals g)) (productions g).

Definition _check_if_ll1 (parse_table : ll1_table) : bool :=
  bool_decide (map_Forall (λ _ table_row,
                 map_Forall (λ _ production, production ≠ None)
                            (table_row : gmap string (option string)))
               parse_table).

(** [LL1Parser.__init__]. *)
Definition new (g : Grammar) : result t :=
  first ← get_first_set g;
  follow ← get_follow_set g first;
  let tbl := _build_parse_table g first follow in
  Ok (mk g first follow tbl (_check_if_ll1 tbl)).

(** The stack machine of [parse].  The stack has its top at the head, so
    the Python list [['$', start]] is [[start; "$"]]. *)
Inductive step_result :=
  | Continue (stack : list string) (input_ptr : nat)
  | Return (b : bool)
  | Fail (e : exn).

Definition current_input (input_string : string) (input_ptr : nat) : string :=
  default "$" (chars input_string !! input_ptr).

(** One round of [while stack], the stack being [top :: stack]. *)
Definition step (p : t) (input_string : string) (top : string) (stack : list string)
    (input_ptr : nat) : step_result :=
  let current := current_input input_string input_ptr in
  if bool_decide (top = "e") then Continue stack input_ptr
  else if negb (isupper top) then
    if bool_decide (top = current) then Continue stack (input_ptr + 1)
    else Return false
  else
    match parse_table p !! top with
    | None => Fail (KeyError top)
    | Some row =>
        match row !! current with
        | Some None => Return false
        | Some (Some production) =>
            if bool_decide (production ≠ "e")
            then Continue (chars production ++ stack) input_ptr
            else Continue stack input_ptr
        | None => Return false
        end
    end.

(** How the loop was left: the stack ran empty, or a [return False] inside
    the loop, or an exception. *)
Inductive loop_exit :=
  | StackEmpty (input_ptr : nat)
  | Rejected
  | Raised (e : exn).

(** The loop, with the number of rounds it ran. *)
Fixpoint loop (p : t) (input_string : string) (fuel : nat) (rounds : nat)
    (stack : list string) (input_ptr : nat) : option (nat * loop_exit) :=
  match stack with
  | [] => Some (rounds, StackEmpty input_ptr)
  | top :: stack' =>
      match fuel with
      | 0 => None
      | S fuel' =>
          match step p input_string top stack' input_ptr with
          | Continue stack'' input_ptr' =>
              loop p input_string fuel' (S rounds) stack'' input_ptr'
          | Return _ => Some (S rounds, Rejected)
          | Fail e => Some (S rounds, Raised e)
          end
      end
  end.

Definition normalize (input_string : string) : string :=
  if ends_dollar input_string then input_string else input_string +:+ "$".

(** The last line of [parse]. *)
Definition accepts (input_string : string) (input_ptr : nat) : bool :=
  let n := Z.of_nat (String.length input_string) in
  let i := Z.of_nat input_ptr in
  bool_decide (n ≤ i)%Z || (bool_decide (i = n - 1)%Z && ends_dollar input_string).

(** [parse] with the record of its run: [None] when the stack machine was
    never set up, otherwise the number of rounds and the way the loop was
    left.  The outer [option] is [None] when the fuel runs out. *)
Definition parse_run (p : t) (input_string : string) (fuel : nat)
    : option (result bool * option (nat * loop_exit)) :=
  if negb (is_ll1 p) then Some (Ok false, None)
  else
    let input_string := normalize input_string in
    match loop p input_string fuel 0 [start_symbol (grammar p); "$"] 0 with
    | None => None
    | Some (rounds, StackEmpty input_ptr) =>
        Some (Ok (accepts input_string input_ptr), Some (rounds, StackEmpty input_ptr))
    | Some (rounds, Rejected) => Some (Ok false, Some (rounds, Rejected))
    | Some (rounds, Raised e) => Some (Raise e, Some (rounds, Raised e))
    end.

Definition parse (p : t) (input_string : string) (fuel : nat) : option (result bool) :=
  fst <$> parse_run p input_string fuel.

Definition is_grammar_ll1 (p : t) : bool := is_ll1 p.

End LL1Parser.

(** ** slr1_parser.py: class SLR1Parser *)

Abbreviation item := (string * string * nat)%type.
Abbreviation slr_actions := (gmap nat (gmap string (option string))).
Abbreviation slr_gotos := (gmap nat (gmap string nat)).
Abbreviation collection := (list (gset item) * gmap (nat * string) nat)%type.

(** [int(s)] for a string of decimal digits. *)
Fixpoint int_of_digits (acc : nat) (s : string) : option nat :=
  match s with
  | EmptyString => Some acc
  | String c rest =>
      match Ascii.is_nat c with
      | Some d => int_of_digits (10 * acc + d) rest
      | None => None
      end
  end.

Definition int_of_string (s : string) : option nat :=
  match s with
  | EmptyString => None
  | _ => int_of_digits 0 s
  end.

(** [s.split('->')]: the pieces between the occurrences of the arrow, read
    from the left. *)
Fixpoint split_arrow (piece : string) (s : string) : list string :=
  match s with
  | EmptyString => [piece]
  | String "-" (String ">" rest) => piece :: split_arrow "" rest
  | String c rest => split_arrow (piece +:+ String c EmptyString) rest
  end.

(** [l.index(x)]. *)
Fixpoint index_of {A} `{EqDecision A} (x : A) (l : list A) : option nat :=
  match l with
  | [] => None
  | y :: l' => if decide (x = y) then Some 0 else S <$> index_of x l'
  end.

Module SLR1Parser.

Record t := mk {
  grammar : Grammar;
  augmented_grammar : Grammar;
  first_sets : setmap;
  follow_sets : setmap;
  canonical_collection : collection;
  action_table : slr_actions;
  goto_table : slr_gotos;
  is_slr1 : bool
}.

Definition _augment_grammar (g : Grammar) : Grammar :=
  let aug_grammar :=
    foldl (λ aug r, foldl (λ aug production, add_production aug r.1 [production]) aug r.2)
          Grammar_init (productions g) in
  let aug_grammar := add_production aug_grammar "S'" [start_symbol g] in
  mkGrammar (productions aug_grammar) (terminals aug_grammar)
            (non_terminals aug_grammar) "S'".

(** [dot_pos >= len(production) or production == 'e']. *)
Definition dot_at_end (production : string) (dot_pos : nat) : bool :=
  (String.length production <=? dot_pos)%nat || bool_decide (production = "e").

(** The body of [for item in closure] in [_closure]. *)
Definition closure_item (aug : Grammar) (closure : gset item) (new_items : gset item)
    (it : item) : result (gset item) :=
  let '(non_terminal, production, dot_pos) := it in
  if dot_at_end production dot_pos then Ok new_items
  else
    match chars production !! dot_pos with
    | None => Raise IndexError
    | Some symbol_after_dot =>
        if bool_decide (symbol_after_dot ∈ non_terminals aug) then
          match dict_get symbol_after_dot (productions aug) with
          | None => Raise (KeyError symbol_after_dot)
          | Some prods =>
              Ok (foldl (λ acc prod,
                           let new_item := (symbol_after_dot, prod, 0) in
                           if bool_decide (new_item ∉ closure)
                           then {[new_item]} ∪ acc else acc)
                        new_items prods)
          end
        else Ok new_items
    end.

(** One round of the [while True] loop of [_closure]. *)
Definition closure_pass (aug : Grammar) (closure : gset item)
    : result (gset item * bool) :=
  new_items ← foldlM (closure_item aug closure) ∅ (elements closure);
  if bool_decide (new_items = ∅) then Ok (closure, false)
  else Ok (closure ∪ new_items, true).

Definition closure_fuel (aug : Grammar) : nat :=
  S (length (concat (productions aug).*2)).

Definition _closure (aug : Grammar) (items : gset item) : result (gset item) :=
  iterate (closure_pass aug) (closure_fuel aug) items.

Definition goto_item (symbol : string) (goto_items : gset item) (it : item)
    : gset item :=
  let '(non_terminal, production, dot_pos) := it in
  if dot_at_end production dot_pos then goto_items
  else if bool_decide (chars production !! dot_pos = Some symbol)
       then {[(non_terminal, production, dot_pos + 1)]} ∪ goto_items
       else goto_items.

Definition _goto (aug : Grammar) (items : gset item) (symbol : string)
    : result (gset item) :=
  _closure aug (foldl (goto_item symbol) ∅ (elements items)).

(** The body of [for symbol in symbols] in [_build_canonical_collection]. *)
Definition canon_symbol (aug : Grammar) (i : nat) (current_state : gset item)
    (acc : collection) (symbol : string) : result collection :=
  let '(states, transitions) := acc in
  goto_result ← _goto aug current_state symbol;
  if bool_decide (goto_result ≠ ∅) && bool_decide (goto_result ∉ states) then
    let states := states ++ [goto_result] in
    Ok (states, <[(i, symbol) := length states - 1]> transitions)
  else if bool_decide (goto_result ≠ ∅) then
    match index_of goto_result states with
    | Some j => Ok (states, <[(i, symbol) := j]> transitions)
    | None => Raise ValueError
    end
  else Ok acc.

(** The body of [while i < len(states)]. *)
Definition canon_body (aug : Grammar) (symbols : list string) (s : nat * collection)
    : result (nat * collection) :=
  match s.2.1 !! s.1 with
  | None => Raise IndexError
  | Some current_state =>
      acc ← foldlM (canon_symbol aug s.1 current_state) s.2 symbols;
      Ok (s.1 + 1, acc)
  end.

Definition canon_cond (s : nat * collection) : bool := (s.1 <? length s.2.1)%nat.

(** Every item of the augmented grammar, dot positions included. *)
Definition item_universe (aug : Grammar) : list item :=
  r ← productions aug; production ← r.2;
  (λ d, (r.1, production, d)) <$> seq 0 (S (String.length production)).

Definition canon_fuel (aug : Grammar) : nat := S (length (item_universe aug)).

Definition _build_canonical_collection (g aug : Grammar) : result collection :=
  let initial_item : item := ("S'", start_symbol g, 0) in
  initial_items ← _closure aug {[initial_item]};
  let symbols := elements (terminals aug ∪ non_terminals aug) in
  s ← while_loop canon_cond (canon_body aug symbols) (canon_fuel aug)
                 (0, ([initial_items], ∅));
  Ok s.2.

(** The write into an ACTION cell: the conflict marker when the cell
    holds something else, the action otherwise. *)
Definition action_write (state_idx : nat) (action : string)
    (action_table : slr_actions) (symbol : string) : slr_actions :=
  let row := action_table !!! state_idx in
  if bool_decide (symbol ∈ dom row) && bool_decide (row !! symbol ≠ Some (Some action))
  then <[state_idx := <[symbol := None]> row]> action_table
  else <[state_idx := <[symbol := Some action]> row]> action_table.

(** The body of [for item in state] in [_build_parsing_tables]. *)
Definition action_item (g : Grammar) (follow_sets : setmap)
    (transitions : gmap (nat * string) nat) (state_idx : nat)
    (action_table : slr_actions) (it : item) : slr_actions :=
  let '(non_terminal, production, dot_pos) := it in
  if (dot_pos <? String.length production)%nat && bool_decide (production ≠ "e") then
    match chars production !! dot_pos with
    | None => action_table
    | Some symbol =>
        match transitions !! (state_idx, symbol) with
        | Some next_state =>
            if negb (isupper symbol)
            then action_write state_idx ("s" +:+ pretty next_state) action_table symbol
            else action_table
        | None => action_table
        end
    end
  else if ((String.length production <=? dot_pos)%nat && bool_decide (production ≠ "e"))
          || (bool_decide (production = "e") && bool_decide (dot_pos = 0)) then
    foldl (λ tbl terminal,
             let action :=
               if bool_decide (non_terminal = "S'")
                  && bool_decide (production = start_symbol g)
               then "acc"
               else "r" +:+ non_terminal +:+ "->" +:+ production in
             action_write state_idx action tbl terminal)
          action_table (elements (follow_sets !!! non_terminal))
  else action_table.

Definition goto_entry (aug : Grammar) (goto_table : slr_gotos)
    (tr : nat * string * nat) : slr_gotos :=
  let '(state, symbol, next_state) := tr in
  if bool_decide (symbol ∈ non_terminals aug)
  then <[state := <[symbol := next_state]> (goto_table !!! state)]> goto_table
  else goto_table.

Definition _build_parsing_tables (g aug : Grammar) (follow_sets : setmap)
    (cc : collection) : slr_actions * slr_gotos :=
  let '(states, transitions) := cc in
  let action_table : slr_actions :=
    foldl (λ tbl i, <[i := ∅]> tbl) ∅ (seq 0 (length states)) in
  let goto_table : slr_gotos :=
    foldl (λ tbl i, <[i := ∅]> tbl) ∅ (seq 0 (length states)) in
  let goto_table := foldl (goto_entry aug) goto_table (map_to_list transitions) in
  let action_table :=
    foldl (λ tbl s, foldl (action_item g follow_sets transitions s.1) tbl (elements s.2))
          action_table (imap (λ i state, (i, state)) states) in
  (action_table, goto_table).

Definition _check_if_slr1 (action_table : slr_actions) : bool :=
  bool_decide (map_Forall (λ _ actions,
                 map_Forall (λ _ action, action ≠ None)
                            (actions : gmap string (option string)))
               action_table).

(** [SLR1Parser.__init__]. *)
Definition new (g : Grammar) : result t :=
  let aug := _augment_grammar g in
  first ← get_first_set aug;
  follow ← get_follow_set aug first;
  cc ← _build_canonical_collection g aug;
  let tables := _build_parsing_tables g aug follow cc in
  Ok (mk g aug first follow cc tables.1 tables.2 (_check_if_slr1 tables.1)).

(** The stack of [parse] holds states and symbols; its top is at the head. *)
Inductive entry := St (state : nat) | Sym (symbol : string).

Inductive step_result :=
  | Continue (stack : list entry) (input_ptr : nat)
  | Return (b : bool)
  | Fail (e : exn).

(** [for _ in range(n): stack.pop()]. *)
Fixpoint pop_n (n : nat) (stack : list entry) : option (list entry) :=
  match n with
  | 0 => Some stack
  | S n' => match stack with [] => None | _ :: stack' => pop_n n' stack' end
  end.

Definition starts_with (c : ascii) (s : string) : bool :=
  match s with String c' _ => bool_decide (c = c') | EmptyString => false end.

Definition tail (s : string) : string :=
  match s with String _ rest => rest | EmptyString => EmptyString end.

Definition reduce (p : t) (action : string) (stack : list entry) (input_ptr : nat)
    : step_result :=
  match split_arrow "" (tail action) with
  | non_terminal :: production :: _ =>
      let popped :=
        if bool_decide (production ≠ "e")
        then pop_n (2 * String.length production) stack else Some stack in
      match popped with
      | None => Fail IndexError
      | Some [] => Fail IndexError
      | Some (Sym s :: _) => Fail (KeyError s)
      | Some ((St top_state :: _) as stack') =>
          match goto_table p !! top_state with
          | None => Fail (KeyError (pretty top_state))
          | Some row =>
              match row !! non_terminal with
              | Some next_state =>
                  Continue (St next_state :: Sym non_terminal :: stack') input_ptr
              | None => Return false
              end
          end
      end
  | _ => Fail IndexError
  end.

(** One round of [while True] in [parse]. *)
Definition step (p : t) (input_string : string) (stack : list entry) (input_ptr : nat)
    : step_result :=
  match stack with
  | [] => Fail IndexError
  | Sym s :: _ => Fail (KeyError s)
  | St current_state :: _ =>
      let current := LL1Parser.current_input input_string input_ptr in
      match action_table p !! current_state with
      | None => Fail (KeyError (pretty current_state))
      | Some row =>
          match row !! current with
          | None => Return false
          | Some None => Return false
          | Some (Some action) =>
              if starts_with "s" action then
                match int_of_string (tail action) with
                | Some next_state =>
                    Continue (St next_state :: Sym current :: stack) (input_ptr + 1)
                | None => Fail ValueError
                end
              else if starts_with "r" action then reduce p action stack input_ptr
              else if bool_decide (action = "acc") then Return true
              else Return false
          end
      end
  end.

Fixpoint loop (p : t) (input_string : string) (fuel : nat) (rounds : nat)
    (stack : list entry) (input_ptr : nat) : option (nat * result bool) :=
  match fuel with
  | 0 => None
  | S fuel' =>
      match step p input_string stack input_ptr with
      | Continue stack' input_ptr' =>
          loop p input_string fuel' (S rounds) stack' input_ptr'
      | Return b => Some (S rounds, Ok b)
      | Fail e => Some (S rounds, Raise e)
      end
  end.

(** [parse] with the record of its run: [None] when the shift-reduce
    machine was never set up, otherwise the number of rounds it ran. *)
Definition parse_run (p : t) (input_string : string) (fuel : nat)
    : option (result bool * option nat) :=
  if negb (is_slr1 p) then Some (Ok false, None)
  else
    let input_string := LL1Parser.normalize input_string in
    match loop p input_string fuel 0 [St 0] 0 with
    | None => None
    | Some (rounds, r) => Some (r, Some rounds)
    end.

Definition parse (p : t) (input_string : string) (fuel : nat) : option (result bool) :=
  fst <$> parse_run p input_string fuel.

Definition is_grammar_slr1 (p : t) : bool := is_slr1 p.

End SLR1Parser.

(** * Vocabulary of the statements *)

(** ** Grammars *)

(** Every symbol occurrence of the right-hand sides. *)
Definition symbols_of (d : list (string * list string)) : list string :=
  concat (chars <$> concat d.*2).

(** A symbol [add_production] files as a terminal. *)
Definition is_terminal_symbol (s : string) : Prop := isupper s = false ∧ s ≠ "e".

Global Instance is_terminal_symbol_dec s : Decision (is_terminal_symbol s).
Proof. unfold is_terminal_symbol. apply _. Defined.

(** What [add_production] maintains: the keys are distinct, and the two
    symbol sets are the classification of the symbols seen so far. *)
Record grammar_ok (g : Grammar) : Prop := {
  ok_nodup : NoDup (dict_keys (productions g));
  ok_terminals :
    terminals g = filter is_terminal_symbol (list_to_set (symbols_of (productions g)));
  ok_non_terminals :
    non_terminals g =
      list_to_set (dict_keys (productions g))
      ∪ filter (λ s, isupper s = true) (list_to_set (symbols_of (productions g)))
}.

Ltac filter_solver :=
  apply set_eq; intros ?;
  rewrite ?elem_of_union, ?elem_of_filter, ?elem_of_union, ?elem_of_singleton;
  naive_solver congruence.

(** ** Maps of sets *)

(** The loops that add the members of [X] one at a time to [sets[key]] and
    raise the flag on the first new one amount to this. *)
Definition grow (key : string) (X : gset string) (st : setmap * bool) : setmap * bool :=
  if decide (X ⊆ st.1 !!! key) then st else (<[key := X ∪ st.1 !!! key]> st.1, true).

(** The number of pairs (key, member) over the keys [K]. *)
Definition mass (K : list string) (F : setmap) : nat :=
  sum_list_with (λ k, size (F !!! k)) K.

(** Every set of [F] is within the set of [F'] under the same key. *)
Definition below (F F' : setmap) : Prop := ∀ k, F !!! k ⊆ F' !!! k.

(** A state reached from another one through additions flagged as such:
    either nothing happened, or the flag is up and the mass went up. *)
Definition advances (K : list string) (st st' : setmap * bool) : Prop :=
  st' = st ∨ (st'.2 = true ∧ below st.1 st'.1 ∧ mass K st.1 < mass K st'.1).

(** ** FIRST *)

(** The (non-terminal, production) pairs in the order in which the nested
    loops [for non_terminal, productions in ...: for production in ...]
    meet them. *)
Definition rules_of (d : list (string * list string)) : list (string * string) :=
  r ← d; (λ p, (r.1, p)) <$> r.2.

(** What the FIRST map satisfies from its initialisation on. *)
Record first_ok (g : Grammar) (F : setmap) : Prop := {
  first_dom : dom F = {["e"]} ∪ terminals g ∪ non_terminals g;
  first_range : ∀ k, F !!! k ⊆ {["e"]} ∪ terminals g
}.

(** ** FOLLOW *)

(** The positions of a production: each symbol with what comes after it. *)
Fixpoint suffixes (l : list string) : list (string * list string) :=
  match l with
  | [] => []
  | s :: rest => (s, rest) :: suffixes rest
  end.

(** The body of [for i, symbol in enumerate(production)]. *)
Definition follow_at (first_sets : setmap) (non_terminal : string)
    (st : setmap * bool) (sr : string * list string) : setmap * bool :=
  if isupper sr.1 then
    match sr.2 with
    | [] => grow sr.1 (st.1 !!! non_terminal) st
    | _ :: _ =>
        let fr := first_of_rest first_sets sr.2 in
        let st1 := grow sr.1 fr.1 st in
        if fr.2 then grow sr.1 (st1.1 !!! non_terminal) st1 else st1
    end
  else st.

(** What the FOLLOW map satisfies from its initialisation on. *)
Record follow_ok (g : Grammar) (first_sets : setmap) (F : setmap) : Prop := {
  follow_dom : dom F = non_terminals g;
  follow_range : ∀ k, F !!! k ⊆ follow_universe g first_sets
}.

(** ** The LL(1) table *)

Section ll1_vocabulary.
Import LL1Parser.

(** The terminals under which [_build_parse_table] writes a production, in
    the order of the writes: FIRST of the production without [e], then
    FOLLOW of the non-terminal when [e] is in that FIRST. *)
Definition writes_of (first_sets follow_sets : setmap) (nt p : string) : list string :=
  filter (λ t, t ≠ "e") (elements (_get_first_of_string first_sets p))
  ++ (if bool_decide ("e" ∈ _get_first_of_string first_sets p)
      then elements (follow_sets !!! nt) else []).

(** A cell: absent, a production, or the conflict marker. *)
Definition cell_after (c : option (option string)) (ps : list string)
    : option (option string) :=
  foldl (λ c p, match c with None => Some (Some p) | Some _ => Some None end) c ps.

(** How many times [_build_parse_table] writes [p] into the cell ([nt], [t]). *)
Definition hits (first_sets follow_sets : setmap) (nt p t : string) : nat :=
  length (filter (λ x, x = t) (writes_of first_sets follow_sets nt p)).

(** The productions written into the cell ([A], [t]), in order. *)
Definition writers (g : Grammar) (first_sets follow_sets : setmap) (A t : string)
    : list string :=
  kp ← rules_of (productions g);
  if decide (kp.1 = A) then replicate (hits first_sets follow_sets kp.1 kp.2 t) kp.2 else [].

(** What is known of a parser that [LL1Parser.new] returned. *)
Record built (g : Grammar) (p : LL1Parser.t) : Prop := {
  built_start : start_symbol g ∈ non_terminals g;
  built_grammar : grammar p = g;
  built_first : get_first_set g = Ok (first_sets p);
  built_first_ok : first_ok g (first_sets p);
  built_first_stable : first_pass g (first_sets p) = (first_sets p, false);
  built_follow : get_follow_set g (first_sets p) = Ok (follow_sets p);
  built_follow_ok : follow_ok g (first_sets p) (follow_sets p);
  built_follow_stable :
    follow_pass g (first_sets p) (follow_sets p) = (follow_sets p, false);
  built_follow_start : "$" ∈ follow_sets p !!! start_symbol g;
  built_table : parse_table p = _build_parse_table g (first_sets p) (follow_sets p);
  built_is_ll1 : is_ll1 p = _check_if_ll1 (parse_table p)
}.

End ll1_vocabulary.

(** ** The augmented grammar, closures and the canonical collection *)

Section slr1_vocabulary.
Import SLR1Parser.

(** The non-terminals with at least one production: the augmented grammar
    is built production by production, so the others are not copied. *)
Definition defined (d : list (string * list string)) : list (string * list string) :=
  filter (λ r, r.2 ≠ []) d.

(** The items with the dot at the start: all that [_closure] can add. *)
Definition start_items (aug : Grammar) : gset item :=
  list_to_set ((λ kp, (kp.1, kp.2, 0)) <$> rules_of (productions aug)).

(** The exceptions of the construction: a symbol classified as a
    non-terminal that has no productions. *)
Definition undefined_symbol (aug : Grammar) (e : exn) : Prop :=
  ∃ k, e = KeyError k ∧ k ∈ non_terminals aug ∧ k ∉ dict_keys (productions aug).

(** The set of all items of the augmented grammar. *)
Definition universe (aug : Grammar) : gset item := list_to_set (item_universe aug).

(** The pairs (state, symbol) already dealt with when the loop is at
    state [i] and has gone through the symbols [seen]. *)
Definition covered (i : nat) (seen : list string) (i' : nat) (X : string) : Prop :=
  i' < i ∨ (i' = i ∧ X ∈ seen).

(** The invariant of [_build_canonical_collection] over the symbols
    [syms], at state [i] after the symbols [seen]. *)
Record canon_inv (aug : Grammar) (syms : list string)
    (i : nat) (seen : list string) (c : collection) : Prop := {
  ci_nodup : NoDup c.1;
  ci_states : ∀ st, st ∈ c.1 → st ⊆ universe aug ∧ st ≠ ∅;
  ci_transition : ∀ i' X j, c.2 !! (i', X) = Some j →
    covered i seen i' X ∧ X ∈ syms
    ∧ ∃ cur G, c.1 !! i' = Some cur ∧ _goto aug cur X = Ok G ∧ G ≠ ∅ ∧ c.1 !! j = Some G;
  ci_complete : ∀ i' X cur, covered i seen i' X → X ∈ syms → c.1 !! i' = Some cur →
    ∃ G, _goto aug cur X = Ok G
         ∧ (if decide (G = ∅) then c.2 !! (i', X) = None
            else ∃ j, c.2 !! (i', X) = Some j ∧ c.1 !! j = Some G)
}.

(** What holds between two rounds of [while i < len(states)]. *)
Definition canon_state_inv (aug : Grammar) (syms : list string)
    (I0 : gset item) (s : nat * collection) : Prop :=
  canon_inv aug syms s.1 [] s.2 ∧ s.1 ≤ length s.2.1 ∧ s.2.1 !! 0 = Some I0.

(** ** The collection returned, and the ACTION table *)

(** What is known of the collection [_build_canonical_collection] returns:
    the invariant at the index where the loop stops, which is the number of
    states. *)
Definition canon_final (g aug : Grammar) (c : collection) : Prop :=
  canon_inv aug (elements (terminals aug ∪ non_terminals aug)) (length c.1) [] c
  ∧ ∃ I0, _closure aug {[("S'", start_symbol g, 0)]} = Ok I0 ∧ c.1 !! 0 = Some I0.

(** An ACTION cell after the actions [l] were written into it. *)
Definition action_after (c : option (option string)) (l : list string)
    : option (option string) :=
  foldl (λ c a, match c with
                | None => Some (Some a)
                | Some c' => if decide (c' = Some a) then c else Some None
                end) c l.

(** The writes one item of a state causes: (terminal, action) pairs. *)
Definition item_events (g : Grammar) (follow_sets : setmap)
    (transitions : gmap (nat * string) nat) (state_idx : nat) (it : item)
    : list (string * string) :=
  let '(non_terminal, production, dot_pos) := it in
  if (dot_pos <? String.length production)%nat && bool_decide (production ≠ "e") then
    match chars production !! dot_pos with
    | None => []
    | Some symbol =>
        match transitions !! (state_idx, symbol) with
        | Some next_state =>
            if negb (isupper symbol) then [(symbol, "s" +:+ pretty next_state)] else []
        | None => []
        end
    end
  else if ((String.length production <=? dot_pos)%nat && bool_decide (production ≠ "e"))
          || (bool_decide (production = "e") && bool_decide (dot_pos = 0)) then
    (λ terminal,
       (terminal,
        if bool_decide (non_terminal = "S'") && bool_decide (production = start_symbol g)
        then "acc" else "r" +:+ non_terminal +:+ "->" +:+ production))
    <$> elements (follow_sets !!! non_terminal)
  else [].

(** All writes of [_build_parsing_tables] into the ACTION table, in order:
    (state, terminal, action). *)
Definition action_events (g : Grammar) (follow_sets : setmap) (cc : collection)
    : list (nat * string * string) :=
  s ← imap (λ i state, (i, state)) cc.1;
  (λ ta, (s.1, ta.1, ta.2)) <$>
    (it ← elements s.2; item_events g follow_sets cc.2 s.1 it).

(** The actions written into the cell ([i], [t]). *)
Definition actions_at (g : Grammar) (follow_sets : setmap) (cc : collection)
    (i : nat) (t : string) : list string :=
  omap (λ e : nat * string * string,
          if decide (e.1.1 = i ∧ e.1.2 = t) then Some e.2 else None)
       (action_events g follow_sets cc).

(** What is known of a parser that [SLR1Parser.new] returned. *)
Record slr_built (g : Grammar) (p : SLR1Parser.t) : Prop := {
  sb_grammar : grammar p = g;
  sb_augmented : augmented_grammar p = _augment_grammar g;
  sb_first : get_first_set (_augment_grammar g) = Ok (first_sets p);
  sb_follow : get_follow_set (_augment_grammar g) (first_sets p) = Ok (follow_sets p);
  sb_collection :
    _build_canonical_collection g (_augment_grammar g) = Ok (canonical_collection p);
  sb_final : canon_final g (_augment_grammar g) (canonical_collection p);
  sb_action :
    action_table p
    = (_build_parsing_tables g (_augment_grammar g) (follow_sets p)
         (canonical_collection p)).1;
  sb_goto :
    goto_table p
    = (_build_parsing_tables g (_augment_grammar g) (follow_sets p)
         (canonical_collection p)).2;
  sb_is_slr1 : is_slr1 p = _check_if_slr1 (action_table p)
}.

End slr1_vocabulary.

(** ** Derivations *)

(** The members FIRST starts from: [e] for [e], a terminal for itself. *)
Definition seed (g : Grammar) (X t : string) : Prop :=
  (X = "e" ∧ t = "e") ∨ (X ∈ terminals g ∧ t = X).

(** [t] is in FIRST of [X] by a derivation of depth at most [n]. *)
Fixpoint derives (g : Grammar) (n : nat) (X t : string) : Prop :=
  match n with
  | 0 => seed g X t
  | S m =>
      derives g m X t
      ∨ ∃ q, (X, q) ∈ rules_of (productions g)
             ∧ ((t = "e" ∧ Forall (λ x, derives g m x "e") (chars q))
                ∨ (t ≠ "e" ∧ ∃ pre s post, chars q = pre ++ s :: post
                     ∧ Forall (λ x, derives g m x "e") pre ∧ derives g m s t))
  end.

(** What [get_first_set] keeps beyond [first_ok]: the sets of symbols
    without productions stay as initialised, and every member has a
    derivation. *)
Record first_sound (g : Grammar) (F : setmap) : Prop := {
  fs_ok : first_ok g F;
  fs_seed : ∀ x, x ∉ dict_keys (productions g) → F !!! x = first_init g !!! x;
  fs_derives : ∀ X t, t ∈ F !!! X → ∃ n, derives g n X t
}.

(** No set holds [e]. *)
Definition no_eps (Fo : setmap) : Prop := ∀ k, "e" ∉ Fo !!! k.

(** ** Runs of the LL(1) stack machine *)

Section machine_vocabulary.
Import LL1Parser.

(** The machine goes from one configuration to another without leaving
    the loop. *)
Inductive reach (p : LL1Parser.t) (input : string)
    : list string → nat → list string → nat → Prop :=
  | reach_refl stk ptr : reach p input stk ptr stk ptr
  | reach_step top stk ptr stk1 ptr1 stk' ptr' :
      step p input top stk ptr = Continue stk1 ptr1 →
      reach p input stk1 ptr1 stk' ptr' →
      reach p input (top :: stk) ptr stk' ptr'.

(** The symbols a stack of a run is made of. *)
Definition stack_sym (g : Grammar) (s : string) : Prop :=
  s ∈ symbols_of (productions g) ∨ s = start_symbol g.

(** The stacks of a run: symbols of the grammar above the end marker. *)
Definition stack_ok (g : Grammar) (stk : list string) : Prop :=
  stk = [] ∨ ∃ body, stk = body ++ ["$"] ∧ Forall (stack_sym g) body.

(** The loop, entered with the stack [stk] and the cursor at [ptr], is left,
    and not by an exception. *)
Definition halts (p : LL1Parser.t) (input : string)
    (rounds : nat) (stk : list string) (ptr : nat) : Prop :=
  ∃ fuel n r, loop p input fuel rounds stk ptr = Some (n, r) ∧ ∀ e, r ≠ Raised e.

End machine_vocabulary.

(** ** The statements of the specification *)

(** The alternative [q] occurs twice among the alternatives [ps]. *)
Definition duplicated (q : string) (ps : list string) : Prop :=
  ∃ l1 l2 l3, ps = l1 ++ q :: l2 ++ q :: l3.

(** Every left-hand side is an uppercase symbol. *)
Definition upper_keys (g : Grammar) : Prop :=
  Forall (λ k, isupper k = true) (dict_keys (productions g)).

(** The end marker does not occur in a production. *)
Definition dollar_free (g : Grammar) : Prop := "$" ∉ symbols_of (productions g).

(** Every left-hand side is a single character. *)
Definition single_char_keys (g : Grammar) : Prop :=
  Forall (λ k, String.length k = 1) (dict_keys (productions g)).

(** The claim as the specification words it: a duplicated alternative
    gives a conflict cell, and the grammar is reported as not LL(1). *)
Definition C1_stated (rules : list (string * list string)) : Prop :=
  ∀ p A ps q,
    LL1Parser.new (grammar_of rules) = Ok p →
    (A, ps) ∈ productions (grammar_of rules) → duplicated q ps →
    (∃ t, (LL1Parser.parse_table p !!! A) !! t = Some None)
    ∧ LL1Parser.is_ll1 p = false.

(** The claim as the specification words it: the input ["$"] is accepted
    exactly when [e] is in FIRST of the start symbol. *)
Definition C3_stated (rules : list (string * list string)) : Prop :=
  ∀ p, LL1Parser.new (grammar_of rules) = Ok p →
    (∃ fuel, LL1Parser.parse p "$" fuel = Some (Ok true))
    ↔ "e" ∈ LL1Parser.first_sets p !!! start_symbol (LL1Parser.grammar p).

(** The claim as the specification words it, for a run that left the loop
    with the stack empty: the answer is [True] exactly when the cursor is
    at the end of the input or one before it. *)
Definition C6_stated (rules : list (string * list string)) : Prop :=
  ∀ p input_string fuel rounds ptr r,
    LL1Parser.new (grammar_of rules) = Ok p → LL1Parser.is_ll1 p = true →
    LL1Parser.parse_run p input_string fuel
    = Some (r, Some (rounds, LL1Parser.StackEmpty ptr)) →
    r = Ok true
    ↔ (ptr = String.length (LL1Parser.normalize input_string)
       ∨ ptr = String.length (LL1Parser.normalize input_string) - 1).

(** The claim as the specification words it: when ['S'] has no
    productions, FOLLOW and both constructions raise. *)
Definition C9_stated (rules : list (string * list string)) : Prop :=
  "S" ∉ dict_keys (productions (grammar_of rules)) →
  (∀ first_sets, ∃ e, get_follow_set (grammar_of rules) first_sets = Raise e)
  ∧ (∃ e, LL1Parser.new (grammar_of rules) = Raise e)
  ∧ (∃ e, SLR1Parser.new (grammar_of rules) = Raise e).

(** The claim as the specification words it: [parse] of a constructed
    parser returns a boolean on every input. *)
Definition C10_stated (rules : list (string * list string)) : Prop :=
  ∀ p input_string, LL1Parser.new (grammar_of rules) = Ok p →
    ∃ fuel b, LL1Parser.parse p input_string fuel = Some (Ok b).

(** ** Further properties *)

(** The production [q] of [A] is written under the terminal [t]. *)
Definition selects (first_sets follow_sets : setmap) (A q t : string) : Prop :=
  (t ∈ LL1Parser._get_first_of_string first_sets q ∧ t ≠ "e")
  ∨ ("e" ∈ LL1Parser._get_first_of_string first_sets q ∧ t ∈ follow_sets !!! A).

(** The stack [stk] of the LL(1) machine can consume the symbols [w]: [e]
    consumes nothing, another symbol that is not uppercase consumes
    itself, and an uppercase symbol is replaced by one of its
    productions. *)
Inductive yields (g : Grammar) : list string → list string → Prop :=
  | yields_nil : yields g [] []
  | yields_eps stk w : yields g stk w → yields g ("e" :: stk) w
  | yields_terminal t stk w :
      isupper t = false → t ≠ "e" → yields g stk w → yields g (t :: stk) (t :: w)
  | yields_rule A q stk w :
      isupper A = true → (A, q) ∈ rules_of (productions g) →
      yields g (chars q ++ stk) w → yields g (A :: stk) w.

(** The symbols the machine reads from position [ptr] to position [ptr']:
    past the end of the input it reads [$]. *)
Definition read (input_string : string) (ptr ptr' : nat) : list string :=
  LL1Parser.current_input input_string <$> seq ptr (ptr' - ptr).

(** The symbols on the stack of a run: the end marker, the start symbol,
    and symbols of the productions. *)
Definition stack_symbols (g : Grammar) (stk : list string) : Prop :=
  Forall (λ s, s = "$" ∨ stack_sym g s) stk.

(** The arrow [->] occurs in the string. *)
Fixpoint has_arrow (s : string) : bool :=
  match s with
  | EmptyString => false
  | String "-" (String ">" _) => true
  | String _ rest => has_arrow rest
  end.

(** The item set [C] holds, for every item of [items] with a non-terminal
    after the dot, the items that start the productions of that
    non-terminal. *)
Definition closed_over (aug : Grammar) (items C : gset item) : Prop :=
  ∀ A q d B, (A, q, d) ∈ items → SLR1Parser.dot_at_end q d = false →
    chars q !! d = Some B → B ∈ non_terminals aug →
    ∃ prods, dict_get B (productions aug) = Some prods
             ∧ ∀ prod, prod ∈ prods → (B, prod, 0) ∈ C.

(** * Properties *)

(** ** The loop combinators *)

Section iterate.
Context {S : Type} (pass : S → result (S * bool)).

(** Whatever one round preserves holds of the result. *)
Lemma iterate_invariant (Inv : S → Prop) :
  (∀ s s' b, Inv s → pass s = Ok (s', b) → Inv s') →
  ∀ fuel s s', Inv s → iterate pass fuel s = Ok s' → Inv s'.
Proof.
  intros Hpass fuel. induction fuel as [|n IH]; intros s s' Hs; simpl; [done|].
  destruct (pass s) as [[s1 b]| |] eqn:E; simpl; try done.
  destruct b; [apply IH; eauto|]. intros [= <-]. eauto.
Qed.

(** The result comes out of a round that changed nothing. *)
Lemma iterate_stable (Inv : S → Prop) :
  (∀ s s' b, Inv s → pass s = Ok (s', b) → Inv s') →
  ∀ fuel s s', Inv s → iterate pass fuel s = Ok s' →
  ∃ s0, Inv s0 ∧ pass s0 = Ok (s', false).
Proof.
  intros Hpass fuel. induction fuel as [|n IH]; intros s s' Hs; simpl; [done|].
  destruct (pass s) as [[s1 b]| |] eqn:E; simpl; try done.
  destruct b; [apply IH; eauto|]. intros [= <-]. eauto.
Qed.

(** A measure that is bounded and grows with every round that reports a
    change bounds the number of rounds. *)
Lemma iterate_fuel (Inv : S → Prop) (μ : S → nat) (B : nat) :
  (∀ s, Inv s → μ s ≤ B) →
  (∀ s, Inv s →
     match pass s with
     | Ok (s', b) => Inv s' ∧ (b = true → μ s < μ s')
     | Raise _ => True
     | OutOfFuel => False
     end) →
  ∀ fuel s, Inv s → B < fuel + μ s → iterate pass fuel s ≠ OutOfFuel.
Proof.
  intros Hb Hpass fuel. induction fuel as [|n IH]; intros s Hs Hlt; simpl.
  { specialize (Hb s Hs). lia. }
  specialize (Hpass s Hs). destruct (pass s) as [[s1 b]| |]; simpl; try done.
  destruct Hpass as [Hs1 Hgrow]. destruct b; [|done].
  apply IH; [done|]. specialize (Hgrow eq_refl). lia.
Qed.
End iterate.

Section while_pow.
Context {S : Type} (cond : S → bool) (body : S → result S).

(** A measure that every round of the body decreases bounds the rounds;
    [E] holds of whatever the body raises. *)
Lemma while_pow_cases (Inv : S → Prop) (μ : S → nat) (E : exn → Prop) :
  (∀ s, Inv s → cond s = true →
     match body s with
     | Ok s' => Inv s' ∧ μ s' < μ s
     | Raise e => E e
     | OutOfFuel => False
     end) →
  ∀ k s, Inv s →
    match while_pow cond body k s with
    | Ok (s', b) =>
        Inv s' ∧ (b = true → cond s' = false) ∧ (b = true ∨ μ s' + 2 ^ k ≤ μ s)
    | Raise e => E e
    | OutOfFuel => False
    end.
Proof.
  intros Hbody k. induction k as [|k IH]; intros s Hs; simpl.
  - destruct (cond s) eqn:Hc; [|auto].
    specialize (Hbody s Hs Hc). destruct (body s) as [s1| |]; simpl; try done.
    split_and!; [tauto|done|]. right. lia.
  - specialize (IH s Hs) as IH1.
    destruct (while_pow cond body k s) as [[s1 b1]| |]; simpl; try done.
    destruct IH1 as (Hs1 & Hc1 & Hb1). destruct b1; [auto|].
    destruct Hb1 as [?|Hb1]; [done|].
    specialize (IH s1 Hs1).
    destruct (while_pow cond body k s1) as [[s2 b2]| |]; simpl; try done.
    destruct IH as (Hs2 & Hc2 & Hb2). split_and!; [done|done|].
    destruct Hb2 as [?|Hb2]; [auto|]. right. lia.
Qed.

Lemma while_loop_cases (Inv : S → Prop) (μ : S → nat) (E : exn → Prop) :
  (∀ s, Inv s → cond s = true →
     match body s with
     | Ok s' => Inv s' ∧ μ s' < μ s
     | Raise e => E e
     | OutOfFuel => False
     end) →
  ∀ k s, Inv s → μ s < 2 ^ k →
    match while_loop cond body k s with
    | Ok s' => Inv s' ∧ cond s' = false
    | Raise e => E e
    | OutOfFuel => False
    end.
Proof.
  intros Hbody k s Hs Hlt. unfold while_loop.
  pose proof (while_pow_cases Inv μ E Hbody k s Hs) as H.
  destruct (while_pow cond body k s) as [[s1 b1]| |]; simpl; try done.
  destruct H as (Hs1 & Hc1 & [->|H]); [auto|]. lia.
Qed.
End while_pow.

(** ** Grammars built through [add_production] *)

Lemma elem_of_concat {A} (x : A) (ls : list (list A)) :
  x ∈ concat ls ↔ ∃ l, x ∈ l ∧ l ∈ ls.
Proof.
  induction ls as [|l ls IH]; simpl.
  - split; [by intros ?%elem_of_nil | by intros (? & _ & ?%elem_of_nil)].
  - rewrite elem_of_app, IH. split.
    + intros [?|(l' & ? & ?)]; [exists l; split; [done|left] | exists l'; split; [done|by right]].
    + intros (l' & ? & [->|?]%elem_of_cons); [by left | right; eauto].
Qed.

Lemma dict_get_Some k v d : dict_get k d = Some v → (k, v) ∈ d.
Proof.
  induction d as [|[k' v'] d IH]; simpl; [done|].
  case_decide; [intros [= <-]; subst; left | intros; right; auto].
Qed.

Lemma dict_get_None k d : dict_get k d = None ↔ k ∉ dict_keys d.
Proof.
  unfold dict_keys. induction d as [|[k' v'] d IH]; simpl.
  - split; [intros _; apply not_elem_of_nil | done].
  - case_decide as Hk; subst.
    + split; [done | intros []; left].
    + rewrite IH, not_elem_of_cons. naive_solver.
Qed.

Lemma dict_get_elem k v d : NoDup (dict_keys d) → (k, v) ∈ d → dict_get k d = Some v.
Proof.
  unfold dict_keys. induction d as [|[k' v'] d IH]; simpl.
  - intros _ H. by apply elem_of_nil in H.
  - rewrite NoDup_cons. intros [Hk Hnd] [[= <- <-]|Hin]%elem_of_cons.
    + by rewrite decide_True.
    + case_decide; subst; [|auto].
      destruct Hk. apply list_elem_of_fmap. by exists (k', v).
Qed.

Lemma dict_keys_append k x d : dict_keys (dict_append k x d) = dict_keys d.
Proof.
  unfold dict_keys. induction d as [|[k' v'] d IH]; csimpl; [done|].
  case_decide; csimpl; [done | by rewrite IH].
Qed.

Lemma symbols_of_app d1 d2 : symbols_of (d1 ++ d2) = symbols_of d1 ++ symbols_of d2.
Proof. unfold symbols_of. by rewrite fmap_app, concat_app, fmap_app, concat_app. Qed.

Lemma symbols_of_cons k v d :
  symbols_of ((k, v) :: d) = concat (chars <$> v) ++ symbols_of d.
Proof. unfold symbols_of. csimpl. by rewrite fmap_app, concat_app. Qed.

Lemma symbols_of_append k x d :
  k ∈ dict_keys d →
  list_to_set (symbols_of (dict_append k x d))
  =@{gset string} list_to_set (symbols_of d) ∪ list_to_set (chars x).
Proof.
  unfold dict_keys. induction d as [|[k' v'] d IH]; csimpl.
  - intros H. by apply elem_of_nil in H.
  - intros Hin. case_decide as Hk; subst.
    + rewrite !symbols_of_cons, fmap_app, concat_app. csimpl.
      rewrite app_nil_r, !list_to_set_app_L. set_solver.
    + apply elem_of_cons in Hin as [?|Hin]; [done|].
      specialize (IH Hin). rewrite !symbols_of_cons, !list_to_set_app_L, IH. set_solver.
Qed.

Lemma symbols_of_elem d s :
  s ∈ symbols_of d ↔ ∃ k ps p, (k, ps) ∈ d ∧ p ∈ ps ∧ s ∈ chars p.
Proof.
  unfold symbols_of. rewrite elem_of_concat. split.
  - intros (l & Hs & Hl). apply list_elem_of_fmap in Hl as (p & -> & Hp).
    apply elem_of_concat in Hp as (ps & Hp & Hps).
    apply list_elem_of_fmap in Hps as ([k ps'] & -> & Hin). eauto 6.
  - intros (k & ps & p & Hd & Hp & Hs). exists (chars p). split; [done|].
    apply list_elem_of_fmap. exists p. split; [done|].
    apply elem_of_concat. exists ps. split; [done|].
    apply list_elem_of_fmap. by exists (k, ps).
Qed.

Lemma classify_fold g l :
  productions (foldl classify g l) = productions g
  ∧ start_symbol (foldl classify g l) = start_symbol g
  ∧ terminals (foldl classify g l)
    = terminals g ∪ filter is_terminal_symbol (list_to_set l)
  ∧ non_terminals (foldl classify g l)
    = non_terminals g ∪ filter (λ s, isupper s = true) (list_to_set l).
Proof.
  revert g. induction l as [|s l IH]; intros g; simpl.
  - split_and!; [done|done|set_solver|set_solver].
  - destruct (IH (classify g s)) as (Hp & Hs & Ht & Hn).
    rewrite Hp, Hs, Ht, Hn. clear. unfold classify, is_terminal_symbol.
    destruct (isupper s) eqn:Hu; simpl.
    + split_and!; [done|done|filter_solver|filter_solver].
    + case_bool_decide; simpl; (split_and!; [done|done|filter_solver|filter_solver]).
Qed.

Lemma add_one_ok nt g prod :
  grammar_ok g → nt ∈ dict_keys (productions g) →
  grammar_ok (add_one nt g prod)
  ∧ dict_keys (productions (add_one nt g prod)) = dict_keys (productions g)
  ∧ start_symbol (add_one nt g prod) = start_symbol g.
Proof.
  intros [Hnd Ht Hn] Hin. unfold add_one.
  match goal with |- context [foldl classify ?g0 ?l] =>
    destruct (classify_fold g0 l) as (Hp & Hs & Ht' & Hn') end.
  simpl in *. split_and!.
  - split.
    + by rewrite Hp, dict_keys_append.
    + rewrite Ht', Hp. rewrite symbols_of_append by exact Hin. rewrite Ht.
      filter_solver.
    + rewrite Hn', Hp, dict_keys_append. rewrite symbols_of_append by exact Hin.
      rewrite Hn. filter_solver.
  - by rewrite Hp, dict_keys_append.
  - done.
Qed.

Lemma add_one_fold_ok nt g prods :
  grammar_ok g → nt ∈ dict_keys (productions g) →
  grammar_ok (foldl (add_one nt) g prods)
  ∧ dict_keys (productions (foldl (add_one nt) g prods)) = dict_keys (productions g)
  ∧ start_symbol (foldl (add_one nt) g prods) = start_symbol g.
Proof.
  revert g. induction prods as [|p prods IH]; intros g Hok Hin; simpl; [done|].
  destruct (add_one_ok nt g p Hok Hin) as (Hok' & Hk & Hs).
  destruct (IH _ Hok') as (? & ? & ?); [by rewrite Hk|].
  split_and!; [done|congruence|congruence].
Qed.

Lemma add_production_ok g nt prods :
  grammar_ok g →
  grammar_ok (add_production g nt prods)
  ∧ start_symbol (add_production g nt prods) = start_symbol g.
Proof.
  intros Hok. unfold add_production. case_bool_decide as Hin.
  - match goal with |- context [foldl _ ?g0 _] =>
      destruct (add_one_fold_ok nt g0 prods) as (? & ? & ?) end; simpl; [| |done].
    + destruct Hok as [Hnd Ht Hn]. split; simpl.
      * unfold dict_keys in *. rewrite fmap_app. simpl.
        apply NoDup_app. split_and!; [done| |apply NoDup_singleton].
        intros x Hx ->%list_elem_of_singleton. done.
      * rewrite symbols_of_app. unfold symbols_of at 2. simpl. by rewrite app_nil_r.
      * rewrite symbols_of_app. unfold symbols_of at 2. simpl. rewrite app_nil_r.
        unfold dict_keys in *. rewrite fmap_app, list_to_set_app_L, Hn. simpl. set_solver.
    + unfold dict_keys. rewrite fmap_app. simpl. set_solver.
  - destruct (add_one_fold_ok nt g prods) as (? & ? & ?); [done| |done].
    destruct (decide (nt ∈ dict_keys (productions g))); done.
Qed.

Lemma Grammar_init_ok : grammar_ok Grammar_init.
Proof.
  split; simpl.
  - apply NoDup_nil_2.
  - apply set_eq; intros x. rewrite elem_of_filter. set_solver.
  - apply set_eq; intros x. rewrite elem_of_union, elem_of_filter. set_solver.
Qed.

Lemma grammar_of_ok rules :
  grammar_ok (grammar_of rules) ∧ start_symbol (grammar_of rules) = "S".
Proof.
  unfold grammar_of.
  cut (∀ g, grammar_ok g →
         grammar_ok (foldl (λ g r, add_production g r.1 r.2) g rules)
         ∧ start_symbol (foldl (λ g r, add_production g r.1 r.2) g rules) = start_symbol g).
  { intros H. apply (H Grammar_init Grammar_init_ok). }
  induction rules as [|r rules IH]; intros g Hok; simpl; [done|].
  destruct (add_production_ok g r.1 r.2 Hok) as [Hok' Hs].
  destruct (IH _ Hok') as [? ?]. split; [done|congruence].
Qed.

(** Consequences used below. *)
Lemma ok_key_non_terminal g k :
  grammar_ok g → k ∈ dict_keys (productions g) → k ∈ non_terminals g.
Proof. intros [_ _ Hn] Hk. rewrite Hn. set_solver. Qed.

Lemma ok_symbol g s :
  grammar_ok g → s ∈ symbols_of (productions g) →
  s = "e" ∨ s ∈ terminals g ∨ s ∈ non_terminals g.
Proof.
  intros [_ Ht Hn] Hs. rewrite Ht, Hn. destruct (decide (s = "e")) as [|Hne]; [auto|].
  right. destruct (isupper s) eqn:Hu.
  - right. apply elem_of_union_r, elem_of_filter. set_solver.
  - left. apply elem_of_filter. unfold is_terminal_symbol. set_solver.
Qed.

Lemma ok_upper_symbol g s :
  grammar_ok g → s ∈ symbols_of (productions g) → isupper s = true →
  s ∈ non_terminals g.
Proof.
  intros [_ Ht Hn] Hs Hu. rewrite Hn. apply elem_of_union_r, elem_of_filter. set_solver.
Qed.

Lemma ok_terminal g t :
  grammar_ok g → t ∈ terminals g →
  t ∈ symbols_of (productions g) ∧ isupper t = false ∧ t ≠ "e".
Proof.
  intros [_ Ht _]. rewrite Ht. intros [[??] ?]%elem_of_filter. set_solver.
Qed.

(** ** Growing one set of a map of sets *)

Lemma grow_ext key X Y st :
  X ∪ st.1 !!! key = Y ∪ st.1 !!! key → grow key X st = grow key Y st.
Proof.
  intros H. unfold grow. rewrite H.
  destruct (decide (X ⊆ _)), (decide (Y ⊆ _)); set_solver.
Qed.

Lemma grow_empty key st : grow key ∅ st = st.
Proof. unfold grow. rewrite decide_True; set_solver. Qed.

Lemma grow_grow key X Y st : grow key X (grow key Y st) = grow key (X ∪ Y) st.
Proof.
  destruct st as [F b]. unfold grow; simpl.
  destruct (decide (Y ⊆ F !!! key)) as [HY|HY]; simpl.
  - destruct (decide (X ⊆ _)) as [HX|HX]; destruct (decide (X ∪ Y ⊆ _)) as [H|H];
      try set_solver.
    do 2 f_equal. set_solver.
  - rewrite lookup_total_insert_eq.
    rewrite (decide_False (P := X ∪ Y ⊆ _)) by set_solver.
    destruct (decide (X ⊆ _)) as [HX|HX].
    + do 2 f_equal. set_solver.
    + rewrite insert_insert_eq. do 2 f_equal. set_solver.
Qed.

Lemma sets_add_grow key term st : sets_add key term st = grow key {[term]} st.
Proof.
  unfold sets_add, grow. case_bool_decide; [rewrite decide_True|rewrite decide_False];
    set_solver.
Qed.

Lemma sets_add_list_grow key l st :
  foldl (λ st term, sets_add key term st) st l = grow key (list_to_set l) st.
Proof.
  revert st. induction l as [|a l IH]; intros st; simpl.
  - by rewrite grow_empty.
  - rewrite IH, sets_add_grow, grow_grow. apply grow_ext. set_solver.
Qed.

Lemma sets_add_all_grow key src st : sets_add_all key src st = grow key src st.
Proof. unfold sets_add_all. by rewrite sets_add_list_grow, list_to_set_elements_L. Qed.

Lemma sets_add_terms_grow key src st :
  sets_add_terms key src st = grow key (src ∖ {["e"]}) st.
Proof.
  unfold sets_add_terms. rewrite <-(list_to_set_elements_L src) at 2.
  generalize (elements src). intros l. revert st.
  induction l as [|a l IH]; intros st; simpl.
  - rewrite <-(grow_empty key st) at 1. apply grow_ext. set_solver.
  - rewrite IH. case_bool_decide.
    + rewrite sets_add_grow, grow_grow. apply grow_ext. set_solver.
    + apply grow_ext. set_solver.
Qed.

Lemma grow_lookup_total key X st k :
  (grow key X st).1 !!! k = if decide (k = key) then X ∪ st.1 !!! key else st.1 !!! k.
Proof.
  unfold grow. destruct (decide (X ⊆ _)); simpl.
  - case_decide; subst; set_solver.
  - case_decide; subst; [by rewrite lookup_total_insert_eq|by rewrite lookup_total_insert_ne].
Qed.

Lemma grow_lookup key X st k S :
  st.1 !! key = Some S →
  (grow key X st).1 !! k = if decide (k = key) then Some (X ∪ S) else st.1 !! k.
Proof.
  intros HS. unfold grow. rewrite (lookup_total_correct _ _ _ HS).
  destruct (decide (X ⊆ _)); simpl.
  - case_decide; subst; [|done]. rewrite HS. f_equal. set_solver.
  - case_decide; subst; [by rewrite lookup_insert_eq|by rewrite lookup_insert_ne].
Qed.

Lemma grow_dom key X st : key ∈ dom st.1 → dom (grow key X st).1 = dom st.1.
Proof.
  intros Hk. unfold grow. destruct (decide (X ⊆ _)); simpl; [done|].
  rewrite dom_insert_L. set_solver.
Qed.

Lemma grow_same key X st : grow key X st = st ↔ X ⊆ st.1 !!! key.
Proof.
  split.
  - intros H. pose proof (grow_lookup_total key X st key) as Hl.
    rewrite H, decide_True in Hl by done. set_solver.
  - intros H. unfold grow. by rewrite decide_True.
Qed.

(** ** The measure of the two fixpoints *)

Lemma mass_mono K F F' : below F F' → mass K F ≤ mass K F'.
Proof.
  intros H. unfold mass. induction K as [|k K IH]; simpl; [done|].
  pose proof (subseteq_size _ _ (H k)). lia.
Qed.

Lemma mass_strict K F F' k :
  below F F' → k ∈ K → F !!! k ⊂ F' !!! k → mass K F < mass K F'.
Proof.
  intros H Hk Hlt. unfold mass. induction K as [|k' K IH]; simpl.
  - by apply elem_of_nil in Hk.
  - apply elem_of_cons in Hk as [<-|Hk].
    + pose proof (subset_size _ _ Hlt). pose proof (mass_mono K F F' H).
      unfold mass in *. lia.
    + pose proof (subseteq_size _ _ (H k')). specialize (IH Hk). lia.
Qed.

Lemma mass_bound K F U : (∀ k, F !!! k ⊆ U) → mass K F ≤ length K * size U.
Proof.
  intros H. unfold mass. induction K as [|k K IH]; simpl; [done|].
  pose proof (subseteq_size _ _ (H k)). lia.
Qed.

Lemma advances_below K st st' : advances K st st' → below st.1 st'.1.
Proof. intros [->|(_ & H & _)]; [intros k; reflexivity|done]. Qed.

Lemma advances_refl K st : advances K st st.
Proof. by left. Qed.

Lemma advances_trans K st1 st2 st3 :
  advances K st1 st2 → advances K st2 st3 → advances K st1 st3.
Proof.
  intros [->|(Hf1 & Hb1 & Hm1)] [->|(Hf2 & Hb2 & Hm2)]; unfold advances; auto.
  right. split_and!; [done|intros k; etrans; [apply Hb1|apply Hb2]|].
  pose proof (mass_mono K _ _ Hb2). lia.
Qed.

Lemma grow_advances K key X st : key ∈ K → advances K st (grow key X st).
Proof.
  intros Hk. destruct (decide (X ⊆ st.1 !!! key)) as [H|H].
  - left. by apply grow_same.
  - right. assert (below st.1 (grow key X st).1) as Hb.
    { intros k. rewrite grow_lookup_total. case_decide; subst; set_solver. }
    split_and!; [|done|].
    + unfold grow. by rewrite decide_False.
    + apply (mass_strict K _ _ key); [done|done|].
      rewrite grow_lookup_total, decide_True by done. set_solver.
Qed.

Lemma advances_unflagged K F F' : advances K (F, false) (F', false) → F' = F.
Proof. intros [[= ->]|(? & _)]; [done|done]. Qed.

Lemma advances_flagged K F F' : advances K (F, false) (F', true) → mass K F < mass K F'.
Proof. intros [[=]|(_ & _ & ?)]; done. Qed.

(** A stable sequence of steps: when the whole changes nothing, no step
    does. *)
Lemma advances_squeeze K st1 st2 st3 :
  advances K st1 st2 → advances K st2 st3 → st3 = st1 → st2 = st1.
Proof.
  intros [->|(Hf1 & Hb1 & Hm1)] H23 ->; [done|].
  pose proof (advances_below _ _ _ H23) as Hb2.
  pose proof (mass_mono K _ _ Hb2). lia.
Qed.

Section first_facts.

(** ** Loops over all productions *)

Lemma rules_of_elem d k p : (k, p) ∈ rules_of d ↔ ∃ ps, (k, ps) ∈ d ∧ p ∈ ps.
Proof.
  unfold rules_of. rewrite list_elem_of_bind. split.
  - intros ([k' ps] & Hin & Hd). apply list_elem_of_fmap in Hin as (p' & [= -> ->] & Hp).
    eauto.
  - intros (ps & Hd & Hp). exists (k, ps). split; [|done].
    apply list_elem_of_fmap. by exists p.
Qed.

Lemma foldl_rules {A} (h : string → A → string → A) (a : A) d :
  foldl (λ a r, foldl (h r.1) a r.2) a d = foldl (λ a kp, h kp.1 a kp.2) a (rules_of d).
Proof.
  revert a. induction d as [|[k ps] d IH]; intros a; [done|].
  unfold rules_of. csimpl. rewrite foldl_app, <-IH. f_equal.
  generalize a. induction ps as [|p ps IHp]; intros a'; csimpl; [done|]. by rewrite IHp.
Qed.

Lemma rules_of_key d k p : (k, p) ∈ rules_of d → k ∈ dict_keys d.
Proof.
  intros (ps & Hd & _)%rules_of_elem. unfold dict_keys.
  apply list_elem_of_fmap. by exists (k, ps).
Qed.

Lemma rules_of_symbol d k p s : (k, p) ∈ rules_of d → s ∈ chars p → s ∈ symbols_of d.
Proof. intros (ps & Hd & Hp)%rules_of_elem Hs. apply symbols_of_elem. eauto 10. Qed.

Section steps.
Context {A : Type} (K : list string) (Inv : setmap → Prop) (Q : A → Prop).
Context (f : setmap * bool → A → setmap * bool).
Hypothesis f_step :
  ∀ st a, Q a → Inv st.1 → Inv (f st a).1 ∧ advances K st (f st a).

Lemma foldl_advances l st :
  Forall Q l → Inv st.1 → Inv (foldl f st l).1 ∧ advances K st (foldl f st l).
Proof.
  revert st. induction l as [|a l IH]; intros st Hl Hst; simpl.
  - split; [done|apply advances_refl].
  - apply Forall_cons in Hl as [Ha Hl]. destruct (f_step st a Ha Hst) as [H1 H2].
    destruct (IH _ Hl H1) as [H3 H4]. split; [done|by eapply advances_trans].
Qed.

Lemma foldl_stable l st :
  Forall Q l → Inv st.1 → foldl f st l = st → ∀ a, a ∈ l → f st a = st.
Proof.
  revert st. induction l as [|a l IH]; intros st Hl Hst Heq b Hb; simpl in *.
  - by apply elem_of_nil in Hb.
  - apply Forall_cons in Hl as [Ha Hl]. destruct (f_step st a Ha Hst) as [H1 H2].
    destruct (foldl_advances l _ Hl H1) as [H3 H4].
    pose proof (advances_squeeze _ _ _ _ H2 H4 Heq) as Hfa.
    apply elem_of_cons in Hb as [->|Hb]; [done|].
    rewrite Hfa in Heq. by apply IH.
Qed.
End steps.

(** ** FIRST *)

Import LL1Parser.

Lemma foldl_insert_lookup (l : list string) (m : setmap) k :
  foldl (λ first terminal, <[terminal := {[terminal]}]> first) m l !! k
  = if decide (k ∈ l) then Some {[k]} else m !! k.
Proof.
  revert m. induction l as [|a l IH]; intros m; simpl.
  - done.
  - rewrite IH. destruct (decide (k ∈ l)) as [Hl|Hl].
    + rewrite decide_True; [done|by right].
    + destruct (decide (k = a)) as [->|Hne].
      * rewrite decide_True by left. by rewrite lookup_insert_eq.
      * rewrite decide_False by (rewrite elem_of_cons; naive_solver).
        by rewrite lookup_insert_ne.
Qed.

Lemma first_init_lookup g k :
  first_init g !! k =
    if decide (k = "e") then Some {["e"]}
    else if decide (k ∈ terminals g) then Some {[k]}
    else if decide (k ∈ non_terminals g) then Some ∅ else None.
Proof.
  unfold first_init. destruct (decide (k = "e")) as [->|Hne].
  - by rewrite lookup_insert_eq.
  - rewrite lookup_insert_ne by done. rewrite foldl_insert_lookup.
    destruct (decide (k ∈ terminals g)) as [Ht|Ht].
    + rewrite decide_True; [done|by apply elem_of_elements].
    + rewrite decide_False by (by rewrite elem_of_elements).
      rewrite lookup_gset_to_gmap. by destruct (decide (k ∈ non_terminals g));
        [rewrite option_guard_True | rewrite option_guard_False].
Qed.

Lemma first_init_ok g : first_ok g (first_init g).
Proof.
  split.
  - apply set_eq. intros k. rewrite elem_of_dom, first_init_lookup.
    repeat case_decide; subst; rewrite ?is_Some_alt; set_solver.
  - intros k. rewrite lookup_total_alt, first_init_lookup.
    repeat case_decide; subst; simpl; set_solver.
Qed.

Lemma first_ok_symbol g F s :
  grammar_ok g → first_ok g F → s ∈ symbols_of (productions g) → s ∈ dom F.
Proof.
  intros Hok [Hd _] Hs. rewrite Hd.
  destruct (ok_symbol g s Hok Hs) as [->|[?|?]]; set_solver.
Qed.

Lemma first_ok_key g F k :
  grammar_ok g → first_ok g F → k ∈ dict_keys (productions g) → k ∈ dom F.
Proof.
  intros Hok [Hd _] Hs. rewrite Hd.
  pose proof (ok_key_non_terminal g k Hok Hs). set_solver.
Qed.

Lemma first_of_symbols_no_eps F syms :
  (∀ s, s ∈ syms → s ∈ dom F) → "e" ∉ (first_of_symbols F syms).1.
Proof.
  induction syms as [|s syms IH]; intros Hd; simpl; [set_solver|].
  assert (s ∈ dom F) as [fs Hfs]%elem_of_dom by (apply Hd; left).
  rewrite Hfs. case_bool_decide; simpl; [|set_solver].
  assert ("e" ∉ (first_of_symbols F syms).1) by (apply IH; intros; apply Hd; by right).
  set_solver.
Qed.

Lemma first_of_symbols_range F syms U :
  (∀ s, s ∈ syms → s ∈ dom F) → (∀ k, F !!! k ⊆ U) → (first_of_symbols F syms).1 ⊆ U.
Proof.
  intros Hd HU. induction syms as [|s syms IH]; simpl; [set_solver|].
  assert (s ∈ dom F) as [fs Hfs]%elem_of_dom by (apply Hd; left).
  rewrite Hfs. pose proof (HU s) as Hs. rewrite (lookup_total_correct _ _ _ Hfs) in Hs.
  case_bool_decide; simpl; [|set_solver].
  assert ((first_of_symbols F syms).1 ⊆ U) by (apply IH; intros; apply Hd; by right).
  set_solver.
Qed.

(** Growing the set of [nt] by terms other than [e] does not change what a
    walk adds to that set, nor its flag. *)
Lemma first_of_symbols_grow nt X F b syms :
  "e" ∉ X → nt ∈ dom F →
  (first_of_symbols (grow nt X (F, b)).1 syms).2 = (first_of_symbols F syms).2
  ∧ (first_of_symbols (grow nt X (F, b)).1 syms).1 ∪ (grow nt X (F, b)).1 !!! nt
    = (first_of_symbols F syms).1 ∪ (grow nt X (F, b)).1 !!! nt.
Proof.
  intros HX [S HS]%elem_of_dom.
  assert ((grow nt X (F, b)).1 !!! nt = X ∪ S) as Hnt.
  { rewrite grow_lookup_total, decide_True by done. simpl.
    by rewrite (lookup_total_correct _ _ _ HS). }
  rewrite Hnt. induction syms as [|s syms [IH1 IH2]]; simpl; [done|].
  rewrite (grow_lookup nt X (F, b) s S HS). simpl.
  destruct (decide (s = nt)) as [->|Hne].
  - rewrite HS. assert ("e" ∈ X ∪ S ↔ "e" ∈ S) as He by set_solver.
    rewrite (bool_decide_ext _ _ He). case_bool_decide; simpl.
    + split; [done|].
      transitivity ((first_of_symbols (grow nt X (F, b)).1 syms).1 ∪ (X ∪ S));
        [set_solver|]. rewrite IH2. set_solver.
    + split; [done|set_solver].
  - destruct (F !! s) as [fs|]; [|done].
    case_bool_decide; simpl; [|done]. split; [done|].
    transitivity (fs ∖ {["e"]} ∪ ((first_of_symbols (grow nt X (F, b)).1 syms).1 ∪ (X ∪ S)));
      [set_solver|]. rewrite IH2. set_solver.
Qed.

Lemma first_walk_spec nt syms st :
  nt ∈ dom st.1 → (∀ s, s ∈ syms → s ∈ dom st.1) →
  first_walk nt syms st
  = (grow nt (first_of_symbols st.1 syms).1 st, (first_of_symbols st.1 syms).2).
Proof.
  revert st. induction syms as [|s syms IH]; intros [F b] Hnt Hd; simpl in *.
  - by rewrite grow_empty.
  - assert (s ∈ dom F) as [fs Hfs]%elem_of_dom by (apply Hd; left).
    unfold first_ensure. rewrite Hfs. rewrite (lookup_total_correct _ _ _ Hfs).
    rewrite sets_add_terms_grow.
    assert ((grow nt (fs ∖ {["e"]}) (F, b)).1 !!! s = fs) as Hs.
    { rewrite grow_lookup_total. simpl. case_decide; subst.
      - rewrite (lookup_total_correct _ _ _ Hfs). set_solver.
      - by rewrite (lookup_total_correct _ _ _ Hfs). }
    rewrite Hs. case_bool_decide; simpl; [|done].
    rewrite IH; cycle 1.
    { by rewrite grow_dom. }
    { intros s' Hs'. rewrite grow_dom by done. apply Hd. by right. }
    destruct (first_of_symbols_grow nt (fs ∖ {["e"]}) F b syms) as [E1 E2];
      [set_solver|done|].
    rewrite E1. f_equal.
    rewrite (grow_ext nt _ (first_of_symbols F syms).1) by done.
    rewrite grow_grow. apply grow_ext. set_solver.
Qed.

(** One production's step of the FIRST loop adds FIRST of the production,
    computed as the LL(1) table construction computes it. *)
Lemma first_production_spec nt st p :
  nt ∈ dom st.1 → (∀ s, s ∈ chars p → s ∈ dom st.1) →
  first_production nt st p = grow nt (_get_first_of_string st.1 p) st.
Proof.
  intros Hnt Hd. unfold first_production, _get_first_of_string.
  case_bool_decide as Hp.
  - subst. rewrite bool_decide_eq_true_2 by auto. apply sets_add_grow.
  - rewrite first_walk_spec by done. cbn [fst snd].
    destruct (decide (p = "")) as [->|Hp'].
    + rewrite bool_decide_eq_true_2 by auto. simpl.
      by rewrite sets_add_grow, grow_empty.
    + rewrite bool_decide_eq_false_2 by naive_solver.
      destruct (first_of_symbols st.1 (chars p)) as [W eps]; simpl.
      destruct eps; [|done]. by rewrite sets_add_grow, grow_grow.
Qed.

Lemma get_first_of_string_range F p U :
  (∀ s, s ∈ chars p → s ∈ dom F) → (∀ k, F !!! k ⊆ U) → "e" ∈ U →
  _get_first_of_string F p ⊆ U.
Proof.
  intros Hd HU He. unfold _get_first_of_string.
  pose proof (first_of_symbols_range F (chars p) U Hd HU).
  case_bool_decide; [set_solver|]. destruct (first_of_symbols F _).2; set_solver.
Qed.

Section first.
Context (g : Grammar) (Hok : grammar_ok g).

Local Abbreviation K := (elements (non_terminals g)).

Lemma first_production_step st kp :
  kp ∈ rules_of (productions g) → first_ok g st.1 →
  first_ok g (first_production kp.1 st kp.2).1
  ∧ advances K st (first_production kp.1 st kp.2).
Proof.
  destruct kp as [nt p]. intros Hin HF. simpl.
  assert (nt ∈ dom st.1) as Hnt.
  { eapply first_ok_key; eauto using rules_of_key. }
  assert (∀ s, s ∈ chars p → s ∈ dom st.1) as Hd.
  { intros s Hs. eapply first_ok_symbol; eauto using rules_of_symbol. }
  rewrite first_production_spec by done. split.
  - destruct HF as [HFd HFr]. split.
    + by rewrite grow_dom.
    + intros k. rewrite grow_lookup_total.
      pose proof (get_first_of_string_range st.1 p _ Hd HFr).
      case_decide; subst; [|done]. specialize (HFr nt). set_solver.
  - apply grow_advances. apply elem_of_elements.
    eapply ok_key_non_terminal; eauto using rules_of_key.
Qed.

Lemma first_pass_step F :
  first_ok g F →
  first_ok g (first_pass g F).1 ∧ advances K (F, false) (first_pass g F).
Proof.
  intros HF. unfold first_pass.
  rewrite (foldl_rules (λ k st p, first_production k st p)).
  apply (foldl_advances K (first_ok g) (λ kp, kp ∈ rules_of (productions g))); [|
    by apply Forall_forall|done].
  intros st a. apply first_production_step.
Qed.

(** [get_first_set] returns, and what it returns is stable under a round:
    every production's FIRST is inside the FIRST of its non-terminal. *)
Lemma get_first_set_returns :
  ∃ F, get_first_set g = Ok F ∧ first_ok g F ∧ first_pass g F = (F, false).
Proof.
  unfold get_first_set.
  set (pass := λ first : setmap, Ok (first_pass g first)).
  assert (∀ s s' b, first_ok g s → pass s = Ok (s', b) → first_ok g s') as Hinv.
  { intros s s' b Hs [= E]. destruct (first_pass_step s Hs) as [H _]. by rewrite E in H. }
  destruct (iterate pass (first_fuel g) (first_init g)) as [F|e|] eqn:E.
  - exists F. split; [done|].
    pose proof (iterate_invariant pass _ Hinv _ _ _ (first_init_ok g) E) as HF.
    split; [done|].
    destruct (iterate_stable pass _ Hinv _ _ _ (first_init_ok g) E) as (F0 & HF0 & [= E0]).
    destruct (first_pass_step F0 HF0) as [_ Hadv]. rewrite E0 in Hadv.
    apply advances_unflagged in Hadv. by subst.
  - exfalso. clear -E. revert E. generalize (first_init g).
    induction (first_fuel g) as [|n IH]; intros s; simpl; [done|].
    destruct (first_pass g s) as [s' []]; simpl; [apply IH|done].
  - exfalso. revert E.
    apply (iterate_fuel pass (first_ok g) (mass K)
             (length K * size ({["e"]} ∪ terminals g : gset string))).
    + intros s [_ Hr]. by apply mass_bound.
    + intros s Hs. unfold pass. destruct (first_pass g s) as [s' b] eqn:E.
      destruct (first_pass_step s Hs) as [H1 H2]. rewrite E in H1, H2.
      split; [done|]. intros ->. by apply advances_flagged.
    + apply first_init_ok.
    + unfold first_fuel.
      change (length (elements (non_terminals g))) with (size (non_terminals g)).
      assert (size ({["e"]} ∪ terminals g : gset string) ≤ S (size (terminals g))).
      { rewrite size_union_alt, size_singleton.
        assert (terminals g ∖ {["e"]} ⊆ terminals g) as Hs by set_solver.
        apply subseteq_size in Hs. lia. }
      nia.
Qed.

(** Stability, production by production. *)
Lemma first_pass_stable F nt p :
  first_ok g F → first_pass g F = (F, false) →
  (nt, p) ∈ rules_of (productions g) →
  _get_first_of_string F p ⊆ F !!! nt.
Proof.
  intros HF Hst Hin. unfold first_pass in Hst.
  rewrite (foldl_rules (λ k st p, first_production k st p)) in Hst.
  pose proof (foldl_stable K (first_ok g) (λ kp, kp ∈ rules_of (productions g))
                (λ st kp, first_production kp.1 st kp.2)
                first_production_step _ (F, false)
                (proj2 (Forall_forall _ _) (λ _ H, H)) HF Hst (nt, p) Hin) as H.
  simpl in H. rewrite first_production_spec in H.
  - by apply grow_same in H.
  - eapply first_ok_key; eauto using rules_of_key.
  - intros s Hs. eapply first_ok_symbol; eauto using rules_of_symbol.
Qed.
End first.

End first_facts.

(** ** FOLLOW *)

Lemma suffixes_elem l s rest : (s, rest) ∈ suffixes l ↔ ∃ pre, l = pre ++ s :: rest.
Proof.
  induction l as [|a l IH]; simpl.
  - split; [by intros ?%elem_of_nil | intros ([|??] & ?); done].
  - rewrite elem_of_cons, IH. split.
    + intros [[= -> ->]|(pre & ->)]; [by exists [] | by exists (a :: pre)].
    + intros ([|b pre] & E); simplify_eq/=; [by left | right; eauto].
Qed.

Lemma follow_symbols_fold first_sets nt syms st :
  follow_symbols first_sets nt syms st = foldl (follow_at first_sets nt) st (suffixes syms).
Proof.
  revert st. induction syms as [|s rest IH]; intros st; simpl; [done|].
  rewrite IH. f_equal. unfold follow_at. simpl.
  destruct (isupper s); [|done]. destruct rest; by rewrite ?sets_add_all_grow.
Qed.

Lemma first_of_rest_range g first_sets rest :
  (∀ s, s ∈ rest → s ∈ symbols_of (productions g)) →
  (first_of_rest first_sets rest).1 ⊆ follow_universe g first_sets.
Proof.
  intros Hd. induction rest as [|s rest IH]; simpl; [set_solver|].
  assert ((first_of_rest first_sets rest).1 ⊆ follow_universe g first_sets) as IH'.
  { apply IH. intros; apply Hd; by right. }
  destruct (first_sets !! s) as [fs|] eqn:E.
  - assert (fs ⊆ follow_universe g first_sets).
    { unfold follow_universe. intros x Hx. apply elem_of_union_l, elem_of_union_r.
      apply elem_of_union_list. exists fs. split; [|done].
      apply list_elem_of_fmap. exists (s, fs). split; [done|].
      by apply elem_of_map_to_list. }
    case_bool_decide; simpl; set_solver.
  - destruct (isupper s); [done|]. simpl. unfold follow_universe.
    assert (s ∈ symbols_of (productions g)) by (apply Hd; left).
    unfold symbols_of in *. set_solver.
Qed.

Section follow.
Context (g : Grammar) (Hok : grammar_ok g) (first_sets : setmap).

Local Abbreviation K := (elements (non_terminals g)).

Lemma follow_grow_step st key X :
  follow_ok g first_sets st.1 → key ∈ non_terminals g →
  X ⊆ follow_universe g first_sets →
  follow_ok g first_sets (grow key X st).1 ∧ advances K st (grow key X st).
Proof.
  intros [Hd Hr] Hk HX. split; [split|].
  - rewrite grow_dom; [done|by rewrite Hd].
  - intros k. rewrite grow_lookup_total. case_decide; subst; [|done].
    specialize (Hr key). set_solver.
  - apply grow_advances. by apply elem_of_elements.
Qed.

Lemma follow_at_step nt st sr :
  sr.1 ∈ symbols_of (productions g) ∧ (∀ s, s ∈ sr.2 → s ∈ symbols_of (productions g)) →
  follow_ok g first_sets st.1 →
  follow_ok g first_sets (follow_at first_sets nt st sr).1
  ∧ advances K st (follow_at first_sets nt st sr).
Proof.
  destruct sr as [s rest]. simpl. intros [Hs Hrest] HF. unfold follow_at. simpl.
  destruct (isupper s) eqn:Hu; [|split; [done|apply advances_refl]].
  assert (s ∈ non_terminals g) as Hnt by (by apply ok_upper_symbol).
  destruct rest as [|r rest].
  - apply follow_grow_step; [done|done|]. apply HF.
  - destruct (follow_grow_step st s (first_of_rest first_sets (r :: rest)).1 HF Hnt)
      as [H1 H2]; [by apply first_of_rest_range|].
    destruct (first_of_rest first_sets (r :: rest)).2; [|done].
    match goal with |- context [grow s ?X ?st1] =>
      destruct (follow_grow_step st1 s X H1 Hnt) as [H3 H4]; [apply H1|] end.
    split; [done|by eapply advances_trans].
Qed.

Lemma follow_production_step st kp :
  kp ∈ rules_of (productions g) → follow_ok g first_sets st.1 →
  follow_ok g first_sets (follow_production first_sets kp.1 st kp.2).1
  ∧ advances K st (follow_production first_sets kp.1 st kp.2).
Proof.
  destruct kp as [nt p]. simpl. intros Hin HF. unfold follow_production.
  case_bool_decide; [split; [done|apply advances_refl]|].
  rewrite follow_symbols_fold.
  apply (foldl_advances K (follow_ok g first_sets)
           (λ sr, sr.1 ∈ symbols_of (productions g)
                  ∧ (∀ s, s ∈ sr.2 → s ∈ symbols_of (productions g)))); [| |done].
  - intros st' a. apply follow_at_step.
  - apply Forall_forall. intros [s rest] (pre & E)%suffixes_elem. simpl. split.
    + eapply rules_of_symbol; [done|]. rewrite E. set_solver.
    + intros s' Hs'. eapply rules_of_symbol; [done|]. rewrite E. set_solver.
Qed.

Lemma follow_pass_step F :
  follow_ok g first_sets F →
  follow_ok g first_sets (follow_pass g first_sets F).1
  ∧ advances K (F, false) (follow_pass g first_sets F).
Proof.
  intros HF. unfold follow_pass.
  rewrite (foldl_rules (λ k st p, follow_production first_sets k st p)).
  apply (foldl_advances K (follow_ok g first_sets)
           (λ kp, kp ∈ rules_of (productions g))); [|by apply Forall_forall|done].
  intros st a. apply follow_production_step.
Qed.

Lemma follow_init_cases :
  match follow_init g with
  | Ok F0 => start_symbol g ∈ non_terminals g ∧ follow_ok g first_sets F0
             ∧ "$" ∈ F0 !!! start_symbol g
  | Raise e => e = KeyError (start_symbol g) ∧ start_symbol g ∉ non_terminals g
  | OutOfFuel => False
  end.
Proof.
  unfold follow_init. rewrite lookup_gset_to_gmap.
  destruct (decide (start_symbol g ∈ non_terminals g)) as [Hs|Hs].
  - rewrite option_guard_True by done. simpl. split_and!; [done| |].
    + split.
      * rewrite dom_insert_L, dom_gset_to_gmap. set_solver.
      * intros k. destruct (decide (k = start_symbol g)) as [->|Hne].
        -- rewrite lookup_total_insert_eq. unfold follow_universe. set_solver.
        -- rewrite lookup_total_insert_ne by done.
           rewrite lookup_total_alt, lookup_gset_to_gmap.
           destruct (decide (k ∈ non_terminals g));
             [rewrite option_guard_True by done|rewrite option_guard_False by done];
             simpl; set_solver.
    + rewrite lookup_total_insert_eq. set_solver.
  - rewrite option_guard_False by done. done.
Qed.

(** [get_follow_set] raises exactly when the start symbol is no
    non-terminal; otherwise it returns a map that is stable under a
    round and lies above the seed. *)
Lemma get_follow_set_cases :
  match get_follow_set g first_sets with
  | Ok F => start_symbol g ∈ non_terminals g ∧ follow_ok g first_sets F
            ∧ follow_pass g first_sets F = (F, false)
            ∧ ∃ F0, follow_init g = Ok F0 ∧ below F0 F
  | Raise e => e = KeyError (start_symbol g) ∧ start_symbol g ∉ non_terminals g
  | OutOfFuel => False
  end.
Proof.
  unfold get_follow_set. pose proof follow_init_cases as Hinit.
  destruct (follow_init g) as [F0|e|]; [|done|done].
  cbn [mbind result_bind]. destruct Hinit as (Hs & HF0 & _).
  set (pass := λ follow : setmap, Ok (follow_pass g first_sets follow)).
  set (Inv := λ F, follow_ok g first_sets F ∧ below F0 F).
  assert (∀ s s' b, Inv s → pass s = Ok (s', b) → Inv s') as Hinv.
  { intros s s' b [Hs1 Hs2] [= E]. destruct (follow_pass_step s Hs1) as [H1 H2].
    rewrite E in H1, H2. split; [done|].
    intros k. etrans; [apply Hs2|]. by apply (advances_below _ _ _ H2). }
  assert (Inv F0) as HInv0 by (split; [done|intros k; reflexivity]).
  destruct (iterate pass (follow_fuel g first_sets) F0) as [F|e|] eqn:E.
  - pose proof (iterate_invariant pass _ Hinv _ _ _ HInv0 E) as [HF HF'].
    split_and!; [done|done| |eauto].
    destruct (iterate_stable pass _ Hinv _ _ _ HInv0 E) as (F1 & [HF1 _] & [= E1]).
    destruct (follow_pass_step F1 HF1) as [_ Hadv]. rewrite E1 in Hadv.
    apply advances_unflagged in Hadv. by subst.
  - exfalso. clear -E. revert E. generalize F0.
    induction (follow_fuel g first_sets) as [|n IH]; intros s; simpl; [done|].
    destruct (follow_pass g first_sets s) as [s' []]; simpl; [apply IH|done].
  - exfalso. revert E.
    apply (iterate_fuel pass (follow_ok g first_sets) (mass K)
             (length K * size (follow_universe g first_sets))).
    + intros s [_ Hr]. by apply mass_bound.
    + intros s Hs'. unfold pass. destruct (follow_pass g first_sets s) as [s' b] eqn:E.
      destruct (follow_pass_step s Hs') as [H1 H2]. rewrite E in H1, H2.
      split; [done|]. intros ->. by apply advances_flagged.
    + done.
    + unfold follow_fuel.
      change (length (elements (non_terminals g))) with (size (non_terminals g)). lia.
Qed.

(** Stability, position by position. *)
Lemma follow_pass_stable F nt p pre X rest :
  follow_ok g first_sets F → follow_pass g first_sets F = (F, false) →
  (nt, p) ∈ rules_of (productions g) → p ≠ "e" →
  chars p = pre ++ X :: rest → isupper X = true →
  (first_of_rest first_sets rest).1 ⊆ F !!! X
  ∧ ((first_of_rest first_sets rest).2 = true → F !!! nt ⊆ F !!! X).
Proof.
  intros HF Hst Hin Hp Hsplit Hu. unfold follow_pass in Hst.
  rewrite (foldl_rules (λ k st p, follow_production first_sets k st p)) in Hst.
  pose proof (foldl_stable K (follow_ok g first_sets) (λ kp, kp ∈ rules_of (productions g))
                (λ st kp, follow_production first_sets kp.1 st kp.2)
                follow_production_step _ (F, false)
                (proj2 (Forall_forall _ _) (λ _ H, H)) HF Hst (nt, p) Hin) as H.
  simpl in H. unfold follow_production in H.
  rewrite bool_decide_eq_false_2 in H by done. rewrite follow_symbols_fold in H.
  assert (follow_at first_sets nt (F, false) (X, rest) = (F, false)) as Hat.
  { apply (foldl_stable K (follow_ok g first_sets)
             (λ sr, sr.1 ∈ symbols_of (productions g)
                    ∧ (∀ s, s ∈ sr.2 → s ∈ symbols_of (productions g)))
             (follow_at first_sets nt) (λ st a, follow_at_step nt st a)
             (suffixes (chars p)) (F, false)); [|done|done|].
    - apply Forall_forall. intros [s r] (pre' & E)%suffixes_elem. simpl. split.
      + eapply rules_of_symbol; [done|]. rewrite E. set_solver.
      + intros s' Hs'. eapply rules_of_symbol; [done|]. rewrite E. set_solver.
    - apply suffixes_elem. eauto. }
  unfold follow_at in Hat. simpl in Hat. rewrite Hu in Hat.
  destruct rest as [|r rest].
  - simpl. apply grow_same in Hat. simpl in Hat. split; [set_solver|done].
  - assert (X ∈ non_terminals g) as HX.
    { apply ok_upper_symbol; [done| |done]. eapply rules_of_symbol; [done|].
      rewrite Hsplit. set_solver. }
    destruct (follow_grow_step (F, false) X (first_of_rest first_sets (r :: rest)).1
                HF HX) as [H1 H2].
    { apply first_of_rest_range. intros s Hs. eapply rules_of_symbol; [done|].
      rewrite Hsplit. set_solver. }
    destruct (first_of_rest first_sets (r :: rest)).2 eqn:Eeps.
    + match type of Hat with grow X ?Y ?st1 = _ =>
        destruct (follow_grow_step st1 X Y H1 HX) as [H3 H4]; [apply H1|] end.
      pose proof (advances_squeeze _ _ _ _ H2 H4 Hat) as Hg.
      rewrite Hg in Hat. apply grow_same in Hg. apply grow_same in Hat. done.
    + apply grow_same in Hat. done.
Qed.
End follow.

Section table_facts.

(** ** The LL(1) table *)

Import LL1Parser.

Lemma table_production_writes first_sets follow_sets nt tbl p :
  table_production first_sets follow_sets nt tbl p
  = foldl (table_write nt p) tbl (writes_of first_sets follow_sets nt p).
Proof.
  unfold table_production, writes_of. rewrite foldl_app.
  assert (∀ l tbl,
    foldl (λ tbl t, if bool_decide (t ≠ "e") then table_write nt p tbl t else tbl) tbl l
    = foldl (table_write nt p) tbl (filter (λ t, t ≠ "e") l)) as ->.
  { induction l as [|a l IH]; intros tbl'; simpl; [done|].
    rewrite IH, filter_cons. case_bool_decide; case_decide; done. }
  by case_bool_decide.
Qed.

Lemma cell_after_app c l1 l2 : cell_after c (l1 ++ l2) = cell_after (cell_after c l1) l2.
Proof. apply foldl_app. Qed.

Lemma cell_after_conflict l : cell_after (Some None) l = Some None.
Proof. induction l; simpl; auto. Qed.

Lemma cell_after_cases l :
  cell_after None l =
    match l with [] => None | [p] => Some (Some p) | _ :: _ :: _ => Some None end.
Proof. destruct l as [|p [|q l]]; simpl; auto using cell_after_conflict. Qed.

Lemma table_write_cell nt p (tbl : ll1_table) t A t' :
  (table_write nt p tbl t !!! A) !! t'
  = if decide (A = nt ∧ t' = t) then cell_after ((tbl !!! A) !! t') [p] else (tbl !!! A) !! t'.
Proof.
  unfold table_write. case_bool_decide as Hin.
  - destruct (decide (A = nt)) as [->|Hne].
    + rewrite lookup_total_insert_eq. destruct (decide (t' = t)) as [->|Hne'].
      * rewrite lookup_insert_eq, decide_True by done. simpl.
        apply elem_of_dom in Hin as [c ->]. done.
      * rewrite lookup_insert_ne, decide_False by naive_solver. done.
    + rewrite lookup_total_insert_ne, decide_False by naive_solver. done.
  - destruct (decide (A = nt)) as [->|Hne].
    + rewrite lookup_total_insert_eq. destruct (decide (t' = t)) as [->|Hne'].
      * rewrite lookup_insert_eq, decide_True by done. simpl.
        apply not_elem_of_dom in Hin as ->. done.
      * rewrite lookup_insert_ne, decide_False by naive_solver. done.
    + rewrite lookup_total_insert_ne, decide_False by naive_solver. done.
Qed.

Lemma table_write_dom nt p (tbl : ll1_table) t : dom tbl ⊆ dom (table_write nt p tbl t).
Proof. unfold table_write. case_bool_decide; rewrite dom_insert; set_solver. Qed.

Lemma table_writes_cell nt p ts (tbl : ll1_table) A t :
  (foldl (table_write nt p) tbl ts !!! A) !! t
  = cell_after ((tbl !!! A) !! t)
      (if decide (nt = A) then replicate (length (filter (λ x, x = t) ts)) p else []).
Proof.
  revert tbl. induction ts as [|a ts IH]; intros tbl; simpl.
  - by case_decide.
  - rewrite IH, table_write_cell, filter_cons.
    destruct (decide (nt = A)) as [->|Hne].
    + destruct (decide (a = t)) as [->|Hne'].
      * rewrite decide_True by done. done.
      * rewrite decide_False by naive_solver. done.
    + rewrite decide_False by naive_solver. done.
Qed.

Lemma build_parse_table_cell g first_sets follow_sets A t :
  (_build_parse_table g first_sets follow_sets !!! A) !! t
  = cell_after None (writers g first_sets follow_sets A t).
Proof.
  unfold _build_parse_table, writers.
  rewrite (foldl_rules (λ k tbl p, table_production first_sets follow_sets k tbl p)).
  assert (((gset_to_gmap ∅ (non_terminals g) : ll1_table) !!! A) !! t = None) as <-.
  { rewrite lookup_total_alt, lookup_gset_to_gmap.
    destruct (decide (A ∈ non_terminals g));
      [rewrite option_guard_True by done|rewrite option_guard_False by done]; done. }
  generalize (gset_to_gmap ∅ (non_terminals g) : ll1_table).
  induction (rules_of (productions g)) as [|[nt p] l IH]; intros tbl; csimpl; [done|].
  rewrite IH, cell_after_app. f_equal.
  by rewrite table_production_writes, table_writes_cell.
Qed.

Lemma build_parse_table_dom g first_sets follow_sets :
  non_terminals g ⊆ dom (_build_parse_table g first_sets follow_sets).
Proof.
  unfold _build_parse_table.
  rewrite (foldl_rules (λ k tbl p, table_production first_sets follow_sets k tbl p)).
  assert (non_terminals g ⊆ dom (gset_to_gmap ∅ (non_terminals g) : ll1_table)) as H.
  { by rewrite dom_gset_to_gmap. }
  revert H. generalize (gset_to_gmap ∅ (non_terminals g) : ll1_table).
  induction (rules_of (productions g)) as [|[nt p] l IH]; intros tbl H; csimpl; [done|].
  apply IH. rewrite table_production_writes.
  generalize (writes_of first_sets follow_sets nt p). intros ts. revert tbl H.
  induction ts as [|a ts IHt]; intros tbl H; simpl; [done|].
  apply IHt. etrans; [done|apply table_write_dom].
Qed.

Lemma count_nodup (l : list string) t :
  NoDup l → length (filter (λ x, x = t) l) = if decide (t ∈ l) then 1 else 0.
Proof.
  induction 1 as [|a l Ha Hnd IH]; simpl; [done|].
  rewrite filter_cons. destruct (decide (a = t)) as [->|Hne]; simpl.
  - rewrite IH, decide_False by done. rewrite decide_True; [done|left].
  - rewrite IH. destruct (decide (t ∈ l)).
    + rewrite decide_True; [done|by right].
    + rewrite decide_False; [done|]. rewrite elem_of_cons. naive_solver.
Qed.

Lemma hits_spec first_sets follow_sets nt p t :
  hits first_sets follow_sets nt p t
  = (if decide (t ∈ _get_first_of_string first_sets p ∧ t ≠ "e") then 1 else 0)
    + (if decide ("e" ∈ _get_first_of_string first_sets p ∧ t ∈ follow_sets !!! nt)
       then 1 else 0).
Proof.
  unfold hits, writes_of. rewrite filter_app, length_app. f_equal.
  - rewrite count_nodup by apply NoDup_filter, NoDup_elements.
    apply decide_ext. rewrite list_elem_of_filter, elem_of_elements. tauto.
  - case_bool_decide.
    + rewrite count_nodup by apply NoDup_elements.
      apply decide_ext. rewrite elem_of_elements. tauto.
    + rewrite decide_False by tauto. done.
Qed.

Lemma check_if_ll1_spec (tbl : ll1_table) :
  _check_if_ll1 tbl = true ↔ ∀ A t, (tbl !!! A) !! t ≠ Some None.
Proof.
  unfold _check_if_ll1. rewrite bool_decide_eq_true. split.
  - intros H A t. rewrite lookup_total_alt. destruct (tbl !! A) as [row|] eqn:E; simpl.
    + intros Ht. by apply (H A row E t None Ht).
    + by rewrite lookup_empty.
  - intros H A row E t c Ht ->. apply (H A t).
    by rewrite lookup_total_alt, E.
Qed.

(** ** Construction of the LL(1) parser *)

Lemma new_cases g :
  grammar_ok g →
  match LL1Parser.new g with
  | Ok p => built g p
  | Raise e => e = KeyError (start_symbol g) ∧ start_symbol g ∉ non_terminals g
  | OutOfFuel => False
  end.
Proof.
  intros Hok. unfold LL1Parser.new.
  destruct (get_first_set_returns g Hok) as (F & HF1 & HF & Hst). rewrite HF1.
  cbn [mbind result_bind].
  pose proof (get_follow_set_cases g Hok F) as H.
  pose proof (follow_init_cases g Hok F) as Hi.
  destruct (get_follow_set g F) as [Fo|e|] eqn:E; cbn [mbind result_bind]; [|done|done].
  destruct H as (H1 & H2 & H3 & F0 & H4 & H5). rewrite H4 in Hi.
  destruct Hi as (_ & _ & Hi). split; simpl; try done. by apply H5.
Qed.

End table_facts.

Section augmented_facts.

(** ** The augmented grammar *)

Lemma add_one_productions nt g p :
  productions (add_one nt g p) = dict_append nt p (productions g).
Proof.
  unfold add_one.
  match goal with |- context [foldl classify ?g0 ?l] =>
    destruct (classify_fold g0 l) as (Hp & _) end. by rewrite Hp.
Qed.

Lemma dict_append_last k p d l :
  k ∉ dict_keys d → dict_append k p (d ++ [(k, l)]) = d ++ [(k, l ++ [p])].
Proof.
  unfold dict_keys. induction d as [|[k' v] d IH]; csimpl; intros Hk.
  - by rewrite decide_True.
  - apply not_elem_of_cons in Hk as [Hne Hk]. rewrite decide_False by done.
    by rewrite IH.
Qed.

Lemma add_production_single g nt p :
  productions (add_production g nt [p])
  = if decide (nt ∈ dict_keys (productions g))
    then dict_append nt p (productions g)
    else productions g ++ [(nt, [p])].
Proof.
  unfold add_production. simpl. rewrite add_one_productions.
  case_bool_decide as H; simpl.
  - rewrite decide_False by done. by rewrite dict_append_last.
  - rewrite decide_True; [done|]. by destruct (decide (nt ∈ dict_keys (productions g))).
Qed.

Lemma add_one_fold_start nt g ps :
  start_symbol (foldl (add_one nt) g ps) = start_symbol g.
Proof.
  revert g. induction ps as [|p ps IH]; intros g; simpl; [done|]. rewrite IH.
  unfold add_one. match goal with |- context [foldl classify ?g1 ?l] =>
    destruct (classify_fold g1 l) as (_ & Hs & _) end. by rewrite Hs.
Qed.

Lemma add_production_start g nt ps :
  start_symbol (add_production g nt ps) = start_symbol g.
Proof.
  unfold add_production. cbv zeta. rewrite add_one_fold_start. by case_bool_decide.
Qed.

(** Copying the productions of one non-terminal that the copy does not
    have yet. *)
Lemma copy_productions (aug : Grammar) k ps :
  k ∉ dict_keys (productions aug) →
  productions (foldl (λ aug production, add_production aug k [production]) aug ps)
  = productions aug ++ (if decide (ps = []) then [] else [(k, ps)]).
Proof.
  intros Hk. destruct ps as [|p ps]; simpl; [by rewrite app_nil_r|].
  assert (∀ l aug', productions aug' = productions aug ++ [(k, l)] →
    productions (foldl (λ aug production, add_production aug k [production]) aug' ps)
    = productions aug ++ [(k, l ++ ps)]) as H.
  { clear p. induction ps as [|q ps IH]; intros l aug' E; simpl.
    - by rewrite app_nil_r.
    - rewrite (IH (l ++ [q])); [by rewrite <-app_assoc|].
      rewrite add_production_single, E, decide_True.
      + by apply dict_append_last.
      + unfold dict_keys. rewrite fmap_app. set_solver. }
  apply (H [p]). rewrite add_production_single. by rewrite decide_False.
Qed.

Lemma defined_keys d k : k ∈ dict_keys (defined d) → k ∈ dict_keys d.
Proof.
  unfold dict_keys, defined. intros ([k' ps] & -> & [_ H]%list_elem_of_filter)%list_elem_of_fmap.
  apply list_elem_of_fmap. by exists (k', ps).
Qed.

Lemma rules_of_defined d : rules_of (defined d) = rules_of d.
Proof.
  unfold defined, rules_of. induction d as [|[k ps] d IH]; [done|].
  rewrite filter_cons. csimpl. destruct (decide (ps ≠ [])) as [H|H]; csimpl.
  - by rewrite IH.
  - rewrite IH. destruct ps; [done|]. by destruct H.
Qed.

Lemma copy_all d (aug : Grammar) :
  NoDup (dict_keys (productions aug) ++ dict_keys d) →
  productions
    (foldl (λ aug r, foldl (λ aug production, add_production aug r.1 [production]) aug r.2)
           aug d)
  = productions aug ++ defined d.
Proof.
  revert aug. induction d as [|[k ps] d IH]; intros aug Hnd; simpl.
  - by rewrite app_nil_r.
  - unfold dict_keys in Hnd. csimpl in Hnd. apply NoDup_app in Hnd as (H1 & H2 & H3).
    apply NoDup_cons in H3 as [H3 H4].
    assert (k ∉ dict_keys (productions aug)) as Hk.
    { intros Hk. apply (H2 k Hk). left. }
    rewrite IH.
    + rewrite copy_productions by done. unfold defined at 2. rewrite filter_cons. simpl.
      destruct (decide (ps = [])) as [->|Hne].
      * rewrite decide_False by naive_solver. by rewrite app_nil_r.
      * rewrite decide_True by done. by rewrite <-app_assoc.
    + rewrite copy_productions by done. unfold dict_keys. rewrite fmap_app.
      apply NoDup_app. split_and!.
      * apply NoDup_app. split_and!; [done| |].
        -- intros x Hx. destruct (decide (ps = [])); simpl; [apply not_elem_of_nil|].
           intros ->%list_elem_of_singleton. done.
        -- destruct (decide (ps = [])); simpl; [apply NoDup_nil_2|apply NoDup_singleton].
      * intros x [Hx|Hx]%elem_of_app Hd.
        -- apply (H2 x Hx). by right.
        -- destruct (decide (ps = [])); simpl in Hx; [by apply elem_of_nil in Hx|].
           apply list_elem_of_singleton in Hx as ->. done.
      * done.
Qed.

Lemma copy_all_ok d (aug : Grammar) :
  grammar_ok aug →
  grammar_ok
    (foldl (λ aug r, foldl (λ aug production, add_production aug r.1 [production]) aug r.2)
           aug d).
Proof.
  revert aug. induction d as [|[k ps] d IH]; intros aug Hok; simpl; [done|].
  apply IH. revert aug Hok. induction ps as [|p ps IHp]; intros aug Hok; simpl; [done|].
  apply IHp. by apply add_production_ok.
Qed.

Lemma copy_all_start d (aug : Grammar) :
  start_symbol
    (foldl (λ aug r, foldl (λ aug production, add_production aug r.1 [production]) aug r.2)
           aug d) = start_symbol aug.
Proof.
  revert aug. induction d as [|[k ps] d IH]; intros aug; simpl; [done|].
  rewrite IH. generalize aug. induction ps as [|p ps IHp]; intros aug'; simpl; [done|].
  by rewrite IHp, add_production_start.
Qed.

Import SLR1Parser.

Lemma augment_ok g : grammar_ok g → grammar_ok (_augment_grammar g).
Proof.
  intros Hok. unfold _augment_grammar.
  match goal with |- context [add_production ?a _ _] =>
    destruct (add_production_ok a "S'" [start_symbol g]) as [[H1 H2 H3] _] end.
  { apply copy_all_ok, Grammar_init_ok. }
  by split.
Qed.

Lemma augment_start g : start_symbol (_augment_grammar g) = "S'".
Proof. done. Qed.

Lemma augment_productions g :
  grammar_ok g →
  productions (_augment_grammar g)
  = if decide ("S'" ∈ dict_keys (defined (productions g)))
    then dict_append "S'" (start_symbol g) (defined (productions g))
    else defined (productions g) ++ [("S'", [start_symbol g])].
Proof.
  intros [Hnd _ _]. unfold _augment_grammar. simpl.
  rewrite add_production_single, copy_all; [done|]. simpl. done.
Qed.

End augmented_facts.

Section closure_facts.

(** ** Counting sets *)

Lemma length_filter_split {A} (P : A → Prop) `{∀ x, Decision (P x)} (l : list A) :
  length l = length (filter P l) + length (filter (λ x, ¬ P x) l).
Proof.
  induction l as [|a l IH]; simpl; [done|]. rewrite !filter_cons.
  destruct (decide (P a)); destruct (decide (¬ P a)); simpl; try tauto; lia.
Qed.

Lemma size_list_to_set_le `{Countable T} (l : list T) :
  size (list_to_set l : gset T) ≤ length l.
Proof.
  induction l as [|a l IH]; simpl; [done|].
  rewrite size_union_alt, size_singleton.
  assert (size (list_to_set l ∖ {[a]} : gset T) ≤ size (list_to_set l : gset T)).
  { apply subseteq_size. set_solver. }
  lia.
Qed.

(** Distinct subsets of a set of [n] members are at most [2 ^ n]. *)
Lemma subsets_bound `{Countable T} (U : gset T) (l : list (gset T)) :
  NoDup l → (∀ X, X ∈ l → X ⊆ U) → length l ≤ 2 ^ size U.
Proof.
  revert l. pattern U. apply set_ind_L; clear U.
  - intros l Hnd Hl. rewrite size_empty. simpl.
    destruct l as [|X [|Y l]]; simpl; [lia|lia|].
    assert (X = ∅) as -> by (apply leibniz_equiv, equiv_empty, Hl; left).
    assert (Y = ∅) as -> by (apply leibniz_equiv, equiv_empty, Hl; right; left).
    apply NoDup_cons in Hnd as [Hx _]. destruct Hx. left.
  - intros x U Hx IH l Hnd Hl.
    rewrite size_union, size_singleton by set_solver.
    rewrite (length_filter_split (λ X, x ∈ X) l). cbn [Nat.pow Nat.add].
    assert (length (filter (λ X, x ∉ X) l) ≤ 2 ^ size U) as H2.
    { apply IH; [by apply NoDup_filter|].
      intros X [HX Hin]%list_elem_of_filter. specialize (Hl X Hin). set_solver. }
    assert (length (filter (λ X, x ∈ X) l) ≤ 2 ^ size U) as H1.
    { rewrite <-(length_fmap (λ X, X ∖ {[x]})). apply IH.
      - apply NoDup_fmap_2_strong; [|by apply NoDup_filter].
        intros X Y [HX _]%list_elem_of_filter [HY _]%list_elem_of_filter E.
        apply set_eq. intros y. destruct (decide (y = x)) as [->|Hne]; [tauto|].
        assert (y ∈ X ∖ {[x]} ↔ y ∈ Y ∖ {[x]}) by (by rewrite E). set_solver.
      - intros X' (X & -> & [HX Hin]%list_elem_of_filter)%list_elem_of_fmap.
        specialize (Hl X Hin). set_solver. }
    lia.
Qed.

(** ** Closure *)

Import SLR1Parser.

Lemma start_items_elem aug k ps p :
  (k, ps) ∈ productions aug → p ∈ ps → (k, p, 0) ∈ start_items aug.
Proof.
  intros Hk Hp. unfold start_items. apply elem_of_list_to_set, list_elem_of_fmap.
  exists (k, p). split; [done|]. apply rules_of_elem. eauto.
Qed.

Lemma length_rules_of d : length (rules_of d) = length (concat d.*2).
Proof.
  unfold rules_of. induction d as [|[k ps] d IH]; csimpl; [done|].
  by rewrite !length_app, length_fmap, IH.
Qed.

Lemma size_start_items aug : size (start_items aug) < closure_fuel aug.
Proof.
  unfold start_items, closure_fuel. rewrite <-length_rules_of.
  match goal with |- context [list_to_set ?l] =>
    pose proof (size_list_to_set_le l) as H end.
  rewrite length_fmap in H. lia.
Qed.

Lemma length_chars s : length (chars s) = String.length s.
Proof. induction s; simpl; auto. Qed.

Lemma closure_item_cases aug C acc it :
  acc ⊆ start_items aug ∖ C →
  match closure_item aug C acc it with
  | Ok acc' => acc' ⊆ start_items aug ∖ C
  | Raise e => undefined_symbol aug e
  | OutOfFuel => False
  end.
Proof.
  intros Hacc. destruct it as [[nt p] d]. unfold closure_item.
  destruct (dot_at_end p d) eqn:Hend; [done|].
  destruct (chars p !! d) as [X|] eqn:HX.
  - case_bool_decide as Hnt; [|done].
    destruct (dict_get X (productions aug)) as [prods|] eqn:Hget.
    + apply dict_get_Some in Hget.
      assert (∀ q, q ∈ prods → (X, q, 0) ∈ start_items aug) as Hq.
      { intros q Hq. by eapply start_items_elem. }
      clear Hget. revert acc Hacc. induction prods as [|q prods IH]; intros acc Hacc; simpl.
      * done.
      * apply IH; [intros; apply Hq; by right|].
        case_bool_decide; [|done]. assert ((X, q, 0) ∈ start_items aug) by (apply Hq; left).
        set_solver.
    + exists X. split_and!; [done|done|by apply dict_get_None].
  - exfalso. apply lookup_ge_None in HX. rewrite length_chars in HX.
    unfold dot_at_end in Hend. apply orb_false_iff in Hend as [Hend _].
    apply Nat.leb_gt in Hend. lia.
Qed.

Lemma closure_pass_cases aug C :
  match closure_pass aug C with
  | Ok (C', b) =>
      C ⊆ C' ∧ C' ⊆ C ∪ start_items aug
      ∧ (b = true → size (C ∩ start_items aug) < size (C' ∩ start_items aug))
  | Raise e => undefined_symbol aug e
  | OutOfFuel => False
  end.
Proof.
  unfold closure_pass.
  assert (∀ l acc, acc ⊆ start_items aug ∖ C →
    match foldlM (closure_item aug C) acc l with
    | Ok acc' => acc' ⊆ start_items aug ∖ C
    | Raise e => undefined_symbol aug e
    | OutOfFuel => False
    end) as H.
  { induction l as [|it l IH]; intros acc Hacc; simpl; [done|].
    pose proof (closure_item_cases aug C acc it Hacc) as Hit.
    destruct (closure_item aug C acc it) as [acc'| |]; cbn [mbind result_bind]; try done.
    by apply IH. }
  specialize (H (elements C) ∅).
  destruct (foldlM (closure_item aug C) ∅ (elements C)) as [new| |];
    cbn [mbind result_bind]; try (apply H; set_solver).
  assert (new ⊆ start_items aug ∖ C) as Hnew by (apply H; set_solver).
  case_bool_decide as Hempty; [set_solver|].
  split_and!; [set_solver|set_solver|]. intros _.
  apply subset_size. apply set_choose_L in Hempty as [x Hx]. set_solver.
Qed.

(** [_closure] never runs out of fuel, and adds start items only. *)
Lemma closure_cases aug items :
  match _closure aug items with
  | Ok C => items ⊆ C ∧ C ⊆ items ∪ start_items aug
  | Raise e => undefined_symbol aug e
  | OutOfFuel => False
  end.
Proof.
  unfold _closure.
  set (Inv := λ C : gset item, items ⊆ C ∧ C ⊆ items ∪ start_items aug).
  assert (Inv items) as H0 by (split; set_solver).
  destruct (iterate (closure_pass aug) (closure_fuel aug) items) as [C|e|] eqn:E.
  - apply (iterate_invariant (closure_pass aug) Inv) in E; [done| |done].
    intros s s' b [H1 H2] Hs. pose proof (closure_pass_cases aug s) as Hc.
    rewrite Hs in Hc. destruct Hc as (Ha & Hb & _). unfold Inv.
    split; [by etrans|]. etrans; [exact Hb|].
    apply union_least; [done|apply union_subseteq_r].
  - revert E. generalize items. induction (closure_fuel aug) as [|n IH]; intros s; simpl; [done|].
    pose proof (closure_pass_cases aug s) as Hc.
    destruct (closure_pass aug s) as [[s' b]| |]; cbn [mbind result_bind]; try done.
    + destruct b; [apply IH|done].
    + by intros [= <-].
  - exfalso. revert E.
    apply (iterate_fuel (closure_pass aug) (λ _, True)
             (λ C, size (C ∩ start_items aug)) (size (start_items aug))).
    + intros s _. apply subseteq_size. set_solver.
    + intros s _. pose proof (closure_pass_cases aug s) as Hc.
      destruct (closure_pass aug s) as [[s' b]| |]; try done. tauto.
    + done.
    + pose proof (size_start_items aug). lia.
Qed.

End closure_facts.

Section collection_facts.

Import SLR1Parser.

(** ** Goto *)

Lemma universe_elem aug k p d :
  (k, p, d) ∈ universe aug ↔ (k, p) ∈ rules_of (productions aug) ∧ d ≤ String.length p.
Proof.
  unfold universe, item_universe. rewrite elem_of_list_to_set, list_elem_of_bind.
  rewrite rules_of_elem. split.
  - intros ([k' ps] & Hin & Hd). apply list_elem_of_bind in Hin as (p' & Hin & Hp).
    apply list_elem_of_fmap in Hin as (d' & [= -> -> ->] & Hd'%elem_of_seq).
    split; [eauto|lia].
  - intros [(ps & Hd & Hp) Hle]. exists (k, ps). split; [|done].
    apply list_elem_of_bind. exists p. split; [|done].
    apply list_elem_of_fmap. exists d. split; [done|]. apply elem_of_seq. lia.
Qed.

Lemma size_universe aug : size (universe aug) ≤ length (item_universe aug).
Proof. apply size_list_to_set_le. Qed.

Lemma start_items_universe aug : start_items aug ⊆ universe aug.
Proof.
  intros [[k p] d]. unfold start_items.
  rewrite elem_of_list_to_set, list_elem_of_fmap.
  intros ([k' p'] & [= -> -> ->] & Hin). apply universe_elem. split; [done|lia].
Qed.

Lemma goto_items_universe aug symbol l acc :
  acc ⊆ universe aug → (∀ it, it ∈ l → it ∈ universe aug) →
  foldl (goto_item symbol) acc l ⊆ universe aug.
Proof.
  revert acc. induction l as [|[[k p] d] l IH]; intros acc Hacc Hl; simpl; [done|].
  apply IH; [|intros; apply Hl; by right].
  destruct (dot_at_end p d) eqn:Hend; [done|]. case_bool_decide; [|done].
  assert ((k, p, d) ∈ universe aug) as [Hin _]%universe_elem by (apply Hl; left).
  assert ((k, p, d + 1) ∈ universe aug).
  { apply universe_elem. split; [done|].
    unfold dot_at_end in Hend. apply orb_false_iff in Hend as [Hend _].
    apply Nat.leb_gt in Hend. lia. }
  apply union_least; [by apply singleton_subseteq_l|done].
Qed.

Lemma goto_cases aug items symbol :
  items ⊆ universe aug →
  match _goto aug items symbol with
  | Ok G => G ⊆ universe aug
  | Raise e => undefined_symbol aug e
  | OutOfFuel => False
  end.
Proof.
  intros Hi. unfold _goto.
  match goal with |- context [_closure aug ?X] =>
    pose proof (closure_cases aug X) as Hc;
    assert (X ⊆ universe aug) as HX end.
  { apply goto_items_universe; [apply empty_subseteq|].
    intros it Hit%elem_of_elements. auto. }
  destruct (_closure aug _) as [C| |]; [|done|done].
  destruct Hc as [_ Hc]. etrans; [exact Hc|].
  apply union_least; [done|apply start_items_universe].
Qed.

(** ** The canonical collection *)

Lemma index_of_Some {A} `{EqDecision A} (x : A) l :
  x ∈ l → ∃ j, index_of x l = Some j ∧ l !! j = Some x.
Proof.
  induction l as [|y l IH]; simpl; [by intros ?%elem_of_nil|].
  intros Hin. destruct (decide (x = y)) as [->|Hne]; [by exists 0|].
  apply elem_of_cons in Hin as [?|Hin]; [done|].
  destruct (IH Hin) as (j & -> & Hj). by exists (S j).
Qed.

Section canonical.
Context (aug : Grammar) (syms : list string) (Hsyms : NoDup syms).
Local Abbreviation canon_inv := (canon_inv aug syms).
Local Abbreviation canon_state_inv := (canon_state_inv aug syms).

Lemma canon_symbol_cases i cur seen c X rest :
  syms = seen ++ X :: rest → c.1 !! i = Some cur → canon_inv i seen c →
  match canon_symbol aug i cur c X with
  | Ok c' => canon_inv i (seen ++ [X]) c' ∧ c'.1 !! i = Some cur
             ∧ c'.1 !! 0 = c.1 !! 0
  | Raise e => undefined_symbol aug e
  | OutOfFuel => False
  end.
Proof.
  intros Hsplit Hcur [Hnd Hst Htr Hco]. destruct c as [states T]. simpl in *.
  assert (X ∈ syms) as HX by (rewrite Hsplit; set_solver).
  assert (X ∉ seen) as HXs.
  { rewrite Hsplit in Hsyms. apply NoDup_app in Hsyms as (_ & H & _).
    intros Hin. apply (H X Hin). left. }
  assert (cur ⊆ universe aug) as Hcu.
  { apply Hst. by eapply list_elem_of_lookup_2. }
  pose proof (goto_cases aug cur X Hcu) as Hg.
  destruct (_goto aug cur X) as [G| |] eqn:EG; cbn [mbind result_bind]; [|done|done].
  assert (∀ i' Y, covered i (seen ++ [X]) i' Y ↔ covered i seen i' Y ∨ (i' = i ∧ Y = X))
    as Hcov.
  { intros i' Y. unfold covered. rewrite elem_of_app, list_elem_of_singleton. tauto. }
  destruct (decide (G = ∅)) as [->|Hne].
  - rewrite (bool_decide_eq_false_2 (∅ ≠ ∅)) by naive_solver. simpl.
    split_and!; [|done|done]. split; simpl; [done|done| |].
    + intros i' Y j HT. destruct (Htr i' Y j HT) as (H1 & H2 & H3).
      split_and!; [apply Hcov; auto|done|done].
    + intros i' Y cur' Hc' HY Hcur'; apply Hcov in Hc' as [Hc|[-> ->]]; [by apply Hco|].
      assert (cur' = cur) as -> by congruence.
      exists ∅. split; [done|]. rewrite decide_True by done.
      destruct (T !! (i, X)) as [j|] eqn:HT; [|done].
      destruct (Htr i X j HT) as ([?|[_ ?]] & _); [lia|done].
  - rewrite (bool_decide_eq_true_2 (G ≠ ∅)) by done. simpl.
    case_bool_decide as Hin.
    + (* a new state *)
      rewrite length_app. simpl. replace (length states + 1 - 1) with (length states) by lia.
      assert (i < length states) as Hi by (by eapply lookup_lt_Some).
      assert (∀ k s, states !! k = Some s → (states ++ [G]) !! k = Some s) as Hext.
      { intros k s Hk. rewrite lookup_app_l; [done|by eapply lookup_lt_Some]. }
      assert ((states ++ [G]) !! length states = Some G) as Hlast.
      { rewrite lookup_app_r by lia. by rewrite Nat.sub_diag. }
      split_and!; [|by apply Hext|].
      * split; simpl.
        -- apply NoDup_app. split_and!; [done| |apply NoDup_singleton].
           intros x Hx ->%list_elem_of_singleton. done.
        -- intros st [Hs | ->%list_elem_of_singleton]%elem_of_app; [by apply Hst|done].
        -- intros i' Y j HT. destruct (decide ((i, X) = (i', Y))) as [[= <- <-]|Hd].
           ++ rewrite lookup_insert_eq in HT. injection HT as <-.
              split_and!; [apply Hcov; auto|done|]. exists cur, G. auto.
           ++ rewrite lookup_insert_ne in HT by done.
              destruct (Htr i' Y j HT) as (H1 & H2 & cur' & G' & H3 & H4 & H5 & H6).
              split_and!; [apply Hcov; auto|done|]. exists cur', G'. auto.
        -- intros i' Y cur' Hc' HY Hcur'; apply Hcov in Hc' as [Hc|[-> ->]].
           ++ assert (states !! i' = Some cur') as Hcur''.
              { destruct (decide (i' < length states)) as [Hlt|Hge].
                - by rewrite lookup_app_l in Hcur'.
                - destruct Hc as [?|[-> _]]; lia. }
              assert ((i, X) ≠ (i', Y)) as Hd.
              { intros [= <- <-]. destruct Hc as [?|[_ ?]]; [lia|done]. }
              destruct (Hco i' Y cur' Hc HY Hcur'') as (G' & HG' & Hcase).
              exists G'. split; [done|]. rewrite lookup_insert_ne by done.
              destruct (decide (G' = ∅)); [done|].
              destruct Hcase as (j & Hj1 & Hj2). eauto.
           ++ assert (cur' = cur) as ->.
              { rewrite (Hext _ _ Hcur) in Hcur'. congruence. }
              exists G. split; [done|]. rewrite decide_False by done.
              exists (length states). by rewrite lookup_insert_eq.
      * simpl. rewrite lookup_app_l by lia. done.
    + (* a state met before *)
      assert (G ∈ states) as Hin' by done.
      destruct (index_of_Some G states Hin') as (j & -> & Hj).
      split_and!; [|done|done]. split; simpl; [done|done| |].
      * intros i' Y j' HT. destruct (decide ((i, X) = (i', Y))) as [[= <- <-]|Hd].
        -- rewrite lookup_insert_eq in HT. injection HT as <-.
           split_and!; [apply Hcov; auto|done|]. exists cur, G. auto.
        -- rewrite lookup_insert_ne in HT by done.
           destruct (Htr i' Y j' HT) as (H1 & H2 & H3).
           split_and!; [apply Hcov; auto|done|done].
      * intros i' Y cur' Hc' HY Hcur'; apply Hcov in Hc' as [Hc|[-> ->]].
        -- assert ((i, X) ≠ (i', Y)) as Hd.
           { intros [= <- <-]. destruct Hc as [?|[_ ?]]; [lia|done]. }
           destruct (Hco i' Y cur' Hc HY Hcur') as (G' & HG' & Hcase).
           exists G'. split; [done|]. by rewrite lookup_insert_ne.
        -- assert (cur' = cur) as -> by congruence.
           exists G. split; [done|]. rewrite decide_False by done.
           exists j. by rewrite lookup_insert_eq.
Qed.

Lemma canon_symbols_cases i cur rest : ∀ seen c,
  syms = seen ++ rest → c.1 !! i = Some cur → canon_inv i seen c →
  match foldlM (canon_symbol aug i cur) c rest with
  | Ok c' => canon_inv i syms c' ∧ c'.1 !! i = Some cur ∧ c'.1 !! 0 = c.1 !! 0
  | Raise e => undefined_symbol aug e
  | OutOfFuel => False
  end.
Proof.
  induction rest as [|X rest IH]; intros seen c Hsplit Hcur Hinv; simpl.
  - rewrite app_nil_r in Hsplit. by subst.
  - pose proof (canon_symbol_cases i cur seen c X rest Hsplit Hcur Hinv) as H.
    destruct (canon_symbol aug i cur c X) as [c'| |]; cbn [mbind result_bind]; try done.
    destruct H as (H1 & H2 & H3).
    specialize (IH (seen ++ [X]) c'). rewrite <-app_assoc in IH.
    specialize (IH Hsplit H2 H1).
    destruct (foldlM _ c' rest) as [c''| |]; try done.
    destruct IH as (? & ? & ?). split_and!; [done|done|congruence].
Qed.

Lemma canon_inv_next i c : canon_inv i syms c → canon_inv (S i) [] c.
Proof.
  intros [H1 H2 H3 H4]. split; [done|done| |].
  - intros i' X j HT. destruct (H3 i' X j HT) as (Hc & HX & H).
    split_and!; [|done|done]. left. destruct Hc as [?|[-> _]]; lia.
  - intros i' X cur [Hc|[_ []%elem_of_nil]] HX Hcur.
    apply H4; [|done|done]. unfold covered.
    destruct (decide (i' = i)) as [->|]; [auto|left; lia].
Qed.

Lemma canon_body_cases I0 s :
  canon_state_inv I0 s → canon_cond s = true →
  match canon_body aug syms s with
  | Ok s' => canon_state_inv I0 s'
             ∧ 2 ^ size (universe aug) - s'.1 < 2 ^ size (universe aug) - s.1
  | Raise e => undefined_symbol aug e
  | OutOfFuel => False
  end.
Proof.
  destruct s as [i c]. intros (Hinv & Hle & H0) Hc. unfold canon_cond in Hc. simpl in *.
  apply Nat.ltb_lt in Hc. unfold canon_body. simpl.
  destruct (lookup_lt_is_Some_2 c.1 i Hc) as [cur Hcur]. rewrite Hcur.
  pose proof (canon_symbols_cases i cur syms [] c eq_refl Hcur Hinv) as H.
  destruct (foldlM (canon_symbol aug i cur) c syms) as [c'| |];
    cbn [mbind result_bind]; try done.
  destruct H as (H1 & H2 & H3). simpl. split.
  - split_and!; simpl.
    + rewrite Nat.add_1_r. by apply canon_inv_next.
    + apply lookup_lt_Some in H2. lia.
    + congruence.
  - assert (length c.1 ≤ 2 ^ size (universe aug)).
    { apply subsets_bound; [apply Hinv|]. intros X HX. by apply Hinv. }
    lia.
Qed.
End canonical.

End collection_facts.

Section action_facts.

Import SLR1Parser.

Lemma build_canonical_cases g aug :
  ("S'", start_symbol g) ∈ rules_of (productions aug) →
  match _build_canonical_collection g aug with
  | Ok c => canon_final g aug c
  | Raise e => undefined_symbol aug e
  | OutOfFuel => False
  end.
Proof.
  intros Hstart. unfold _build_canonical_collection.
  pose proof (closure_cases aug {[("S'", start_symbol g, 0)]}) as Hc.
  destruct (_closure aug _) as [I0| |] eqn:EI; cbn [mbind result_bind]; [|done|done].
  set (syms := elements (terminals aug ∪ non_terminals aug)).
  assert (NoDup syms) as Hsyms by apply NoDup_elements.
  assert (canon_state_inv aug syms I0 (0, ([I0], ∅))) as H0.
  { split_and!; simpl; [|lia|done]. split; simpl.
    - apply NoDup_singleton.
    - intros st ->%list_elem_of_singleton. destruct Hc as [H1 H2]. split.
      + etrans; [exact H2|]. apply union_least; [|apply start_items_universe].
        apply singleton_subseteq_l, universe_elem. split; [done|lia].
      + intros ->. apply singleton_subseteq_l in H1. by apply not_elem_of_empty in H1.
    - intros i' X j HT. by rewrite lookup_empty in HT.
    - intros i' X cur [?|[_ []%elem_of_nil]]. lia. }
  assert (2 ^ size (universe aug) - 0 < 2 ^ canon_fuel aug) as Hfuel.
  { unfold canon_fuel. pose proof (size_universe aug).
    assert (2 ^ size (universe aug) ≤ 2 ^ length (item_universe aug))
      by (apply Nat.pow_le_mono_r; lia).
    assert (2 ^ length (item_universe aug) ≠ 0) by (apply Nat.pow_nonzero; lia).
    simpl. lia. }
  pose proof (while_loop_cases canon_cond (canon_body aug syms)
                (canon_state_inv aug syms I0)
                (λ s, 2 ^ size (universe aug) - s.1) (undefined_symbol aug)
                (canon_body_cases aug syms Hsyms I0) (canon_fuel aug) _ H0 Hfuel) as Hw.
  destruct (while_loop canon_cond (canon_body aug syms) (canon_fuel aug) (0, ([I0], ∅)))
    as [[i c]| |]; cbn [mbind result_bind]; [|done|done].
  destruct Hw as [(Hinv & Hle & HI0) Hcond].
  simpl in *. unfold canon_cond in Hcond. simpl in Hcond. apply Nat.ltb_ge in Hcond.
  assert (i = length c.1) as -> by lia. split; [done|eauto].
Qed.

Lemma rules_of_append k p d : k ∈ dict_keys d → (k, p) ∈ rules_of (dict_append k p d).
Proof.
  unfold dict_keys. induction d as [|[k' v] d IH]; csimpl; [by intros ?%elem_of_nil|].
  intros Hin. case_decide as Hk; subst.
  - apply rules_of_elem. exists (v ++ [p]). split; [left|]. apply elem_of_app. right. left.
  - apply elem_of_cons in Hin as [?|Hin]; [done|].
    apply rules_of_elem. apply IH, rules_of_elem in Hin as (ps & H1 & H2).
    exists ps. split; [by right|done].
Qed.

Lemma augment_start_rule g :
  grammar_ok g → ("S'", start_symbol g) ∈ rules_of (productions (_augment_grammar g)).
Proof.
  intros Hok. rewrite augment_productions by done. case_decide.
  - by apply rules_of_append.
  - apply rules_of_elem. exists [start_symbol g]. split; [|left].
    apply elem_of_app. right. left.
Qed.

(** ** The ACTION table *)

Lemma action_write_cell i a (tbl : slr_actions) t j t' :
  (action_write i a tbl t !!! j) !! t'
  = if decide (j = i ∧ t' = t) then action_after ((tbl !!! j) !! t') [a]
    else (tbl !!! j) !! t'.
Proof.
  unfold action_write.
  destruct (decide (j = i ∧ t' = t)) as [[-> ->]|Hne].
  - simpl. destruct ((tbl !!! i) !! t) as [c|] eqn:E.
    + rewrite bool_decide_eq_true_2 by (apply elem_of_dom; eauto). simpl.
      destruct (decide (c = Some a)) as [->|Hc].
      * rewrite bool_decide_eq_false_2 by naive_solver.
        by rewrite lookup_total_insert_eq, lookup_insert_eq.
      * rewrite bool_decide_eq_true_2 by naive_solver.
        by rewrite lookup_total_insert_eq, lookup_insert_eq.
    + rewrite bool_decide_eq_false_2 by (by apply not_elem_of_dom). simpl.
      by rewrite lookup_total_insert_eq, lookup_insert_eq.
  - destruct (_ && _); (destruct (decide (j = i)) as [->|Hj];
      [rewrite lookup_total_insert_eq, lookup_insert_ne by naive_solver; done
      |rewrite lookup_total_insert_ne by done; done]).
Qed.

Lemma action_after_app c l1 l2 :
  action_after c (l1 ++ l2) = action_after (action_after c l1) l2.
Proof. apply foldl_app. Qed.

Lemma action_after_conflict l : action_after (Some None) l = Some None.
Proof. induction l as [|a l IH]; simpl; done. Qed.

(** A cell holds the conflict marker exactly when two different actions
    were written into it. *)
Lemma action_after_spec l :
  match action_after None l with
  | None => l = []
  | Some (Some a) => l ≠ [] ∧ ∀ b, b ∈ l → b = a
  | Some None => ∃ a b, a ∈ l ∧ b ∈ l ∧ a ≠ b
  end.
Proof.
  induction l as [|a l IH] using rev_ind; [done|].
  rewrite action_after_app. destruct (action_after None l) as [[c|]|]; simpl.
  - destruct IH as [Hne IH]. destruct (decide (Some c = Some a)) as [[= ->]|Hc].
    + split; [by destruct l|]. intros b [? | ->%list_elem_of_singleton]%elem_of_app; auto.
    + destruct l as [|x l]; [done|]. exists x, a. split_and!; [set_solver|set_solver|].
      intros ->. destruct Hc. f_equal. symmetry. apply IH. left.
  - destruct IH as (x & y & ? & ? & ?).
    exists x, y. set_solver.
  - subst. simpl. split; [done|]. by intros b ->%list_elem_of_singleton.
Qed.

Lemma action_item_events g follow_sets transitions i tbl it :
  action_item g follow_sets transitions i tbl it
  = foldl (λ tbl ta, action_write i ta.2 tbl ta.1) tbl
          (item_events g follow_sets transitions i it).
Proof.
  destruct it as [[nt p] d]. unfold action_item, item_events.
  destruct (_ && _); [|destruct (_ || _); [|done]].
  - destruct (chars p !! d) as [s|]; [|done].
    destruct (transitions !! (i, s)); [|done]. by destruct (negb _).
  - generalize (elements (follow_sets !!! nt)). intros l. revert tbl.
    induction l as [|t l IH]; intros tbl; csimpl; [done|]. by rewrite IH.
Qed.

Lemma action_writes_cell (evs : list (nat * string * string)) (tbl : slr_actions) i t :
  (foldl (λ tbl e, action_write e.1.1 e.2 tbl e.1.2) tbl evs !!! i) !! t
  = action_after ((tbl !!! i) !! t)
      (omap (λ e : nat * string * string,
               if decide (e.1.1 = i ∧ e.1.2 = t) then Some e.2 else None) evs).
Proof.
  revert tbl. induction evs as [|[[j t'] a] evs IH]; intros tbl; csimpl; [done|].
  rewrite IH, action_write_cell. simpl.
  destruct (decide (i = j ∧ t = t')) as [[-> ->]|Hne].
  - by rewrite decide_True.
  - rewrite decide_False by naive_solver. done.
Qed.

Lemma build_action_table g aug follow_sets cc :
  (_build_parsing_tables g aug follow_sets cc).1
  = foldl (λ tbl e, action_write e.1.1 e.2 tbl e.1.2)
          (foldl (λ tbl i, <[i := ∅]> tbl) ∅ (seq 0 (length cc.1)))
          (action_events g follow_sets cc).
Proof.
  destruct cc as [states T]. unfold _build_parsing_tables, action_events. simpl.
  generalize (foldl (λ (tbl : slr_actions) i, <[i := ∅]> tbl) ∅ (seq 0 (length states))).
  generalize (imap (λ i state, (i, state)) states). intros l.
  induction l as [|[i st] l IH]; intros tbl; csimpl; [done|].
  rewrite foldl_app, <-IH. f_equal. clear IH.
  generalize (elements st). intros its. revert tbl.
  induction its as [|it its IH]; intros tbl; csimpl; [done|].
  rewrite fmap_app, foldl_app, <-IH. f_equal. rewrite action_item_events.
  generalize (item_events g follow_sets T i it). intros evs. revert tbl.
  induction evs as [|[t a] evs IH']; intros tbl'; csimpl; [done|]. by rewrite IH'.
Qed.

Lemma empty_rows_cell (l : list nat) i t :
  (foldl (λ (tbl : slr_actions) i, <[i := ∅]> tbl) ∅ l !!! i) !! t = None.
Proof.
  assert (∀ tbl : slr_actions, (tbl !!! i) !! t = None →
            (foldl (λ (tbl : slr_actions) i, <[i := ∅]> tbl) tbl l !!! i) !! t = None) as H.
  { induction l as [|j l IH]; intros tbl Htbl; simpl; [done|]. apply IH.
    destruct (decide (i = j)) as [->|Hne].
    - by rewrite lookup_total_insert_eq.
    - by rewrite lookup_total_insert_ne. }
  apply H. by rewrite lookup_total_empty.
Qed.

Lemma build_action_cell g aug follow_sets cc i t :
  ((_build_parsing_tables g aug follow_sets cc).1 !!! i) !! t
  = action_after None (actions_at g follow_sets cc i t).
Proof.
  rewrite build_action_table, action_writes_cell, empty_rows_cell. done.
Qed.

Lemma check_if_slr1_spec (tbl : slr_actions) :
  _check_if_slr1 tbl = true ↔ ∀ i t, (tbl !!! i) !! t ≠ Some None.
Proof.
  unfold _check_if_slr1. rewrite bool_decide_eq_true. split.
  - intros H i t. rewrite lookup_total_alt. destruct (tbl !! i) as [row|] eqn:E; simpl.
    + intros Ht. by apply (H i row E t None Ht).
    + by rewrite lookup_empty.
  - intros H i row E t c Ht ->. apply (H i t).
    by rewrite lookup_total_alt, E.
Qed.

Lemma check_if_slr1_cells (tbl : slr_actions) :
  (∀ i t, (tbl !!! i) !! t ≠ Some None)
  ↔ (∀ i row t, tbl !! i = Some row → row !! t ≠ Some None).
Proof.
  split.
  - intros H i row t E Ht. apply (H i t). by rewrite lookup_total_alt, E.
  - intros H i t. rewrite lookup_total_alt. destruct (tbl !! i) as [row|] eqn:E; simpl.
    + by apply (H i row t).
    + by rewrite lookup_empty.
Qed.

(** ** Construction of the SLR(1) parser *)

Lemma augment_start_non_terminal g :
  grammar_ok g → "S'" ∈ non_terminals (_augment_grammar g).
Proof.
  intros Hok. eapply ok_key_non_terminal; [by apply augment_ok|].
  eapply rules_of_key, augment_start_rule. done.
Qed.

Lemma slr_new_cases g :
  grammar_ok g →
  match SLR1Parser.new g with
  | Ok p => slr_built g p
  | Raise e => undefined_symbol (_augment_grammar g) e
  | OutOfFuel => False
  end.
Proof.
  intros Hok. unfold SLR1Parser.new.
  pose proof (augment_ok g Hok) as Haug.
  destruct (get_first_set_returns _ Haug) as (F & HF1 & HF & Hst). rewrite HF1.
  cbn [mbind result_bind].
  pose proof (get_follow_set_cases _ Haug F) as H.
  destruct (get_follow_set (_augment_grammar g) F) as [Fo|e|] eqn:E;
    cbn [mbind result_bind]; [|exfalso|done].
  - pose proof (build_canonical_cases g _ (augment_start_rule g Hok)) as Hc.
    destruct (_build_canonical_collection g (_augment_grammar g)) as [cc| |] eqn:Ecc;
      cbn [mbind result_bind]; [|done|done].
    by split.
  - destruct H as [_ H]. apply H. rewrite augment_start.
    by apply augment_start_non_terminal.
Qed.

End action_facts.

Section derivation_facts.

Import LL1Parser.

(** ** FIRST of a string, read as a set *)

Lemma fos_elem F syms t :
  (∀ s, s ∈ syms → s ∈ dom F) →
  t ∈ (first_of_symbols F syms).1 ↔
  ∃ pre s post, syms = pre ++ s :: post ∧ Forall (λ x, "e" ∈ F !!! x) pre
                ∧ t ∈ F !!! s ∧ t ≠ "e".
Proof.
  induction syms as [|a syms IH]; intros Hd; simpl.
  - split; [set_solver|]. intros ([|??] & ? & ? & ? & _); done.
  - assert (a ∈ dom F) as [fs Hfs]%elem_of_dom by (apply Hd; left).
    rewrite Hfs. assert (F !!! a = fs) as Ha by (by apply lookup_total_correct).
    assert (∀ s, s ∈ syms → s ∈ dom F) as Hd' by (intros; apply Hd; by right).
    specialize (IH Hd'). case_bool_decide as He; simpl.
    + rewrite elem_of_union, IH. split.
      * intros [Ht|(pre & s & post & -> & Hpre & Hs & Hne)].
        -- exists [], a, syms. rewrite Ha. set_solver.
        -- exists (a :: pre), s, post. split_and!; [done| |done|done].
           constructor; [by rewrite Ha|done].
      * intros ([|b pre] & s & post & E & Hpre & Hs & Hne); simpl in E.
        -- injection E as <- <-. left. rewrite Ha in Hs. set_solver.
        -- injection E as <- ->. right. apply Forall_cons in Hpre as [_ Hpre]. eauto 10.
    + split.
      * intros Ht. exists [], a, syms. rewrite Ha. set_solver.
      * intros ([|b pre] & s & post & E & Hpre & Hs & Hne); simpl in E.
        -- injection E as <- <-. rewrite Ha in Hs. set_solver.
        -- injection E as <- ->. apply Forall_cons in Hpre as [Hb _]. by rewrite Ha in Hb.
Qed.

Lemma fos_eps F syms :
  (∀ s, s ∈ syms → s ∈ dom F) →
  (first_of_symbols F syms).2 = true ↔ Forall (λ x, "e" ∈ F !!! x) syms.
Proof.
  induction syms as [|a syms IH]; intros Hd; simpl.
  - split; [constructor|done].
  - assert (a ∈ dom F) as [fs Hfs]%elem_of_dom by (apply Hd; left).
    rewrite Hfs. assert (F !!! a = fs) as Ha by (by apply lookup_total_correct).
    assert (∀ s, s ∈ syms → s ∈ dom F) as Hd' by (intros; apply Hd; by right).
    specialize (IH Hd'). rewrite Forall_cons, Ha. case_bool_decide as He; simpl.
    + rewrite IH. tauto.
    + split; [done|tauto].
Qed.

(** On symbols that all have a FIRST set, [get_follow_set] and
    [_get_first_of_string] walk a string alike. *)
Lemma first_of_rest_symbols F rest :
  (∀ s, s ∈ rest → s ∈ dom F) → first_of_rest F rest = first_of_symbols F rest.
Proof.
  induction rest as [|a rest IH]; intros Hd; simpl; [done|].
  assert (a ∈ dom F) as [fs Hfs]%elem_of_dom by (apply Hd; left).
  rewrite Hfs, IH; [done|]. intros; apply Hd; by right.
Qed.

Lemma gfs_elem F q t :
  (∀ s, s ∈ chars q → s ∈ dom F) → F !!! "e" = {["e"]} →
  t ∈ _get_first_of_string F q ↔
  (t = "e" ∧ Forall (λ x, "e" ∈ F !!! x) (chars q))
  ∨ (t ≠ "e" ∧ ∃ pre s post, chars q = pre ++ s :: post
       ∧ Forall (λ x, "e" ∈ F !!! x) pre ∧ t ∈ F !!! s).
Proof.
  intros Hd He. unfold _get_first_of_string. case_bool_decide as Hq.
  - rewrite elem_of_singleton. destruct Hq as [->| ->]; simpl.
    + split; [intros ->; left; split; [done|constructor]|].
      intros [[-> _]|(_ & [|??] & ? & ? & ? & _)]; done.
    + split.
      * intros ->. left. split; [done|]. constructor; [|constructor]. rewrite He. set_solver.
      * intros [[-> _]|(Hne & pre & s & post & E & _ & Hs)]; [done|].
        destruct pre as [|a [|b pre]]; simplify_eq/=.
        rewrite He in Hs. set_solver.
  - pose proof (first_of_symbols_no_eps F (chars q) Hd) as Hno.
    pose proof (fos_eps F (chars q) Hd) as Heps.
    pose proof (fos_elem F (chars q) t Hd) as Hel.
    destruct (first_of_symbols F (chars q)) as [W eps]; simpl in *.
    destruct eps.
    + rewrite elem_of_union, elem_of_singleton, Hel. split.
      * intros [->|(pre & s & post & ? & ? & ? & ?)]; [left|right; eauto 10].
        split; [done|]. by apply Heps.
      * intros [[-> _]|(? & pre & s & post & ? & ? & ?)]; [by left|right; eauto 10].
    + rewrite Hel. split.
      * intros (pre & s & post & ? & ? & ? & ?). right; eauto 10.
      * intros [[-> H]|(? & pre & s & post & ? & ? & ?)]; [|eauto 10].
        apply Heps in H. done.
Qed.

(** ** Derivations behind the FIRST sets *)

Section derivations.
Context (g : Grammar) (Hok : grammar_ok g).
(** The left-hand sides are uppercase. *)
Hypothesis Hkeys : ∀ k, k ∈ dict_keys (productions g) → isupper k = true.
Local Abbreviation seed := (seed g).
Local Abbreviation derives := (derives g).
Local Abbreviation first_sound := (first_sound g).
Local Abbreviation fs_ok := (fs_ok g).
Local Abbreviation fs_seed := (fs_seed g).
Local Abbreviation fs_derives := (fs_derives g).

Lemma derives_mono n m X t : n ≤ m → derives n X t → derives m X t.
Proof.
  induction 1 as [|m _ IH]; [done|]. intros H. simpl. left. auto.
Qed.

Lemma derives_common (l : list string) t :
  Forall (λ x, ∃ n, derives n x t) l → ∃ n, Forall (λ x, derives n x t) l.
Proof.
  induction 1 as [|x l [n Hx] _ [m IH]]; [by exists 0|].
  exists (n `max` m). constructor.
  - eapply derives_mono; [|exact Hx]. lia.
  - eapply Forall_impl; [exact IH|]. intros y Hy. eapply derives_mono; [|exact Hy]. lia.
Qed.

Lemma key_not_seed k :
  k ∈ dict_keys (productions g) → k ≠ "e" ∧ k ∉ terminals g.
Proof.
  intros Hk. pose proof (Hkeys k Hk) as Hu. split.
  - intros ->. done.
  - intros [_ [? _]]%(ok_terminal g k Hok). congruence.
Qed.

Lemma derives_non_key n X t : X ∉ dict_keys (productions g) → derives n X t → seed X t.
Proof.
  intros HX. induction n as [|n IH]; simpl; [done|].
  intros [?|(q & Hq%rules_of_key & _)]; [auto|done].
Qed.

Lemma first_init_total x :
  first_init g !!! x =
    if decide (x = "e") then {["e"]}
    else if decide (x ∈ terminals g) then {[x]} else ∅.
Proof.
  rewrite lookup_total_alt, first_init_lookup. repeat case_decide; done.
Qed.

Lemma first_sound_eps F : first_sound F → F !!! "e" = {["e"]}.
Proof.
  intros [_ Hs _]. rewrite Hs, first_init_total; [done|].
  intros H%key_not_seed. naive_solver.
Qed.

Lemma first_sound_terminal F t : first_sound F → t ∈ terminals g → F !!! t = {[t]}.
Proof.
  intros [_ Hs _] Ht. rewrite Hs, first_init_total.
  - destruct (ok_terminal g t Hok Ht) as (_ & _ & Hne).
    rewrite decide_False, decide_True by done. done.
  - intros H%key_not_seed. naive_solver.
Qed.

Lemma first_init_sound : first_sound (first_init g).
Proof.
  split; [apply first_init_ok|done|].
  intros X t. rewrite first_init_total. exists 0. simpl. unfold seed.
  repeat case_decide; set_solver.
Qed.

Lemma gfs_derives F q t :
  first_sound F → (∀ s, s ∈ chars q → s ∈ dom F) →
  t ∈ _get_first_of_string F q →
  ∃ m, (t = "e" ∧ Forall (λ x, derives m x "e") (chars q))
       ∨ (t ≠ "e" ∧ ∃ pre s post, chars q = pre ++ s :: post
            ∧ Forall (λ x, derives m x "e") pre ∧ derives m s t).
Proof.
  intros HF Hd Ht. apply gfs_elem in Ht; [|done|by apply first_sound_eps].
  destruct Ht as [[-> Hall]|(Hne & pre & s & post & E & Hpre & Hs)].
  - destruct (derives_common (chars q) "e") as [m Hm].
    { eapply Forall_impl; [exact Hall|]. intros x Hx. by apply (fs_derives F HF). }
    exists m. by left.
  - destruct (derives_common pre "e") as [m Hm].
    { eapply Forall_impl; [exact Hpre|]. intros x Hx. by apply (fs_derives F HF). }
    destruct (fs_derives F HF s t Hs) as [m' Hm'].
    exists (m `max` m'). right. split; [done|]. exists pre, s, post. split_and!; [done| |].
    + eapply Forall_impl; [exact Hm|]. intros y Hy. eapply derives_mono; [|exact Hy]. lia.
    + eapply derives_mono; [|exact Hm']. lia.
Qed.

Lemma first_production_sound st kp :
  kp ∈ rules_of (productions g) → first_sound st.1 →
  first_sound (first_production kp.1 st kp.2).1.
Proof.
  destruct kp as [nt q]. simpl. intros Hin HF.
  pose proof (fs_ok _ HF) as HFok.
  destruct (first_production_step g Hok st (nt, q) Hin HFok) as [Hok' _]. simpl in Hok'.
  assert (nt ∈ dom st.1) as Hnt.
  { eapply first_ok_key; eauto using rules_of_key. }
  assert (∀ s, s ∈ chars q → s ∈ dom st.1) as Hd.
  { intros s Hs. eapply first_ok_symbol; eauto using rules_of_symbol. }
  rewrite first_production_spec in * by done. split; [done| |].
  - intros x Hx. rewrite grow_lookup_total. rewrite decide_False.
    + by apply (fs_seed _ HF).
    + intros ->. apply Hx. by eapply rules_of_key.
  - intros X t. rewrite grow_lookup_total. case_decide as HX; [subst|apply HF].
    intros [Ht|Ht]%elem_of_union; [|by apply HF].
    destruct (gfs_derives st.1 q t HF Hd Ht) as [m Hm].
    exists (S m). simpl. right. eauto.
Qed.

Lemma first_pass_sound F : first_sound F → first_sound (first_pass g F).1.
Proof.
  intros HF. unfold first_pass.
  rewrite (foldl_rules (λ k st p, first_production k st p)).
  assert (∀ l st, (∀ kp, kp ∈ l → kp ∈ rules_of (productions g)) → first_sound st.1 →
    first_sound (foldl (λ st kp, first_production kp.1 st kp.2) st l).1) as H.
  { induction l as [|kp l IH]; intros st Hl Hst; simpl; [done|].
    apply IH; [intros; apply Hl; by right|].
    apply first_production_sound; [apply Hl; left|done]. }
  by apply H.
Qed.

(** The FIRST map [get_first_set] returns is sound. *)
Lemma get_first_set_sound F : get_first_set g = Ok F → first_sound F.
Proof.
  unfold get_first_set. intros E.
  eapply (iterate_invariant _ first_sound); [|apply first_init_sound|exact E].
  intros s s' b Hs [= E']. pose proof (first_pass_sound s Hs) as H. by rewrite E' in H.
Qed.

(** And complete: what has a derivation is in the stable map. *)
Lemma first_complete F n X t :
  first_sound F → first_pass g F = (F, false) → derives n X t → t ∈ F !!! X.
Proof.
  intros HF Hst. revert X t. induction n as [|n IH]; intros X t; simpl.
  - intros [[-> ->]|[HX ->]].
    + rewrite (first_sound_eps F HF). set_solver.
    + rewrite (first_sound_terminal F X HF HX). set_solver.
  - intros [H|(q & Hq & H)]; [auto|].
    apply (first_pass_stable g Hok F X q (fs_ok _ HF) Hst Hq).
    apply gfs_elem.
    + intros s Hs. eapply first_ok_symbol; [done|apply HF|]. by eapply rules_of_symbol.
    + by apply first_sound_eps.
    + destruct H as [[-> Hall]|(Hne & pre & s & post & E & Hpre & Hs)].
      * left. split; [done|]. eapply Forall_impl; [exact Hall|]. intros x Hx. by apply IH.
      * right. split; [done|]. exists pre, s, post. split_and!; [done| |by apply IH].
        eapply Forall_impl; [exact Hpre|]. intros x Hx. by apply IH.
Qed.

(** A member of the FIRST set of a non-terminal comes from one of its
    productions. *)
Lemma first_member_rule F X t :
  first_sound F → first_pass g F = (F, false) →
  X ∈ dict_keys (productions g) → t ∈ F !!! X →
  ∃ q, (X, q) ∈ rules_of (productions g) ∧ t ∈ _get_first_of_string F q.
Proof.
  intros HF Hst HX Ht. destruct (fs_derives F HF X t Ht) as [n Hn]. clear Ht.
  induction n as [|n IH]; simpl in Hn.
  - destruct (key_not_seed X HX) as [H1 H2]. destruct Hn as [[-> _]|[? _]]; done.
  - destruct Hn as [H|(q & Hq & H)]; [auto|]. exists q. split; [done|].
    apply gfs_elem.
    + intros s Hs. eapply first_ok_symbol; [done|apply HF|]. by eapply rules_of_symbol.
    + by apply first_sound_eps.
    + destruct H as [[-> Hall]|(Hne & pre & s & post & E & Hpre & Hs)].
      * left. split; [done|]. eapply Forall_impl; [exact Hall|].
        intros x Hx. exact (first_complete F n x "e" HF Hst Hx).
      * right. split; [done|]. exists pre, s, post.
        split_and!; [done| |exact (first_complete F n s t HF Hst Hs)].
        eapply Forall_impl; [exact Hpre|].
        intros x Hx. exact (first_complete F n x "e" HF Hst Hx).
Qed.
End derivations.

End derivation_facts.

Section conflict_facts.

Import LL1Parser.

(** ** FOLLOW sets hold no [e] *)

Lemma grow_no_eps key X st : "e" ∉ X → no_eps st.1 → no_eps (grow key X st).1.
Proof.
  intros HX Hst k. rewrite grow_lookup_total. case_decide; subst; [|apply Hst].
  specialize (Hst key). set_solver.
Qed.

Lemma follow_at_no_eps F nt st sr :
  (∀ s, s ∈ sr.2 → s ∈ dom F) → no_eps st.1 → no_eps (follow_at F nt st sr).1.
Proof.
  destruct sr as [s rest]. simpl. intros Hd Hst. unfold follow_at. simpl.
  destruct (isupper s); [|done]. destruct rest as [|r rest].
  - apply grow_no_eps; [apply Hst|done].
  - rewrite first_of_rest_symbols by done.
    pose proof (first_of_symbols_no_eps F (r :: rest) Hd) as Hno.
    assert (no_eps (grow s (first_of_symbols F (r :: rest)).1 st).1) as H1
      by (by apply grow_no_eps).
    destruct (first_of_symbols F (r :: rest)).2; [|done].
    apply grow_no_eps; [apply H1|done].
Qed.

Lemma follow_pass_no_eps g F Fo :
  (∀ s, s ∈ symbols_of (productions g) → s ∈ dom F) →
  no_eps Fo → no_eps (follow_pass g F Fo).1.
Proof.
  intros Hd HFo. unfold follow_pass.
  rewrite (foldl_rules (λ k st p, follow_production F k st p)).
  assert (∀ l st, (∀ kp, kp ∈ l → kp ∈ rules_of (productions g)) → no_eps st.1 →
    no_eps (foldl (λ st kp, follow_production F kp.1 st kp.2) st l).1) as H.
  { induction l as [|[nt q] l IH]; intros st Hl Hst; simpl; [done|].
    apply IH; [intros; apply Hl; by right|].
    unfold follow_production. case_bool_decide; [done|]. rewrite follow_symbols_fold.
    assert ((nt, q) ∈ rules_of (productions g)) as Hq by (apply Hl; left).
    assert (∀ sr, sr ∈ suffixes (chars q) → ∀ s, s ∈ sr.2 → s ∈ dom F) as Hsr.
    { intros [s r] (pre & E)%suffixes_elem s' Hs'. apply Hd.
      eapply rules_of_symbol; [done|]. rewrite E. set_solver. }
    revert st Hst Hsr. generalize (suffixes (chars q)).
    induction l0 as [|sr l0 IH0]; intros st Hst Hsr; simpl; [done|].
    apply IH0; [|intros sr' Hsr'; apply Hsr; by right].
    apply follow_at_no_eps; [apply (Hsr sr); left|done]. }
  by apply H.
Qed.

Lemma get_follow_set_no_eps g F Fo :
  (∀ s, s ∈ symbols_of (productions g) → s ∈ dom F) →
  get_follow_set g F = Ok Fo → no_eps Fo.
Proof.
  intros Hd. unfold get_follow_set, follow_init.
  destruct (gset_to_gmap ∅ (non_terminals g) !! start_symbol g) as [s|] eqn:E;
    cbn [mbind result_bind]; [|done].
  intros Hit. eapply (iterate_invariant _ no_eps); [| |exact Hit].
  - intros F1 F2 b H1 [= E']. pose proof (follow_pass_no_eps g F F1 Hd H1) as H.
    by rewrite E' in H.
  - apply lookup_gset_to_gmap_Some in E as [_ <-]. intros k.
    destruct (decide (k = start_symbol g)) as [->|Hne].
    + rewrite lookup_total_insert_eq. set_solver.
    + rewrite lookup_total_insert_ne by done.
      rewrite lookup_total_alt, lookup_gset_to_gmap.
      destruct (decide (k ∈ non_terminals g));
        [rewrite option_guard_True by done|rewrite option_guard_False by done];
        simpl; set_solver.
Qed.

(** ** A table without conflicts *)

Lemma bind_length_ge {A B} (f : A → list B) (l : list A) x :
  x ∈ l → length (f x) ≤ length (l ≫= f).
Proof.
  induction l as [|a l IH]; [by intros ?%elem_of_nil|].
  csimpl. rewrite length_app. intros [->|Hin]%elem_of_cons; [lia|].
  specialize (IH Hin). lia.
Qed.

Section no_conflict.
Context (g : Grammar) (p : LL1Parser.t).
Hypothesis Hb : built g p.
Hypothesis Hll1 : is_ll1 p = true.

Local Abbreviation F := (first_sets p).
Local Abbreviation Fo := (follow_sets p).

Lemma ll1_writers A c : length (writers g F Fo A c) ≤ 1.
Proof.
  pose proof (built_is_ll1 g p Hb) as H. rewrite Hll1 in H. symmetry in H.
  rewrite check_if_ll1_spec in H. specialize (H A c).
  rewrite (built_table g p Hb), build_parse_table_cell, cell_after_cases in H.
  destruct (writers g F Fo A c) as [|x [|y l]]; simpl; [lia|lia|done].
Qed.

(** The production every write into a cell agrees on is its content. *)
Lemma ll1_unique A c q :
  (A, q) ∈ rules_of (productions g) → 1 ≤ hits F Fo A q c →
  (parse_table p !!! A) !! c = Some (Some q) ∧ hits F Fo A q c = 1.
Proof.
  intros Hq Hh. pose proof (ll1_writers A c) as Hw.
  pose proof (bind_length_ge
    (λ kp : string * string,
       if decide (kp.1 = A) then replicate (hits F Fo kp.1 kp.2 c) kp.2 else [])
    (rules_of (productions g)) (A, q) Hq) as Hge.
  simpl in Hge. rewrite decide_True, length_replicate in Hge by done.
  fold (writers g F Fo A c) in Hge. split; [|lia].
  rewrite (built_table g p Hb), build_parse_table_cell, cell_after_cases.
  assert (q ∈ writers g F Fo A c) as Hin.
  { unfold writers. apply list_elem_of_bind. exists (A, q). split; [|done]. simpl.
    rewrite decide_True by done. apply elem_of_replicate. split; [done|lia]. }
  destruct (writers g F Fo A c) as [|x [|y l]]; simpl in *; [lia| |lia].
  apply list_elem_of_singleton in Hin as ->. done.
Qed.

Lemma ll1_cell A c q :
  (parse_table p !!! A) !! c = Some (Some q) →
  (A, q) ∈ rules_of (productions g) ∧ 1 ≤ hits F Fo A q c.
Proof.
  rewrite (built_table g p Hb), build_parse_table_cell, cell_after_cases.
  intros H.
  assert (q ∈ writers g F Fo A c) as Hin.
  { destruct (writers g F Fo A c) as [|x [|y l]]; simplify_eq/=. left. }
  unfold writers in Hin. apply list_elem_of_bind in Hin as ([A' q'] & Hin & Hr).
  simpl in Hin. case_decide as HA; [|by apply elem_of_nil in Hin]. subst.
  apply elem_of_replicate in Hin as [-> Hn]. split; [done|lia].
Qed.

Lemma ll1_row A : A ∈ non_terminals g → parse_table p !! A = Some (parse_table p !!! A).
Proof.
  intros HA. pose proof (build_parse_table_dom g (first_sets p) (follow_sets p)) as Hd.
  rewrite <-(built_table g p Hb) in Hd.
  assert (A ∈ dom (parse_table p)) as [row Hrow]%elem_of_dom by set_solver.
  by rewrite (lookup_total_correct _ _ _ Hrow).
Qed.
End no_conflict.

End conflict_facts.

Section machine_facts.

Import LL1Parser.

(** ** Runs of the LL(1) stack machine *)

Section machine.
Context (g : Grammar) (p : LL1Parser.t) (input : string).
Hypothesis Hok : grammar_ok g.
Hypothesis Hkeys : ∀ k, k ∈ dict_keys (productions g) → isupper k = true.
Hypothesis Hdollar : "$" ∉ symbols_of (productions g).
Hypothesis Hb : built g p.
Hypothesis Hll1 : is_ll1 p = true.
Local Abbreviation reach := (reach p input).
Local Abbreviation stack_sym := (stack_sym g).
Local Abbreviation stack_ok := (stack_ok g).
Local Abbreviation halts := (halts p input).

Local Abbreviation F := (first_sets p).
Local Abbreviation Fo := (follow_sets p).

Lemma reach_trans s1 p1 s2 p2 s3 p3 :
  reach s1 p1 s2 p2 → reach s2 p2 s3 p3 → reach s1 p1 s3 p3.
Proof. induction 1; [done|]. intros. eapply reach_step; eauto. Qed.

Lemma reach_one top stk ptr stk1 ptr1 :
  step p input top stk ptr = Continue stk1 ptr1 → reach (top :: stk) ptr stk1 ptr1.
Proof. intros. eapply reach_step; [done|apply reach_refl]. Qed.

Lemma loop_reach stk ptr stk' ptr' :
  reach stk ptr stk' ptr' →
  ∃ k, ∀ fuel rounds,
    loop p input (k + fuel) rounds stk ptr = loop p input fuel (k + rounds) stk' ptr'.
Proof.
  induction 1 as [|top stk ptr stk1 ptr1 stk' ptr' Hs _ [k IH]].
  - by exists 0.
  - exists (S k). intros fuel rounds. simpl. rewrite Hs, IH. f_equal. lia.
Qed.

Lemma loop_mono fuel fuel' rounds stk ptr r :
  loop p input fuel rounds stk ptr = Some r → fuel ≤ fuel' →
  loop p input fuel' rounds stk ptr = Some r.
Proof.
  revert fuel' rounds stk ptr. induction fuel as [|n IH]; intros fuel' rounds stk ptr.
  - destruct stk; simpl; [|done]. by destruct fuel'.
  - destruct stk as [|top stk]; [by destruct fuel'|]. simpl.
    intros H Hle. destruct fuel' as [|n']; [lia|]. simpl.
    destruct (step p input top stk ptr); [|done|done]. apply IH; [done|lia].
Qed.

(** *** Facts about the parser *)

Lemma m_first_sound : first_sound g F.
Proof. eapply get_first_set_sound; [done|done|apply Hb]. Qed.

Lemma m_eps : F !!! "e" = {["e"]}.
Proof. exact (first_sound_eps g Hok Hkeys F m_first_sound). Qed.

Lemma m_first_stable : first_pass g F = (F, false).
Proof. apply Hb. Qed.

Lemma m_symbol_dom s : s ∈ symbols_of (productions g) → s ∈ dom F.
Proof. eapply first_ok_symbol; [done|apply Hb]. Qed.

Lemma m_no_eps : no_eps Fo.
Proof. eapply get_follow_set_no_eps; [apply m_symbol_dom|apply Hb]. Qed.

Lemma m_range X t : t ∈ F !!! X → t = "e" ∨ t ∈ terminals g.
Proof.
  intros Ht. pose proof (first_range g F (built_first_ok g p Hb) X). set_solver.
Qed.

Lemma m_dollar X : "$" ∉ F !!! X.
Proof.
  intros [?|Ht]%m_range; [done|]. by apply (ok_terminal g _ Hok) in Ht as [? _].
Qed.

Lemma m_nullable_upper n s :
  derives g n s "e" → s ≠ "e" →
  s ∈ dict_keys (productions g) ∧ isupper s = true.
Proof.
  intros Hd Hne. destruct (decide (s ∈ dict_keys (productions g))) as [Hk|Hk]; [auto|].
  destruct (derives_non_key g n s "e" Hk Hd) as [[-> _]|[Ht Heq]]; [done|].
  subst. by apply (ok_terminal g _ Hok) in Ht as (_ & _ & ?).
Qed.

Lemma m_gfs_stable A q : (A, q) ∈ rules_of (productions g) → _get_first_of_string F q ⊆ F !!! A.
Proof. apply first_pass_stable; [done|apply Hb|apply Hb]. Qed.

Lemma m_rule_dom A q s : (A, q) ∈ rules_of (productions g) → s ∈ chars q → s ∈ dom F.
Proof. intros. eapply m_symbol_dom, rules_of_symbol; eauto. Qed.

(** A nullable production is written under every member of FOLLOW. *)
Lemma m_hit_follow A q c :
  (A, q) ∈ rules_of (productions g) → "e" ∈ _get_first_of_string F q → c ∈ Fo !!! A →
  1 ≤ hits F Fo A q c.
Proof.
  intros Hq He Hc. rewrite hits_spec.
  rewrite (decide_True (P := "e" ∈ _ ∧ c ∈ _)) by done. lia.
Qed.

Lemma m_hit_first A q c :
  c ∈ _get_first_of_string F q → c ≠ "e" → 1 ≤ hits F Fo A q c.
Proof.
  intros Hc Hne. rewrite hits_spec.
  rewrite (decide_True (P := c ∈ _ ∧ c ≠ "e")) by done. lia.
Qed.

(** In a table without conflicts no production is written twice into a
    cell, and no two productions into the same cell. *)
Lemma m_no_double A q q' c :
  (A, q) ∈ rules_of (productions g) → (A, q') ∈ rules_of (productions g) →
  c ∈ _get_first_of_string F q → c ≠ "e" →
  "e" ∈ _get_first_of_string F q' → c ∈ Fo !!! A → False.
Proof.
  intros Hq Hq' Hc Hne He Hf.
  destruct (ll1_unique g p Hb Hll1 A c q Hq (m_hit_first A q c Hc Hne)) as [H1 H1'].
  destruct (ll1_unique g p Hb Hll1 A c q' Hq' (m_hit_follow A q' c Hq' He Hf)) as [H2 H2'].
  rewrite H1 in H2. injection H2 as <-.
  rewrite hits_spec in H1'.
  rewrite (decide_True (P := c ∈ _ ∧ c ≠ "e")) in H1' by done.
  rewrite (decide_True (P := "e" ∈ _ ∧ c ∈ _)) in H1' by done. lia.
Qed.

(** *** The three kinds of step *)

Lemma step_eps stk ptr : step p input "e" stk ptr = Continue stk ptr.
Proof. done. Qed.

Lemma step_terminal top stk ptr :
  isupper top = false → top ≠ "e" →
  step p input top stk ptr =
    if bool_decide (top = current_input input ptr)
    then Continue stk (ptr + 1) else Return false.
Proof.
  intros Hu Hne. unfold step. rewrite bool_decide_eq_false_2 by done.
  by rewrite Hu.
Qed.

Lemma step_non_terminal top stk ptr :
  isupper top = true → top ∈ non_terminals g →
  step p input top stk ptr =
    match (parse_table p !!! top) !! current_input input ptr with
    | Some (Some production) =>
        if bool_decide (production ≠ "e")
        then Continue (chars production ++ stk) ptr else Continue stk ptr
    | _ => Return false
    end.
Proof.
  intros Hu Hnt. unfold step.
  rewrite bool_decide_eq_false_2 by (intros ->; done).
  rewrite Hu. simpl. rewrite (ll1_row g p Hb Hll1 top Hnt).
  by destruct ((parse_table p !!! top) !! current_input input ptr) as [[?|]|].
Qed.

(** *** A nullable non-terminal under a lookahead of its FOLLOW set only *)

Lemma vanish_list l ptr :
  Forall (λ s, ∀ stk, reach (s :: stk) ptr stk ptr) l →
  ∀ stk, reach (l ++ stk) ptr stk ptr.
Proof.
  induction 1 as [|s l Hs _ IH]; intros stk; simpl; [apply reach_refl|].
  eapply reach_trans; [apply Hs|apply IH].
Qed.

Lemma all_nullable_rest m (l pre rest : list string) s :
  Forall (λ x, derives g m x "e") l → l = pre ++ s :: rest →
  (∀ x, x ∈ l → x ∈ dom F) →
  (first_of_rest F rest).2 = true.
Proof.
  intros Hall -> Hd. rewrite first_of_rest_symbols by (intros; apply Hd; set_solver).
  apply fos_eps; [intros; apply Hd; set_solver|].
  apply Forall_app in Hall as [_ [_ Hrest]%Forall_cons].
  eapply Forall_impl; [exact Hrest|]. intros x Hx.
  exact (first_complete g Hok Hkeys F m x "e" m_first_sound m_first_stable Hx).
Qed.

Lemma vanish n : ∀ X ptr,
  derives g n X "e" → isupper X = true →
  current_input input ptr ∈ Fo !!! X → current_input input ptr ∉ F !!! X →
  ∀ stk, reach (X :: stk) ptr stk ptr.
Proof.
  induction n as [|n IH]; intros X ptr Hd Hu Hfo Hfi stk.
  { destruct Hd as [[-> _]|[Ht _]]; [done|].
    apply (ok_terminal g _ Hok) in Ht as (_ & ? & _). congruence. }
  simpl in Hd. destruct Hd as [Hd|(q & Hq & Hd)]; [by apply IH|].
  set (c := current_input input ptr) in *.
  destruct Hd as [[_ Hall]|[? _]]; [|done].
  assert (∀ x, x ∈ chars q → x ∈ dom F) as Hdom.
  { intros x Hx. exact (m_rule_dom X q x Hq Hx). }
  assert (Forall (λ x, "e" ∈ F !!! x) (chars q)) as Hall'.
  { eapply Forall_impl; [exact Hall|]. intros x Hx.
    exact (first_complete g Hok Hkeys F n x "e" m_first_sound m_first_stable Hx). }
  assert ("e" ∈ _get_first_of_string F q) as He.
  { apply gfs_elem; [exact Hdom|exact m_eps|].
    by left. }
  destruct (ll1_unique g p Hb Hll1 X c q Hq (m_hit_follow X q c Hq He Hfo)) as [Hcell _].
  assert (X ∈ non_terminals g) as Hnt.
  { eapply ok_key_non_terminal; [done|]. by eapply rules_of_key. }
  destruct (decide (q = "e")) as [->|Hqe].
  { apply reach_one. rewrite step_non_terminal by done. fold c. by rewrite Hcell. }
  eapply reach_trans.
  { apply reach_one. rewrite step_non_terminal by done. fold c. rewrite Hcell.
    by rewrite bool_decide_eq_true_2. }
  apply vanish_list. apply Forall_forall. intros s Hs stk'.
  destruct (decide (s = "e")) as [->|Hse]; [apply reach_one, step_eps|].
  apply list_elem_of_split in Hs as (pre & rest & Hsplit).
  assert (derives g n s "e") as Hds.
  { rewrite Forall_forall in Hall. apply Hall. rewrite Hsplit. set_solver. }
  destruct (m_nullable_upper n s Hds Hse) as [Hsk Hsu].
  apply IH; [done|done| |].
  - assert ((first_of_rest F rest).2 = true) as Hrest.
    { eapply all_nullable_rest; [exact Hall|exact Hsplit|]. exact Hdom. }
    destruct (follow_pass_stable g Hok F Fo X q pre s rest (built_follow_ok g p Hb)
                (built_follow_stable g p Hb) Hq Hqe Hsplit Hsu) as [_ H].
    by apply H.
  - fold c. intros Hcs. apply Hfi. apply (m_gfs_stable X q Hq).
    apply gfs_elem; [exact Hdom|exact m_eps|].
    right. split.
    + intros Hce. apply (m_no_eps X). by rewrite <-Hce.
    + exists pre, s, rest. split_and!; [done| |done].
      rewrite Hsplit in Hall'. by apply Forall_app in Hall' as [? _].
Qed.

(** *** A non-terminal whose FIRST set has the lookahead *)

Lemma derives_eps_only n t : derives g n "e" t → t = "e".
Proof.
  intros Hd.
  assert ("e" ∉ dict_keys (productions g)) as Hk.
  { intros Hk. by apply Hkeys in Hk. }
  destruct (derives_non_key g n "e" t Hk Hd) as [[_ ->]|[Ht ->]]; [done|].
  by apply (ok_terminal g _ Hok) in Ht as (_ & _ & ?).
Qed.

Lemma consume n : ∀ X ptr,
  derives g n X (current_input input ptr) → current_input input ptr ≠ "e" →
  isupper X = true →
  ∀ stk, ∃ post,
    reach (X :: stk) ptr (current_input input ptr :: post ++ stk) ptr
    ∧ Forall (λ s, s ∈ symbols_of (productions g)) post
    ∧ current_input input ptr ∈ terminals g.
Proof.
  induction n as [|n IH]; intros X ptr Hd Hne Hu stk.
  { destruct Hd as [[-> _]|[Ht HX]]; [done|].
    apply (ok_terminal g _ Hok) in Ht as (_ & ? & _). congruence. }
  simpl in Hd. destruct Hd as [Hd|(q & Hq & Hd)]; [by apply IH|].
  set (c := current_input input ptr) in *.
  destruct Hd as [[? _]|(_ & pre & s & post & Hsplit & Hpre & Hs)]; [done|].
  assert (∀ x, x ∈ chars q → x ∈ dom F) as Hdom.
  { intros x Hx. exact (m_rule_dom X q x Hq Hx). }
  assert (Forall (λ x, "e" ∈ F !!! x) pre) as Hpre'.
  { eapply Forall_impl; [exact Hpre|]. intros x Hx.
    exact (first_complete g Hok Hkeys F n x "e" m_first_sound m_first_stable Hx). }
  assert (c ∈ F !!! s) as Hcs.
  { exact (first_complete g Hok Hkeys F n s c m_first_sound m_first_stable Hs). }
  assert (c ∈ _get_first_of_string F q) as Hc.
  { apply gfs_elem; [done|exact m_eps|].
    right. split; [done|]. eauto 10. }
  destruct (ll1_unique g p Hb Hll1 X c q Hq (m_hit_first X q c Hc Hne)) as [Hcell _].
  assert (X ∈ non_terminals g) as Hnt.
  { eapply ok_key_non_terminal; [done|]. by eapply rules_of_key. }
  assert (q ≠ "e") as Hqe.
  { intros ->. destruct pre as [|a [|b pre]]; simplify_eq/=.
    apply derives_eps_only in Hs. done. }
  assert (reach (X :: stk) ptr (chars q ++ stk) ptr) as R1.
  { apply reach_one. rewrite step_non_terminal by done. fold c. rewrite Hcell.
    by rewrite bool_decide_eq_true_2. }
  assert (reach (chars q ++ stk) ptr (s :: post ++ stk) ptr) as R2.
  { rewrite Hsplit, <-app_assoc. apply vanish_list. apply Forall_forall.
    intros x Hx stk'.
    destruct (decide (x = "e")) as [->|Hxe]; [apply reach_one, step_eps|].
    apply list_elem_of_split in Hx as (pre1 & pre2 & Hsp).
    assert (derives g n x "e") as Hdx.
    { rewrite Forall_forall in Hpre. apply Hpre. rewrite Hsp. set_solver. }
    destruct (m_nullable_upper n x Hdx Hxe) as [Hxk Hxu].
    assert (chars q = pre1 ++ x :: (pre2 ++ s :: post)) as Hsplit'.
    { rewrite Hsplit, Hsp, <-app_assoc. done. }
    assert (c ∈ Fo !!! x) as Hfo.
    { destruct (follow_pass_stable g Hok F Fo X q pre1 x (pre2 ++ s :: post)
                  (built_follow_ok g p Hb) (built_follow_stable g p Hb)
                  Hq Hqe Hsplit' Hxu) as [H _].
      apply H. rewrite first_of_rest_symbols.
      - apply fos_elem; [intros y Hy; apply Hdom; rewrite Hsplit'; set_solver|].
        exists pre2, s, post. split_and!; [done| |done|done].
        rewrite Hsp in Hpre'. apply Forall_app in Hpre' as [_ H'].
        by apply Forall_cons in H' as [_ ?].
      - intros y Hy. apply Hdom. rewrite Hsplit'. set_solver. }
    apply (vanish n); [done|done|done|]. fold c. intros Hcx.
    destruct (first_member_rule g Hok Hkeys F x c m_first_sound m_first_stable Hxk Hcx)
      as (r' & Hr' & Hcr').
    assert ("e" ∈ F !!! x) as Hex.
    { exact (first_complete g Hok Hkeys F n x "e" m_first_sound m_first_stable Hdx). }
    destruct (first_member_rule g Hok Hkeys F x "e" m_first_sound m_first_stable Hxk Hex)
      as (r & Hr & Her).
    exact (m_no_double x r' r c Hr' Hr Hcr' Hne Her Hfo). }
  destruct (decide (s ∈ dict_keys (productions g))) as [Hsk|Hsk].
  - destruct (IH s ptr Hs Hne (Hkeys s Hsk) (post ++ stk)) as (post' & R3 & Hp' & Ht).
    exists (post' ++ post). rewrite <-app_assoc. split_and!; [|  |done].
    + eapply reach_trans; [exact R1|]. eapply reach_trans; [exact R2|exact R3].
    + apply Forall_app. split; [done|]. apply Forall_forall. intros y Hy.
      eapply rules_of_symbol; [exact Hq|]. rewrite Hsplit. set_solver.
  - destruct (derives_non_key g n s c Hsk Hs) as [[-> ?]|[Ht Hcs']]; [done|].
    exists post. rewrite <-Hcs' in R2, Ht. split_and!; [| |done].
    + eapply reach_trans; [exact R1|exact R2].
    + apply Forall_forall. intros y Hy.
      eapply rules_of_symbol; [exact Hq|]. rewrite Hsplit. set_solver.
Qed.

(** *** Termination *)

Lemma halts_reach stk ptr stk' ptr' :
  reach stk ptr stk' ptr' → (∀ rounds, halts rounds stk' ptr') →
  ∀ rounds, halts rounds stk ptr.
Proof.
  intros [k Hk]%loop_reach H rounds. destruct (H (k + rounds)) as (fuel & n & r & E & Hr).
  exists (k + fuel), n, r. by rewrite Hk.
Qed.

Lemma halts_return top stk ptr b rounds :
  step p input top stk ptr = Return b → halts rounds (top :: stk) ptr.
Proof. intros Hs. exists 1, (S rounds), Rejected. simpl. by rewrite Hs. Qed.

Lemma current_past ptr : length (chars input) ≤ ptr → current_input input ptr = "$".
Proof. intros H. unfold current_input. by rewrite lookup_ge_None_2. Qed.

Lemma stack_sym_not_dollar : ¬ stack_sym "$".
Proof.
  intros [?|Hs]; [done|].
  pose proof (built_start g p Hb) as H. rewrite <-Hs in H.
  rewrite (ok_non_terminals g Hok) in H.
  apply elem_of_union in H as [H|H].
  - apply elem_of_list_to_set, Hkeys in H. done.
  - apply elem_of_filter in H as [H _]. done.
Qed.

Lemma stack_sym_non_terminal s : stack_sym s → isupper s = true → s ∈ non_terminals g.
Proof.
  intros [Hs | ->] Hu; [by apply ok_upper_symbol|apply Hb].
Qed.

Theorem ll1_halts stk ptr : stack_ok stk → ∀ rounds, halts rounds stk ptr.
Proof.
  remember (length (chars input) - ptr) as a eqn:Ha.
  revert stk ptr Ha. induction a as [a IHa] using lt_wf_ind. intros stk.
  remember (length stk) as b eqn:Hb'. revert stk Hb'.
  induction b as [b IHb] using lt_wf_ind. intros stk Hlen ptr Ha Hstk rounds.
  destruct stk as [|X stk].
  { exists 0, rounds, (StackEmpty ptr). done. }
  set (c := current_input input ptr).
  destruct Hstk as [?|(body & E & Hbody)]; [done|].
  destruct body as [|X' body]; simpl in E; [injection E as -> ->|injection E as <- ->].
  { (* the end marker *)
    destruct (decide ("$" = c)) as [Hc|Hc].
    - exists 1, (S rounds), (StackEmpty (ptr + 1)). simpl.
      unfold step. simpl. fold c. by rewrite bool_decide_eq_true_2.
    - eapply halts_return. unfold step. simpl. fold c.
      by rewrite bool_decide_eq_false_2. }
  apply Forall_cons in Hbody as [Htop Hbody].
  assert (stack_ok (body ++ ["$"])) as Hrest by (right; eauto).
  simpl in Hlen.
  destruct (decide (X = "e")) as [->|Hte].
  { eapply halts_reach; [apply reach_one, step_eps|].
    intros r. eapply (IHb (length (body ++ ["$"]))); [lia|done|done|done]. }
  destruct (isupper X) eqn:Hu.
  - (* a non-terminal *)
    pose proof (stack_sym_non_terminal X Htop Hu) as Hnt.
    destruct ((parse_table p !!! X) !! c) as [[q|]|] eqn:Hcell;
      [|eapply halts_return; rewrite step_non_terminal by done; fold c; by rewrite Hcell..].
    destruct (ll1_cell g p Hb X c q Hcell) as [Hq Hhit].
    assert (X ∈ dict_keys (productions g)) as Hkey by (by eapply rules_of_key).
    rewrite hits_spec in Hhit.
    destruct (decide (c ∈ _get_first_of_string F q ∧ c ≠ "e")) as [[Hcq Hce]|HnA].
    + (* the lookahead is in FIRST of the production *)
      assert (c ∈ F !!! X) as Hct by (by apply (m_gfs_stable X q Hq)).
      destruct (fs_derives g F m_first_sound X c Hct) as [n Hn].
      destruct (consume n X ptr Hn Hce Hu (body ++ ["$"])) as (post & R & Hpost & Hterm).
      fold c in R, Hterm.
      destruct (ok_terminal g c Hok Hterm) as (_ & Hcu & _).
      assert (ptr < length (chars input)) as Hlt.
      { destruct (decide (ptr < length (chars input))); [done|].
        exfalso. apply (m_dollar X). rewrite <-(current_past ptr) by lia. done. }
      eapply halts_reach.
      { eapply reach_trans; [exact R|]. apply reach_one.
        rewrite step_terminal by done. fold c. by rewrite bool_decide_eq_true_2. }
      intros r. eapply (IHa (length (chars input) - (ptr + 1))); [lia|done|].
      right. exists (post ++ body). rewrite <-app_assoc. split; [done|].
      apply Forall_app. split; [|done].
      eapply Forall_impl; [exact Hpost|]. intros x Hx. by left.
    + (* the production is nullable and the lookahead is in FOLLOW *)
      destruct (decide ("e" ∈ _get_first_of_string F q ∧ c ∈ Fo !!! X)) as [[Heq Hcf]|];
        [|simpl in Hhit; lia].
      assert ("e" ∈ F !!! X) as Het by (by apply (m_gfs_stable X q Hq)).
      destruct (fs_derives g F m_first_sound X "e" Het) as [n Hn].
      assert (c ≠ "e") as Hce.
      { intros Hce. apply (m_no_eps X). by rewrite <-Hce. }
      assert (c ∉ F !!! X) as Hct.
      { intros Hct.
        destruct (first_member_rule g Hok Hkeys F X c m_first_sound m_first_stable
                    Hkey Hct) as (q' & Hq' & Hcq').
        exact (m_no_double X q' q c Hq' Hq Hcq' Hce Heq Hcf). }
      eapply halts_reach; [exact (vanish n X ptr Hn Hu Hcf Hct (body ++ ["$"]))|].
      intros r. eapply (IHb (length (body ++ ["$"]))); [lia|done|done|done].
  - (* a terminal *)
    destruct (decide (X = c)) as [Hc|Hc].
    + assert (ptr < length (chars input)) as Hlt.
      { destruct (decide (ptr < length (chars input))); [done|].
        exfalso. apply stack_sym_not_dollar. rewrite <-(current_past ptr) by lia.
        fold c. by rewrite <-Hc. }
      eapply halts_reach.
      { apply reach_one. rewrite step_terminal by done. fold c.
        by rewrite bool_decide_eq_true_2. }
      intros r. eapply (IHa (length (chars input) - (ptr + 1))); [lia|done|done].
    + eapply halts_return. rewrite step_terminal by done. fold c.
      by rewrite bool_decide_eq_false_2.
Qed.
End machine.

End machine_facts.

Section support_facts.

(** ** Duplicated alternatives *)

Lemma rules_of_app d1 d2 : rules_of (d1 ++ d2) = rules_of d1 ++ rules_of d2.
Proof. unfold rules_of. by rewrite bind_app. Qed.

Lemma rules_of_duplicated d A ps q :
  (A, ps) ∈ d → duplicated q ps →
  ∃ r1 r2 r3, rules_of d = r1 ++ (A, q) :: r2 ++ (A, q) :: r3.
Proof.
  intros (d1 & d2 & ->)%list_elem_of_split (l1 & l2 & l3 & ->).
  rewrite rules_of_app. unfold rules_of at 2. csimpl.
  rewrite !fmap_app, !fmap_cons, !fmap_app, !fmap_cons. simpl.
  exists (rules_of d1 ++ ((λ p, (A, p)) <$> l1)), ((λ p, (A, p)) <$> l2),
         (((λ p, (A, p)) <$> l3) ++ rules_of d2).
  rewrite <-!app_assoc. simpl. rewrite <-!app_assoc. done.
Qed.

Lemma duplicated_conflict g first_sets follow_sets A ps q t :
  (A, ps) ∈ productions g → duplicated q ps → t ∈ writes_of first_sets follow_sets A q →
  (LL1Parser._build_parse_table g first_sets follow_sets !!! A) !! t = Some None.
Proof.
  intros Hin Hdup Ht. rewrite build_parse_table_cell, cell_after_cases.
  destruct (rules_of_duplicated _ A ps q Hin Hdup) as (r1 & r2 & r3 & E).
  assert (1 ≤ hits first_sets follow_sets A q t) as Hh.
  { unfold hits. apply list_elem_of_split in Ht as (w1 & w2 & ->).
    rewrite filter_app, filter_cons, decide_True, length_app by done. simpl. lia. }
  assert (2 ≤ length (writers g first_sets follow_sets A t)) as Hlen.
  { unfold writers. rewrite E, bind_app, bind_cons, bind_app, bind_cons, !length_app.
    simpl. rewrite decide_True, !length_replicate by done. lia. }
  destruct (writers g first_sets follow_sets A t) as [|x [|y l]]; simpl in Hlen; [lia|lia|done].
Qed.

(** ** The augmented grammar, when the source does not define [S'] *)

Lemma chars_single p s : s ∈ chars p → String.length s = 1.
Proof.
  induction p as [|c p IH]; simpl; [by intros ?%elem_of_nil|].
  intros [->|?]%elem_of_cons; [done|auto].
Qed.

Lemma symbols_of_defined d : symbols_of (defined d) = symbols_of d.
Proof.
  unfold defined. induction d as [|[k ps] d IH]; [done|].
  rewrite filter_cons. simpl. destruct (decide (ps ≠ [])) as [H|H].
  - by rewrite !symbols_of_cons, IH.
  - rewrite symbols_of_cons, IH. destruct ps; [done|]. by destruct H.
Qed.

Lemma dict_get_app_r k d v : k ∉ dict_keys d → dict_get k (d ++ [(k, v)]) = Some v.
Proof.
  unfold dict_keys. induction d as [|[k' v'] d IH]; csimpl; intros Hk.
  - by rewrite decide_True.
  - apply not_elem_of_cons in Hk as [? ?]. rewrite decide_False by done. auto.
Qed.

Lemma non_terminal_not_primed g : grammar_ok g →
  "S'" ∉ dict_keys (productions g) → ("S'" ∉ non_terminals g) ∧ "S'" ∉ terminals g.
Proof.
  intros Hok Hk. rewrite (ok_non_terminals g Hok), (ok_terminals g Hok).
  assert ("S'" ∉ symbols_of (productions g)) as Hs.
  { intros (k & ps & p & _ & _ & H%chars_single)%symbols_of_elem. done. }
  rewrite elem_of_union, !elem_of_filter, !elem_of_list_to_set. naive_solver.
Qed.

Import SLR1Parser.

Lemma augment_fresh g :
  grammar_ok g → "S'" ∉ dict_keys (productions g) →
  productions (_augment_grammar g) = defined (productions g) ++ [("S'", [start_symbol g])].
Proof.
  intros Hok Hk. rewrite augment_productions by done.
  rewrite decide_False; [done|]. intros H%defined_keys. done.
Qed.

(** ** An undefined start symbol *)

Lemma closure_undefined_start aug nt :
  "S" ∈ non_terminals aug → dict_get "S" (productions aug) = None →
  _closure aug {[(nt, "S", 0)]} = Raise (KeyError "S").
Proof.
  intros Hnt Hget. unfold _closure, closure_fuel. cbn [iterate].
  unfold closure_pass. rewrite elements_singleton. cbn [foldlM].
  assert (closure_item aug {[(nt, "S", 0)]} ∅ (nt, "S", 0) = Raise (KeyError "S")) as ->.
  { unfold closure_item. change (dot_at_end "S" 0) with false. cbn iota.
    change (chars "S" !! 0) with (Some "S"). cbn iota.
    by rewrite bool_decide_eq_true_2, Hget. }
  done.
Qed.

Lemma slr_new_undefined_start g :
  grammar_ok g → start_symbol g = "S" → "S" ∉ dict_keys (defined (productions g)) →
  SLR1Parser.new g = Raise (KeyError "S").
Proof.
  intros Hok Hstart HS. unfold SLR1Parser.new.
  pose proof (augment_ok g Hok) as Haug.
  destruct (get_first_set_returns _ Haug) as (F & HF1 & HF & Hst). rewrite HF1.
  cbn [mbind result_bind].
  pose proof (get_follow_set_cases _ Haug F) as H.
  destruct (get_follow_set (_augment_grammar g) F) as [Fo|e|] eqn:E;
    cbn [mbind result_bind]; [|exfalso|done].
  2:{ destruct H as [_ H]. apply H. rewrite augment_start.
      by apply augment_start_non_terminal. }
  unfold _build_canonical_collection. rewrite Hstart.
  rewrite closure_undefined_start; [done| |].
  - apply ok_upper_symbol; [done| |done].
    eapply rules_of_symbol; [by apply augment_start_rule|]. rewrite Hstart. left.
  - apply dict_get_None. rewrite augment_productions by done. case_decide.
    + by rewrite dict_keys_append.
    + unfold dict_keys in *. rewrite fmap_app. simpl.
      intros [?|?%list_elem_of_singleton]%elem_of_app; done.
Qed.

(** ** Rounds of the FOLLOW loop only add *)

Lemma grow_below key X st : below st.1 (grow key X st).1.
Proof. intros k. rewrite grow_lookup_total. case_decide; subst; set_solver. Qed.

Lemma below_trans F1 F2 F3 : below F1 F2 → below F2 F3 → below F1 F3.
Proof. intros H1 H2 k. etrans; [apply H1|apply H2]. Qed.

Lemma follow_at_below first_sets nt st sr : below st.1 (follow_at first_sets nt st sr).1.
Proof.
  unfold follow_at. destruct (isupper sr.1); [|by intros k].
  destruct sr.2; [apply grow_below|].
  destruct (first_of_rest first_sets _).2; [|apply grow_below].
  eapply below_trans; apply grow_below.
Qed.

Lemma foldl_below {A} (f : setmap * bool → A → setmap * bool) l st :
  (∀ st a, below st.1 (f st a).1) → below st.1 (foldl f st l).1.
Proof.
  intros Hf. revert st. induction l as [|a l IH]; intros st; simpl; [by intros k|].
  eapply below_trans; [apply Hf|apply IH].
Qed.

Lemma follow_pass_below g first_sets follow :
  below follow (follow_pass g first_sets follow).1.
Proof.
  unfold follow_pass.
  apply (foldl_below (λ st r, foldl (follow_production first_sets r.1) st r.2)
           (productions g) (follow, false)).
  intros st r. apply foldl_below. intros st' q. unfold follow_production.
  case_bool_decide; [by intros k|]. rewrite follow_symbols_fold.
  apply foldl_below. intros. apply follow_at_below.
Qed.

Lemma first_pass_below g first : below first (first_pass g first).1.
Proof.
  unfold first_pass.
  apply (foldl_below (λ st r, foldl (first_production r.1) st r.2)
           (productions g) (first, false)).
  intros st r. apply foldl_below. intros st' q. unfold first_production.
  assert (∀ syms st, below st.1 (first_walk r.1 syms st).1.1) as Hw.
  { induction syms as [|s syms IH]; intros st0; simpl; [by intros k|].
    rewrite sets_add_terms_grow.
    assert (below st0.1 (grow r.1 ((first_ensure s st0.1 !!! s) ∖ {["e"]})
                               (first_ensure s st0.1, st0.2)).1) as H1.
    { eapply below_trans; [|apply grow_below]. simpl. intros k. unfold first_ensure.
      destruct (st0.1 !! s) eqn:E; [done|].
      destruct (decide (k = s)) as [->|].
      - rewrite lookup_total_insert_eq, lookup_total_alt, E. simpl. set_solver.
      - by rewrite lookup_total_insert_ne. }
    case_bool_decide; [|done]. eapply below_trans; [exact H1|apply IH]. }
  case_bool_decide.
  - rewrite sets_add_grow. apply grow_below.
  - destruct (first_walk r.1 (chars q) st') as [st1 eps] eqn:E. simpl.
    pose proof (Hw (chars q) st') as Hq. rewrite E in Hq. simpl in Hq.
    destruct eps; [|done]. rewrite sets_add_grow.
    eapply below_trans; [exact Hq|apply grow_below].
Qed.

End support_facts.

(** * The statements of the specification *)

(** ** Grammars the statements are about *)

(** ** The claims as the specification words them *)

Lemma upper_keys_elem g k :
  upper_keys g → k ∈ dict_keys (productions g) → isupper k = true.
Proof. unfold upper_keys. rewrite Forall_forall. auto. Qed.

(** A property of a computed value, read off the computation. *)
Lemma result_holds {A} (P : A → bool) (r : result A) x :
  r = Ok x → match r with Ok y => P y | _ => false end = true → P x = true.
Proof. by intros ->. Qed.

Lemma result_returns {A} (r : result A) :
  match r with Ok _ => true | _ => false end = true → ∃ x, r = Ok x.
Proof. destruct r; [by eexists|done|done]. Qed.

Lemma elem_of_holds (x : string) (X : gset string) : bool_decide (x ∈ X) = true → x ∈ X.
Proof. apply bool_decide_eq_true_1. Qed.

Lemma writes_of_elem first_sets follow_sets nt q t :
  t ∈ writes_of first_sets follow_sets nt q
  ↔ (t ∈ LL1Parser._get_first_of_string first_sets q ∧ t ≠ "e")
    ∨ ("e" ∈ LL1Parser._get_first_of_string first_sets q ∧ t ∈ follow_sets !!! nt).
Proof.
  unfold writes_of. rewrite elem_of_app, list_elem_of_filter, elem_of_elements.
  case_bool_decide; [rewrite elem_of_elements|rewrite elem_of_nil]; tauto.
Qed.

Lemma new_built rules p :
  LL1Parser.new (grammar_of rules) = Ok p → built (grammar_of rules) p.
Proof.
  intros E. pose proof (new_cases _ (proj1 (grammar_of_ok rules))) as H.
  by rewrite E in H.
Qed.

(** ** C1 *)

(** C1, as stated, fails: in [S -> a], [B -> e | e] the alternative [e] of
    [B] is duplicated, but FOLLOW of [B] is empty, nothing is written for
    [B], and the grammar is reported as LL(1). *)
Lemma C1_counterexample : ¬ C1_stated [("S", ["a"]); ("B", ["e"; "e"])].
Proof.
  intros H.
  destruct (result_returns (LL1Parser.new (grammar_of [("S", ["a"]); ("B", ["e"; "e"])]))) as [p E];
    [by vm_compute|].
  destruct (H p "B" ["e"; "e"] "e" E) as [_ Hll1].
  - vm_compute. repeat constructor.
  - by exists [], [], [].
  - pose proof (result_holds LL1Parser.is_ll1 _ p E) as Ht.
    rewrite Ht in Hll1; [done|]. by vm_compute.
Qed.

(** C1, amended.  A write into a free cell stores the production, a write
    into an occupied cell stores the conflict marker, whatever the cell
    held and whatever is written.  When an alternative [q] of [A] occurs
    twice and [t] is a terminal under which [q] is written (a member of
    FIRST of [q] other than [e], or a member of FOLLOW of [A] when [e] is
    in FIRST of [q]), the cell ([A], [t]) holds the conflict marker and the
    grammar is reported as not LL(1). *)
Theorem C1_duplicate_conflict rules p A ps q t :
  LL1Parser.new (grammar_of rules) = Ok p →
  (A, ps) ∈ productions (grammar_of rules) → duplicated q ps →
  (t ∈ LL1Parser._get_first_of_string (LL1Parser.first_sets p) q ∧ t ≠ "e")
  ∨ ("e" ∈ LL1Parser._get_first_of_string (LL1Parser.first_sets p) q
     ∧ t ∈ LL1Parser.follow_sets p !!! A) →
  (∀ nt q' (tbl : ll1_table) t',
     (LL1Parser.table_write nt q' tbl t' !!! nt) !! t'
     = match (tbl !!! nt) !! t' with None => Some (Some q') | Some _ => Some None end)
  ∧ (LL1Parser.parse_table p !!! A) !! t = Some None
  ∧ LL1Parser.is_ll1 p = false.
Proof.
  intros E Hin Hdup Ht. pose proof (new_built rules p E) as Hb.
  assert ((LL1Parser.parse_table p !!! A) !! t = Some None) as Hcell.
  { rewrite (built_table _ _ Hb). eapply duplicated_conflict; [done|done|].
    by apply writes_of_elem. }
  split_and!; [|done|].
  - intros nt q' tbl t'. rewrite table_write_cell, decide_True by done. done.
  - rewrite (built_is_ll1 _ _ Hb). apply not_true_is_false.
    intros Hc. by apply (proj1 (check_if_ll1_spec _) Hc A t).
Qed.

Lemma C1_duplicate_conflict_witness :
  ∃ p, LL1Parser.new (grammar_of [("S", ["a"; "a"])]) = Ok p
       ∧ (LL1Parser.parse_table p !!! "S") !! "a" = Some None
       ∧ LL1Parser.is_ll1 p = false.
Proof.
  destruct (result_returns (LL1Parser.new (grammar_of [("S", ["a"; "a"])]))) as [p E];
    [by vm_compute|].
  exists p. split; [exact E|].
  apply (C1_duplicate_conflict [("S", ["a"; "a"])] p "S" ["a"; "a"] "a" "a" E).
  - vm_compute. repeat constructor.
  - by exists [], [], [].
  - left. split; [|done]. apply elem_of_holds.
    apply (result_holds
             (λ p, bool_decide
                     ("a" ∈ LL1Parser._get_first_of_string (LL1Parser.first_sets p) "a"))
             _ p E).
    by vm_compute.
Defined.

(** ** C2 *)

(** C2.  A parser whose grammar was found not to be LL(1) answers [False]
    to every input, under any fuel, and its stack machine is never set up:
    no stack is built and the cursor never moves.  The same holds of the
    SLR(1) parser and its shift-reduce machine. *)
Theorem C2_rejects_without_running :
  (∀ (p : LL1Parser.t) input_string fuel,
     LL1Parser.is_ll1 p = false →
     LL1Parser.parse_run p input_string fuel = Some (Ok false, None)
     ∧ LL1Parser.parse p input_string fuel = Some (Ok false))
  ∧ (∀ (p : SLR1Parser.t) input_string fuel,
       SLR1Parser.is_slr1 p = false →
       SLR1Parser.parse_run p input_string fuel = Some (Ok false, None)
       ∧ SLR1Parser.parse p input_string fuel = Some (Ok false)).
Proof.
  split; intros p input_string fuel H.
  - unfold LL1Parser.parse, LL1Parser.parse_run. by rewrite H.
  - unfold SLR1Parser.parse, SLR1Parser.parse_run. by rewrite H.
Qed.

Lemma C2_rejects_without_running_witness :
  ∃ p q,
    LL1Parser.new
      (grammar_of [("S", ["S+T"; "T"]); ("T", ["T*F"; "F"]); ("F", ["(S)"; "i"])]) = Ok p
    ∧ SLR1Parser.new (grammar_of [("S", ["SS"; "a"])]) = Ok q
    ∧ LL1Parser.parse p "i+i" 0 = Some (Ok false)
    ∧ SLR1Parser.parse q "aa" 0 = Some (Ok false).
Proof.
  destruct (result_returns
              (LL1Parser.new
                 (grammar_of
                    [("S", ["S+T"; "T"]); ("T", ["T*F"; "F"]); ("F", ["(S)"; "i"])]))) as [p E1];
    [by vm_compute|].
  destruct (result_returns (SLR1Parser.new (grammar_of [("S", ["SS"; "a"])]))) as [q E2];
    [by vm_compute|].
  exists p, q. split_and!; [exact E1|exact E2| |].
  - apply (proj1 C2_rejects_without_running p "i+i" 0).
    apply negb_true_iff, (result_holds (λ p, negb (LL1Parser.is_ll1 p)) _ p E1).
    by vm_compute.
  - apply (proj2 C2_rejects_without_running q "aa" 0).
    apply negb_true_iff, (result_holds (λ q, negb (SLR1Parser.is_slr1 q)) _ q E2).
    by vm_compute.
Defined.

(** ** C3 and C10: runs of [LL1Parser.parse] *)

Lemma normalize_dollar : LL1Parser.normalize "$" = "$".
Proof. done. Qed.

Lemma current_input_dollar ptr : LL1Parser.current_input "$" ptr = "$".
Proof. by destruct ptr. Qed.

(** [parse] from a run of the loop that left it with the stack empty. *)
Lemma parse_stack_empty p input_string fuel rounds ptr :
  LL1Parser.is_ll1 p = true →
  LL1Parser.loop p (LL1Parser.normalize input_string) fuel 0
    [start_symbol (LL1Parser.grammar p); "$"] 0 = Some (rounds, LL1Parser.StackEmpty ptr) →
  LL1Parser.parse p input_string fuel
  = Some (Ok (LL1Parser.accepts (LL1Parser.normalize input_string) ptr)).
Proof.
  intros Hll1 E. unfold LL1Parser.parse, LL1Parser.parse_run. by rewrite Hll1, E.
Qed.

Lemma parse_rejected p input_string fuel rounds :
  LL1Parser.is_ll1 p = true →
  LL1Parser.loop p (LL1Parser.normalize input_string) fuel 0
    [start_symbol (LL1Parser.grammar p); "$"] 0 = Some (rounds, LL1Parser.Rejected) →
  LL1Parser.parse p input_string fuel = Some (Ok false).
Proof.
  intros Hll1 E. unfold LL1Parser.parse, LL1Parser.parse_run. by rewrite Hll1, E.
Qed.

(** The empty input under a conflict-free table: accepted when the start
    symbol is nullable, rejected at the first round otherwise. *)
Lemma parse_empty_input g p :
  grammar_ok g → (∀ k, k ∈ dict_keys (productions g) → isupper k = true) →
  "$" ∉ symbols_of (productions g) → start_symbol g = "S" →
  built g p → LL1Parser.is_ll1 p = true →
  ∃ fuel0, ∀ fuel, fuel0 ≤ fuel →
    LL1Parser.parse p "$" fuel
    = Some (Ok (bool_decide ("e" ∈ LL1Parser.first_sets p !!! start_symbol g))).
Proof.
  intros Hok Hkeys Hdollar Hstart Hb Hll1.
  pose proof (built_grammar g p Hb) as Hg.
  pose proof (built_start g p Hb) as HS.
  pose proof (built_follow_start g p Hb) as HFs. rewrite Hstart in *.
  assert ("$" ∉ LL1Parser.first_sets p !!! "S") as Hd
    by exact (m_dollar g p Hok Hkeys Hdollar Hb Hll1 "S").
  destruct (decide ("e" ∈ LL1Parser.first_sets p !!! "S")) as [He|He].
  - rewrite bool_decide_eq_true_2 by done.
    destruct (fs_derives g _ (m_first_sound g p Hok Hkeys Hb) "S" "e" He) as [n Hn].
    assert (reach p "$" ["S"; "$"] 0 [] 1) as Hr.
    { eapply reach_trans.
      - apply (vanish g p "$" Hok Hkeys Hdollar Hb Hll1 n "S" 0 Hn); [done| |done].
        done.
      - apply reach_one. by rewrite step_terminal. }
    destruct (loop_reach p "$" _ _ _ _ Hr) as [k Hk].
    exists k. intros fuel Hle.
    apply (parse_stack_empty p "$" fuel (k + 0) 1 Hll1).
    rewrite Hg, Hstart, normalize_dollar.
    replace fuel with (k + (fuel - k)) by lia. rewrite Hk. by destruct (fuel - k).
  - rewrite bool_decide_eq_false_2 by done.
    exists 1. intros [|fuel] Hle; [lia|].
    apply (parse_rejected p "$" (S fuel) 1 Hll1).
    rewrite Hg, Hstart, normalize_dollar. cbn [LL1Parser.loop].
    rewrite (step_non_terminal g p "$" Hb Hll1) by done.
    change (LL1Parser.current_input "$" 0) with "$".
    destruct ((LL1Parser.parse_table p !!! "S") !! "$") as [[q|]|] eqn:Hcell; [|done|done].
    exfalso. destruct (ll1_cell g p Hb "S" "$" q Hcell) as [Hq Hh].
    pose proof (m_gfs_stable g p Hok Hb "S" q Hq) as Hsub.
    rewrite hits_spec in Hh. repeat case_decide; set_solver by lia.
Qed.

(** The loop on a stack of grammar symbols above the end marker ends, and
    not by an exception. *)
Lemma parse_halts g p input_string :
  grammar_ok g → (∀ k, k ∈ dict_keys (productions g) → isupper k = true) →
  "$" ∉ symbols_of (productions g) → built g p →
  ∃ fuel b, ∀ fuel', fuel ≤ fuel' → LL1Parser.parse p input_string fuel' = Some (Ok b).
Proof.
  intros Hok Hkeys Hdollar Hb.
  destruct (LL1Parser.is_ll1 p) eqn:Hll1.
  - assert (stack_ok g [start_symbol g; "$"]) as Hstk.
    { right. exists [start_symbol g]. split; [done|]. constructor; [by right|done]. }
    destruct (ll1_halts g p (LL1Parser.normalize input_string) Hok Hkeys Hdollar Hb Hll1
                _ 0 Hstk 0) as (fuel & n & r & E & Hr).
    destruct r as [ptr| |e]; [| |by destruct (Hr e)].
    + exists fuel, (LL1Parser.accepts (LL1Parser.normalize input_string) ptr).
      intros fuel' Hle. apply (parse_stack_empty p input_string fuel' n ptr Hll1).
      rewrite (built_grammar g p Hb). by eapply loop_mono.
    + exists fuel, false. intros fuel' Hle.
      apply (parse_rejected p input_string fuel' n Hll1).
      rewrite (built_grammar g p Hb). by eapply loop_mono.
  - exists 0, false. intros fuel' _. unfold LL1Parser.parse, LL1Parser.parse_run.
    by rewrite Hll1.
Qed.

(** C3, as stated, fails: [S -> Sa | e] derives the empty string and [e]
    is in FIRST of [S], but the grammar is not LL(1) and [parse] answers
    [False] to every input. *)
Lemma C3_counterexample : ¬ C3_stated [("S", ["Sa"; "e"])].
Proof.
  intros H.
  destruct (result_returns (LL1Parser.new (grammar_of [("S", ["Sa"; "e"])]))) as [p E];
    [by vm_compute|].
  pose proof (result_holds
    (λ p, negb (LL1Parser.is_ll1 p)
          && bool_decide
               ("e" ∈ LL1Parser.first_sets p !!! start_symbol (LL1Parser.grammar p)))
    _ p E) as Hp.
  apply andb_true_iff in Hp as [Hll1%negb_true_iff He%bool_decide_eq_true_1];
    [|by vm_compute].
  apply (H p E) in He as [fuel Hf].
  unfold LL1Parser.parse, LL1Parser.parse_run in Hf. by rewrite Hll1 in Hf.
Qed.

(** C3, amended.  When the left-hand sides are uppercase symbols, the end
    marker does not occur in a production and the grammar was found to be
    LL(1), [parse] on the input ["$"] returns, under any fuel from some
    bound on, and its answer is whether [e] is in the computed FIRST set
    of the start symbol. *)
Theorem C3_empty_input rules p :
  upper_keys (grammar_of rules) → dollar_free (grammar_of rules) →
  LL1Parser.new (grammar_of rules) = Ok p → LL1Parser.is_ll1 p = true →
  ∃ fuel0, ∀ fuel, fuel0 ≤ fuel →
    LL1Parser.parse p "$" fuel
    = Some (Ok (bool_decide
                  ("e" ∈ LL1Parser.first_sets p !!! start_symbol (LL1Parser.grammar p)))).
Proof.
  intros Hkeys Hdollar E Hll1. pose proof (new_built rules p E) as Hb.
  destruct (grammar_of_ok rules) as [Hok Hstart].
  rewrite (built_grammar _ _ Hb).
  apply parse_empty_input; try done. intros k. by apply upper_keys_elem.
Qed.

Lemma C3_empty_input_witness :
  ∃ p fuel0,
    LL1Parser.new (grammar_of [("S", ["aSb"; "e"])]) = Ok p
    ∧ ∀ fuel, fuel0 ≤ fuel →
        LL1Parser.parse p "$" fuel
        = Some (Ok (bool_decide
                      ("e" ∈ LL1Parser.first_sets p
                               !!! start_symbol (LL1Parser.grammar p)))).
Proof.
  destruct (result_returns (LL1Parser.new (grammar_of [("S", ["aSb"; "e"])]))) as [p E];
    [by vm_compute|].
  destruct (C3_empty_input [("S", ["aSb"; "e"])] p) as [fuel0 H].
  - vm_compute. repeat constructor.
  - apply (bool_decide_eq_true_1 _). by vm_compute.
  - exact E.
  - apply (result_holds LL1Parser.is_ll1 _ p E). by vm_compute.
  - exists p, fuel0. split; [exact E|exact H].
Defined.

(** ** C4 *)

Lemma slr_new_built rules p :
  SLR1Parser.new (grammar_of rules) = Ok p → slr_built (grammar_of rules) p.
Proof.
  intros E. pose proof (slr_new_cases _ (proj1 (grammar_of_ok rules))) as H.
  by rewrite E in H.
Qed.

(** C4.  A write into a free ACTION cell stores the action; a write into an
    occupied cell leaves it as it is when it holds that very action, and
    stores the conflict marker otherwise; other cells are not touched.  In
    the table of a constructed parser a cell holds the conflict marker
    exactly when two different actions were written into it, and the
    grammar is reported as SLR(1) exactly when no cell holds the marker. *)
Theorem C4_action_conflicts rules p :
  SLR1Parser.new (grammar_of rules) = Ok p →
  (∀ i a (tbl : slr_actions) t,
     (SLR1Parser.action_write i a tbl t !!! i) !! t
     = match (tbl !!! i) !! t with
       | None => Some (Some a)
       | Some c => if decide (c = Some a) then Some c else Some None
       end)
  ∧ (∀ i a (tbl : slr_actions) t j t',
       ¬ (j = i ∧ t' = t) →
       (SLR1Parser.action_write i a tbl t !!! j) !! t' = (tbl !!! j) !! t')
  ∧ (∀ i t,
       (SLR1Parser.action_table p !!! i) !! t = Some None
       ↔ ∃ a b,
           a ∈ actions_at (grammar_of rules) (SLR1Parser.follow_sets p)
                 (SLR1Parser.canonical_collection p) i t
           ∧ b ∈ actions_at (grammar_of rules) (SLR1Parser.follow_sets p)
                   (SLR1Parser.canonical_collection p) i t
           ∧ a ≠ b)
  ∧ (SLR1Parser.is_slr1 p = true
     ↔ ∀ i row t, SLR1Parser.action_table p !! i = Some row → row !! t ≠ Some None).
Proof.
  intros E. pose proof (slr_new_built rules p E) as Hb. split_and!.
  - intros i a tbl t. rewrite action_write_cell, decide_True by done.
    by destruct ((tbl !!! i) !! t).
  - intros i a tbl t j t' Hne. by rewrite action_write_cell, decide_False.
  - intros i t. rewrite (sb_action _ _ Hb), build_action_cell.
    pose proof (action_after_spec
      (actions_at (grammar_of rules) (SLR1Parser.follow_sets p)
         (SLR1Parser.canonical_collection p) i t)) as H.
    destruct (action_after None _) as [[c|]|].
    + split; [done|]. intros (a & b & Ha & Hb' & Hne). destruct H as [_ H].
      destruct Hne. by rewrite (H a Ha), (H b Hb').
    + done.
    + split; [done|]. rewrite H. intros (a & _ & Ha%elem_of_nil & _). done.
  - rewrite (sb_is_slr1 _ _ Hb), check_if_slr1_spec. apply check_if_slr1_cells.
Qed.

Lemma C4_action_conflicts_witness :
  ∃ p, SLR1Parser.new (grammar_of [("S", ["SS"; "a"])]) = Ok p
       ∧ (SLR1Parser.is_slr1 p = true
          ↔ ∀ i row t, SLR1Parser.action_table p !! i = Some row → row !! t ≠ Some None).
Proof.
  destruct (result_returns (SLR1Parser.new (grammar_of [("S", ["SS"; "a"])]))) as [p E];
    [by vm_compute|].
  exists p. split; [exact E|].
  apply (C4_action_conflicts [("S", ["SS"; "a"])] p E).
Defined.

(** ** C5 *)

(** The augmented grammar of a source grammar that does not define [S']. *)
Lemma augmented_fresh_shape g :
  grammar_ok g → "S'" ∉ dict_keys (productions g) →
  productions (SLR1Parser._augment_grammar g)
  = defined (productions g) ++ [("S'", [start_symbol g])]
  ∧ rules_of (productions (SLR1Parser._augment_grammar g))
    = rules_of (productions g) ++ [("S'", start_symbol g)]
  ∧ dict_get "S'" (productions (SLR1Parser._augment_grammar g)) = Some [start_symbol g]
  ∧ ("S'" ∉ non_terminals g) ∧ "S'" ∉ terminals g.
Proof.
  intros Hok Hk.
  assert (productions (SLR1Parser._augment_grammar g)
          = defined (productions g) ++ [("S'", [start_symbol g])]) as Hp
    by (by apply augment_fresh).
  destruct (non_terminal_not_primed g Hok Hk) as [H1 H2].
  split_and!; try done.
  - rewrite Hp, rules_of_app, rules_of_defined. done.
  - rewrite Hp. apply dict_get_app_r. intros H%defined_keys. done.
Qed.

Lemma single_char_not_primed g :
  single_char_keys g → "S'" ∉ dict_keys (productions g).
Proof.
  unfold single_char_keys. rewrite Forall_forall. intros H Hin. by apply H in Hin.
Qed.

(** C5.  For a source grammar whose left-hand sides are single characters,
    the start symbol of the augmented grammar is a new non-terminal, [S'],
    that is neither a non-terminal nor a terminal of the source grammar;
    its sole production is the source start symbol; the (non-terminal,
    production) pairs of the augmented grammar are those of the source
    grammar, verbatim and in order, followed by the one new pair; and so
    every pair of the source grammar is a pair of the augmented grammar.
    Its non-terminals with productions are those of the source grammar
    followed by [S']. *)
Theorem C5_augmented_grammar rules :
  single_char_keys (grammar_of rules) →
  let g := grammar_of rules in
  let aug := SLR1Parser._augment_grammar g in
  start_symbol aug = "S'"
  ∧ (start_symbol aug ∉ non_terminals g ∪ terminals g)
  ∧ dict_get (start_symbol aug) (productions aug) = Some [start_symbol g]
  ∧ rules_of (productions aug)
    = rules_of (productions g) ++ [(start_symbol aug, start_symbol g)]
  ∧ (∀ A q, (A, q) ∈ rules_of (productions g) → (A, q) ∈ rules_of (productions aug))
  ∧ productions aug = defined (productions g) ++ [(start_symbol aug, [start_symbol g])].
Proof.
  intros Hk g aug. destruct (grammar_of_ok rules) as [Hok _].
  destruct (augmented_fresh_shape g Hok (single_char_not_primed g Hk))
    as (Hp & Hr & Hget & H1 & H2).
  change (start_symbol aug) with "S'".
  split_and!; [done| |done|done| |done].
  - rewrite elem_of_union. tauto.
  - intros A q Hq. fold aug in Hr. rewrite Hr. apply elem_of_app. by left.
Qed.

Lemma C5_augmented_grammar_witness :
  rules_of (productions (SLR1Parser._augment_grammar (grammar_of [("S", ["aSb"; "e"])])))
  = rules_of (productions (grammar_of [("S", ["aSb"; "e"])]))
    ++ [(start_symbol (SLR1Parser._augment_grammar (grammar_of [("S", ["aSb"; "e"])])),
         start_symbol (grammar_of [("S", ["aSb"; "e"])]))].
Proof.
  apply (C5_augmented_grammar [("S", ["aSb"; "e"])]).
  vm_compute. repeat constructor.
Defined.

(** ** C6 *)

Lemma ends_dollar_app s : ends_dollar (s +:+ "$") = true.
Proof.
  induction s as [|c s IH]; [done|]. simpl. rewrite IH. by destruct (s +:+ "$").
Qed.

Lemma normalize_ends s : ends_dollar (LL1Parser.normalize s) = true.
Proof.
  unfold LL1Parser.normalize. destruct (ends_dollar s) eqn:E; [done|apply ends_dollar_app].
Qed.

Lemma accepts_spec s ptr :
  LL1Parser.accepts (LL1Parser.normalize s) ptr = true
  ↔ String.length (LL1Parser.normalize s) ≤ ptr
    ∨ ptr + 1 = String.length (LL1Parser.normalize s).
Proof.
  unfold LL1Parser.accepts. rewrite normalize_ends, andb_true_r, orb_true_iff.
  rewrite !bool_decide_eq_true. lia.
Qed.

(** C6, as stated, fails: with [S -> $] the machine matches the end marker
    twice, against the last character of the input and against the
    substitute for the exhausted input; the loop ends with the cursor one
    past the end, and the answer is [True]. *)
Lemma C6_counterexample : ¬ C6_stated [("S", ["$"])].
Proof.
  intros H.
  destruct (result_returns (LL1Parser.new (grammar_of [("S", ["$"])]))) as [p E];
    [by vm_compute|].
  pose proof (result_holds
    (λ p, LL1Parser.is_ll1 p
          && match LL1Parser.parse_run p "$" 3 with
             | Some (Ok true, Some (3, LL1Parser.StackEmpty 2)) => true
             | _ => false
             end) _ p E) as Hp.
  apply andb_true_iff in Hp as [Hll1 Hrun]; [|by vm_compute].
  destruct (LL1Parser.parse_run p "$" 3)
    as [[[[]| |] [[[|[|[|[|]]]] [[|[|[|]]]| |]]|]]|] eqn:Er; try done.
  destruct (proj1 (H p "$" 3 3 2 (Ok true) E Hll1 Er) eq_refl) as [?|?]; done.
Qed.

(** C6, amended.  [parse] answers [True] exactly when the loop ended with
    the stack empty and the cursor at or past the end of the input (the
    input with [$] appended if it was absent), or one before the end. *)
Theorem C6_acceptance (p : LL1Parser.t) input_string fuel r :
  LL1Parser.parse_run p input_string fuel = Some r →
  r.1 = Ok true
  ↔ ∃ rounds ptr,
      r.2 = Some (rounds, LL1Parser.StackEmpty ptr)
      ∧ (String.length (LL1Parser.normalize input_string) ≤ ptr
         ∨ ptr + 1 = String.length (LL1Parser.normalize input_string)).
Proof.
  unfold LL1Parser.parse_run. destruct (LL1Parser.is_ll1 p); simpl.
  - destruct (LL1Parser.loop p _ fuel 0 _ 0) as [[rounds [ptr| |e]]|]; intros [= <-]; simpl.
    + split.
      * intros [= H]. exists rounds, ptr. split; [done|]. by apply accepts_spec.
      * intros (rounds' & ptr' & [= _ <-] & H). f_equal. by apply accepts_spec.
    + split; [done|]. by intros (? & ? & ? & _).
    + split; [done|]. by intros (? & ? & ? & _).
  - intros [= <-]. simpl. split; [done|]. by intros (? & ? & ? & _).
Qed.

Lemma C6_acceptance_witness :
  ∃ p r,
    LL1Parser.new (grammar_of [("S", ["aSb"; "e"])]) = Ok p
    ∧ LL1Parser.parse_run p "aabb" 20 = Some r
    ∧ (r.1 = Ok true
       ↔ ∃ rounds ptr,
           r.2 = Some (rounds, LL1Parser.StackEmpty ptr)
           ∧ (String.length (LL1Parser.normalize "aabb") ≤ ptr
              ∨ ptr + 1 = String.length (LL1Parser.normalize "aabb"))).
Proof.
  destruct (result_returns (LL1Parser.new (grammar_of [("S", ["aSb"; "e"])]))) as [p E];
    [by vm_compute|].
  assert (is_Some (LL1Parser.parse_run p "aabb" 20)) as [r Er].
  { apply (bool_decide_eq_true_1 _).
    apply (result_holds
             (λ p, bool_decide (is_Some (LL1Parser.parse_run p "aabb" 20))) _ p E).
    by vm_compute. }
  exists p, r. split_and!; [exact E|exact Er|]. apply (C6_acceptance p "aabb" 20 r Er).
Defined.

(** ** C7 *)

(** C7.  The construction of the canonical collection never exhausts its
    fuel: it returns, or raises [KeyError] on a symbol classified as a
    non-terminal that has no productions.  When it returns, the states are
    pairwise different and none is empty; a transition recorded for
    (state [i], symbol [X]) leads to the state whose item set is the
    non-empty result of [_goto] on state [i] and [X]; and for every state
    and symbol [_goto] gives either the empty set, and no transition is
    recorded, or the item set of the state the recorded transition leads
    to. *)
Theorem C7_canonical_collection rules :
  let g := grammar_of rules in
  let aug := SLR1Parser._augment_grammar g in
  match SLR1Parser._build_canonical_collection g aug with
  | Ok (states, transitions) =>
      NoDup states
      ∧ (∀ state, state ∈ states → state ≠ ∅)
      ∧ (∀ i X j, transitions !! (i, X) = Some j →
           ∃ current goto_result,
             states !! i = Some current
             ∧ SLR1Parser._goto aug current X = Ok goto_result
             ∧ goto_result ≠ ∅ ∧ states !! j = Some goto_result)
      ∧ (∀ i X current,
           states !! i = Some current → X ∈ terminals aug ∪ non_terminals aug →
           ∃ goto_result,
             SLR1Parser._goto aug current X = Ok goto_result
             ∧ if decide (goto_result = ∅) then transitions !! (i, X) = None
               else ∃ j, transitions !! (i, X) = Some j ∧ states !! j = Some goto_result)
  | Raise e =>
      ∃ k, e = KeyError k ∧ k ∈ non_terminals aug ∧ k ∉ dict_keys (productions aug)
  | OutOfFuel => False
  end.
Proof.
  intros g aug. destruct (grammar_of_ok rules) as [Hok _].
  pose proof (build_canonical_cases g aug (augment_start_rule g Hok)) as H.
  destruct (SLR1Parser._build_canonical_collection g aug) as [[states T]| |];
    [|done|done].
  destruct H as [[Hnd Hst Htr Hco] _]. simpl in *. split_and!.
  - done.
  - intros st Hin. by apply Hst.
  - intros i X j HT. destruct (Htr i X j HT) as (_ & _ & H). done.
  - intros i X cur Hcur HX. apply Hco; [|by apply elem_of_elements|done].
    left. by eapply lookup_lt_Some.
Qed.

(** ** C8 *)

(** C8.  [get_follow_set] never exhausts its fuel.  It raises [KeyError]
    on the start symbol when that is no non-terminal of the grammar;
    otherwise it returns sets among which that of the start symbol has [$],
    and which contain the sets the computation was started from.  A round
    of the computation, run on any sets, removes nothing from them. *)
Theorem C8_follow_grows rules first_sets :
  let g := grammar_of rules in
  match get_follow_set g first_sets with
  | Ok follow =>
      "$" ∈ follow !!! start_symbol g
      ∧ ∃ follow0, follow_init g = Ok follow0 ∧ ∀ k, follow0 !!! k ⊆ follow !!! k
  | Raise e => e = KeyError (start_symbol g) ∧ start_symbol g ∉ non_terminals g
  | OutOfFuel => False
  end
  ∧ ∀ follow k, follow !!! k ⊆ (follow_pass g first_sets follow).1 !!! k.
Proof.
  intros g. destruct (grammar_of_ok rules) as [Hok _]. split.
  - pose proof (get_follow_set_cases g Hok first_sets) as H.
    pose proof (follow_init_cases g Hok first_sets) as Hi.
    destruct (get_follow_set g first_sets) as [F|e|]; [|done|done].
    destruct H as (_ & _ & _ & F0 & HF0 & Hbelow). rewrite HF0 in Hi.
    destruct Hi as (_ & _ & Hd). split; [by apply Hbelow|]. by exists F0.
  - intros follow. apply follow_pass_below.
Qed.

(** ** C9 *)

(** C9, as stated, fails: in [A -> S] the symbol [S] has no productions,
    but it occurs in one and so is a non-terminal; FOLLOW is computed and
    the LL(1) parser is constructed. *)
Lemma C9_counterexample : ¬ C9_stated [("A", ["S"])].
Proof.
  intros H. destruct H as (_ & [e He] & _).
  - apply (bool_decide_eq_true_1 _). by vm_compute.
  - by vm_compute in He.
Qed.

Lemma start_non_terminal g :
  grammar_ok g →
  start_symbol g ∈ non_terminals g
  ↔ start_symbol g ∈ dict_keys (productions g)
    ∨ (start_symbol g ∈ symbols_of (productions g) ∧ isupper (start_symbol g) = true).
Proof.
  intros [_ _ Hn]. rewrite Hn, elem_of_union, elem_of_list_to_set, elem_of_filter.
  rewrite elem_of_list_to_set. tauto.
Qed.

(** C9, amended.  The start symbol is the literal ['S'].  When ['S'] has
    no productions, the construction of the SLR(1) parser raises
    [KeyError] on ['S'].  When moreover ['S'] does not occur in a
    production, FOLLOW and the construction of the LL(1) parser raise
    [KeyError] on ['S']; when it does occur in one, both return. *)
Theorem C9_undefined_start rules :
  "S" ∉ dict_keys (productions (grammar_of rules)) →
  let g := grammar_of rules in
  start_symbol g = "S"
  ∧ SLR1Parser.new g = Raise (KeyError "S")
  ∧ if decide ("S" ∈ symbols_of (productions g))
    then (∀ first_sets, ∃ follow, get_follow_set g first_sets = Ok follow)
         ∧ ∃ p, LL1Parser.new g = Ok p
    else (∀ first_sets, get_follow_set g first_sets = Raise (KeyError "S"))
         ∧ LL1Parser.new g = Raise (KeyError "S").
Proof.
  intros Hk g. destruct (grammar_of_ok rules) as [Hok Hstart]. fold g in Hok, Hstart, Hk.
  pose proof (start_non_terminal g Hok) as Hnt. rewrite Hstart in Hnt.
  split_and!; [done| |].
  - apply slr_new_undefined_start; [done|done|]. intros H%defined_keys. done.
  - pose proof (new_cases g Hok) as Hnew. rewrite Hstart in Hnew. case_decide as Hs.
    + assert ("S" ∈ non_terminals g) as HS by (apply Hnt; by right). split.
      * intros first_sets. pose proof (get_follow_set_cases g Hok first_sets) as H.
        rewrite Hstart in H.
        destruct (get_follow_set g first_sets) as [F|e|]; [by exists F| |done].
        by destruct H as [_ H].
      * destruct (LL1Parser.new g) as [p|e|]; [by exists p| |done].
        by destruct Hnew as [_ H].
    + assert ("S" ∉ non_terminals g) as HS by (rewrite Hnt; tauto). split.
      * intros first_sets. pose proof (get_follow_set_cases g Hok first_sets) as H.
        rewrite Hstart in H.
        destruct (get_follow_set g first_sets) as [F|e|]; [|by destruct H as [-> _]|done].
        by destruct H as [H _].
      * destruct (LL1Parser.new g) as [p|e|]; [|by destruct Hnew as [-> _]|done].
        exfalso. apply HS. rewrite <-Hstart. apply (built_start g p Hnew).
Qed.

Lemma C9_undefined_start_witness :
  SLR1Parser.new (grammar_of [("A", ["a"])]) = Raise (KeyError "S")
  ∧ LL1Parser.new (grammar_of [("A", ["a"])]) = Raise (KeyError "S").
Proof.
  assert ("S" ∉ dict_keys (productions (grammar_of [("A", ["a"])]))) as Hk.
  { apply (bool_decide_eq_true_1 _). by vm_compute. }
  destruct (C9_undefined_start [("A", ["a"])] Hk) as (_ & H1 & H2).
  split; [exact H1|].
  destruct (decide ("S" ∈ symbols_of (productions (grammar_of [("A", ["a"])]))))
    as [Hs|Hs]; [|apply H2].
  exfalso. revert Hs. apply (bool_decide_eq_true_1 _). by vm_compute.
Defined.

(** ** C10 *)

Lemma loop_forever (p : LL1Parser.t) row :
  LL1Parser.parse_table p !! "S" = Some row → row !! "$" = Some (Some "$S") →
  ∀ fuel rounds ptr, LL1Parser.loop p "$" fuel rounds ["S"; "$"] ptr = None.
Proof.
  intros Hrow Hcell fuel. induction fuel as [fuel IH] using lt_wf_ind.
  intros rounds ptr. destruct fuel as [|[|fuel]]; [done| |].
  - cbn [LL1Parser.loop]. unfold LL1Parser.step.
    rewrite current_input_dollar, Hrow, Hcell. done.
  - cbn [LL1Parser.loop]. unfold LL1Parser.step at 1.
    rewrite current_input_dollar, Hrow, Hcell.
    change (LL1Parser.loop p "$" (S fuel) (S rounds) ["$"; "S"; "$"] ptr = None).
    cbn [LL1Parser.loop]. rewrite step_terminal, current_input_dollar by done.
    rewrite bool_decide_eq_true_2 by done. apply IH. lia.
Qed.

(** C10, as stated, fails: [S -> $S] is LL(1), and on the input ["$"] the
    machine pushes [$S], matches [$] against the end of the input, and is
    back where it started: [parse] does not return. *)
Lemma C10_counterexample : ¬ C10_stated [("S", ["$S"])].
Proof.
  intros H.
  destruct (result_returns (LL1Parser.new (grammar_of [("S", ["$S"])]))) as [p E];
    [by vm_compute|].
  destruct (H p "$" E) as (fuel & b & Hf).
  pose proof (result_holds
    (λ p, LL1Parser.is_ll1 p
          && bool_decide (start_symbol (LL1Parser.grammar p) = "S")
          && bool_decide (LL1Parser.parse_table p !! "S" ≫= (.!! "$") = Some (Some "$S")))
    _ p E) as Hp.
  apply andb_true_iff in Hp as [[Hll1 Hs%bool_decide_eq_true_1]%andb_true_iff
                                 Hc%bool_decide_eq_true_1]; [|by vm_compute].
  destruct (LL1Parser.parse_table p !! "S") as [row|] eqn:Hrow; [|done]. simpl in Hc.
  unfold LL1Parser.parse, LL1Parser.parse_run in Hf.
  rewrite Hll1, Hs, normalize_dollar in Hf. simpl in Hf.
  by rewrite (loop_forever p row Hrow Hc) in Hf.
Qed.

(** C10, amended.  Every non-terminal of the grammar has a row in the
    table of a constructed parser.  When the left-hand sides are uppercase
    symbols and the end marker does not occur in a production, [parse]
    returns a boolean on every input: there is an amount of fuel from
    which on the run ends, with the same answer, and not by an
    exception. *)
Theorem C10_parse_returns rules p input_string :
  upper_keys (grammar_of rules) → dollar_free (grammar_of rules) →
  LL1Parser.new (grammar_of rules) = Ok p →
  (∀ A, A ∈ non_terminals (grammar_of rules) → is_Some (LL1Parser.parse_table p !! A))
  ∧ ∃ fuel b, ∀ fuel', fuel ≤ fuel' →
      LL1Parser.parse p input_string fuel' = Some (Ok b).
Proof.
  intros Hkeys Hdollar E. pose proof (new_built rules p E) as Hb.
  destruct (grammar_of_ok rules) as [Hok _]. split.
  - intros A HA. apply elem_of_dom. rewrite (built_table _ _ Hb).
    by apply build_parse_table_dom.
  - apply (parse_halts (grammar_of rules)); try done. intros k. by apply upper_keys_elem.
Qed.

Lemma C10_parse_returns_witness :
  ∃ p fuel b,
    LL1Parser.new (grammar_of [("S", ["aSb"; "e"])]) = Ok p
    ∧ ∀ fuel', fuel ≤ fuel' → LL1Parser.parse p "aab" fuel' = Some (Ok b).
Proof.
  destruct (result_returns (LL1Parser.new (grammar_of [("S", ["aSb"; "e"])]))) as [p E];
    [by vm_compute|].
  destruct (C10_parse_returns [("S", ["aSb"; "e"])] p "aab") as (_ & fuel & b & H).
  - vm_compute. repeat constructor.
  - apply (bool_decide_eq_true_1 _). by vm_compute.
  - exact E.
  - exists p, fuel, b. split; [exact E|exact H].
Defined.

(** * Further properties of the program *)

(** ** grammar.py *)

Lemma dict_get_append k nt p d :
  dict_get k (dict_append nt p d)
  = if decide (k = nt) then (λ v, v ++ [p]) <$> dict_get nt d else dict_get k d.
Proof.
  induction d as [|[k' v] d IH]; simpl; [by case_decide|].
  destruct (decide (nt = k')) as [->|Hne]; simpl; [|rewrite IH];
    repeat case_decide; by simplify_eq/=.
Qed.

Lemma dict_get_app k d1 d2 :
  dict_get k (d1 ++ d2) = match dict_get k d1 with Some v => Some v | None => dict_get k d2 end.
Proof.
  induction d1 as [|[k' v] d1 IH]; simpl; [done|]. by case_decide.
Qed.

Lemma add_one_fold_productions nt prods g :
  productions (foldl (add_one nt) g prods)
  = foldl (λ d p, dict_append nt p d) (productions g) prods.
Proof.
  revert g. induction prods as [|p prods IH]; intros g; simpl; [done|].
  by rewrite IH, add_one_productions.
Qed.

Lemma dict_get_appends k nt prods d :
  dict_get k (foldl (λ d p, dict_append nt p d) d prods)
  = if decide (k = nt) then (λ v, v ++ prods) <$> dict_get nt d else dict_get k d.
Proof.
  revert d. induction prods as [|p prods IH]; intros d; simpl.
  - case_decide; subst; [|done]. destruct (dict_get nt d); simpl; [|done].
    by rewrite app_nil_r.
  - rewrite IH. case_decide; subst; [|by rewrite dict_get_append, decide_False].
    rewrite dict_get_append, decide_True by done.
    destruct (dict_get nt d); simpl; [|done]. by rewrite <-app_assoc.
Qed.

(** X1.  [add_production] appends: afterwards the non-terminal has the
    productions it had before (none when it was new), followed by the new
    ones in order, and every other non-terminal has what it had. *)
Theorem add_production_lookup g non_terminal prods k :
  dict_get k (productions (add_production g non_terminal prods))
  = if decide (k = non_terminal)
    then Some (default [] (dict_get non_terminal (productions g)) ++ prods)
    else dict_get k (productions g).
Proof.
  unfold add_production. rewrite add_one_fold_productions, dict_get_appends.
  case_bool_decide as Hk; simpl.
  - rewrite !dict_get_app. simpl. apply dict_get_None in Hk. rewrite Hk.
    case_decide as Hkn; subst.
    + by rewrite decide_True.
    + by destruct (dict_get k (productions g)).
  - case_decide; [|done]. assert (non_terminal ∈ dict_keys (productions g)) as Hin.
    { by destruct (decide (non_terminal ∈ dict_keys (productions g))). }
    destruct (dict_get non_terminal (productions g)) eqn:E; [done|].
    by apply dict_get_None in E.
Qed.

(** X2.  The grammar read from any list of rules has the start symbol
    ['S'] and pairwise different left-hand sides; its terminals are the
    symbols of the right-hand sides that are neither uppercase nor [e], and
    its non-terminals are the left-hand sides and the uppercase symbols of
    the right-hand sides. *)
Theorem grammar_classification rules :
  let g := grammar_of rules in
  start_symbol g = "S"
  ∧ NoDup (dict_keys (productions g))
  ∧ (∀ s, s ∈ terminals g
          ↔ s ∈ symbols_of (productions g) ∧ isupper s = false ∧ s ≠ "e")
  ∧ (∀ s, s ∈ non_terminals g
          ↔ s ∈ dict_keys (productions g)
            ∨ (s ∈ symbols_of (productions g) ∧ isupper s = true)).
Proof.
  intros g. destruct (grammar_of_ok rules) as [[Hnd Ht Hn] Hs]. fold g in Hnd, Ht, Hn, Hs.
  split_and!; [done|done| |].
  - intros s. rewrite Ht, elem_of_filter, elem_of_list_to_set.
    unfold is_terminal_symbol. tauto.
  - intros s. rewrite Hn, elem_of_union, elem_of_filter, !elem_of_list_to_set. tauto.
Qed.

(** X3.  [get_first_set] returns on every grammar: the loop ends within
    the fuel of the model.  The sets returned are unchanged by one more
    round of the loop; they are defined for [e], the terminals and the
    non-terminals, and hold terminals and [e] only. *)
Theorem first_set_fixpoint rules :
  let g := grammar_of rules in
  ∃ first,
    get_first_set g = Ok first
    ∧ first_pass g first = (first, false)
    ∧ dom first = {["e"]} ∪ terminals g ∪ non_terminals g
    ∧ ∀ k, first !!! k ⊆ {["e"]} ∪ terminals g.
Proof.
  intros g. destruct (grammar_of_ok rules) as [Hok _].
  destruct (get_first_set_returns g Hok) as (F & HF & [Hd Hr] & Hst).
  by exists F.
Qed.

(** X4.  With uppercase left-hand sides, the computed FIRST sets are exact:
    [t] is in FIRST of [X] if and only if [X] derives, through the
    productions, a string that begins with [t], or the empty string when
    [t] is [e]. *)
Theorem first_set_derivations rules first X t :
  upper_keys (grammar_of rules) →
  get_first_set (grammar_of rules) = Ok first →
  t ∈ first !!! X ↔ ∃ n, derives (grammar_of rules) n X t.
Proof.
  intros Hkeys HF. destruct (grammar_of_ok rules) as [Hok _].
  assert (∀ k, k ∈ dict_keys (productions (grammar_of rules)) → isupper k = true) as Hk.
  { intros k. by apply upper_keys_elem. }
  pose proof (get_first_set_sound _ Hok Hk first HF) as Hs.
  destruct (get_first_set_returns _ Hok) as (F' & HF' & _ & Hst).
  rewrite HF in HF'. injection HF' as <-. split.
  - apply (fs_derives _ _ Hs).
  - intros [n Hn]. by eapply first_complete.
Qed.

Lemma first_set_derivations_witness :
  ∃ first,
    get_first_set (grammar_of [("S", ["AB"]); ("A", ["a"; "e"]); ("B", ["b"])]) = Ok first
    ∧ ("b" ∈ first !!! "S"
       ↔ ∃ n, derives (grammar_of [("S", ["AB"]); ("A", ["a"; "e"]); ("B", ["b"])]) n "S" "b").
Proof.
  destruct (result_returns
              (get_first_set (grammar_of [("S", ["AB"]); ("A", ["a"; "e"]); ("B", ["b"])])))
    as [first E]; [by vm_compute|].
  exists first. split; [exact E|].
  apply (first_set_derivations [("S", ["AB"]); ("A", ["a"; "e"]); ("B", ["b"])] first "S" "b");
    [|exact E].
  vm_compute. repeat constructor.
Defined.

(** X5.  With uppercase left-hand sides, the computed FIRST sets solve the
    FIRST equations: the set of a non-terminal with productions is the
    union of what [_get_first_of_string] gives for its productions, the set
    of a terminal is the terminal itself, and the set of [e] is [e]. *)
Theorem first_set_equations rules first :
  upper_keys (grammar_of rules) →
  get_first_set (grammar_of rules) = Ok first →
  (∀ A t, A ∈ dict_keys (productions (grammar_of rules)) →
     t ∈ first !!! A
     ↔ ∃ q, (A, q) ∈ rules_of (productions (grammar_of rules))
            ∧ t ∈ LL1Parser._get_first_of_string first q)
  ∧ (∀ t, t ∈ terminals (grammar_of rules) → first !!! t = {[t]})
  ∧ first !!! "e" = {["e"]}.
Proof.
  intros Hkeys HF. destruct (grammar_of_ok rules) as [Hok _].
  assert (∀ k, k ∈ dict_keys (productions (grammar_of rules)) → isupper k = true) as Hk.
  { intros k. by apply upper_keys_elem. }
  pose proof (get_first_set_sound _ Hok Hk first HF) as Hs.
  destruct (get_first_set_returns _ Hok) as (F' & HF' & Hfok & Hst).
  rewrite HF in HF'. injection HF' as <-. split_and!.
  - intros A t HA. split.
    + by apply first_member_rule.
    + intros (q & Hq & Ht). by apply (first_pass_stable _ Hok first A q Hfok Hst Hq).
  - intros t Ht. by apply (first_sound_terminal _ Hok Hk).
  - by apply (first_sound_eps _ Hok Hk).
Qed.

Lemma first_set_equations_witness :
  ∃ first,
    get_first_set (grammar_of [("S", ["aSb"; "e"])]) = Ok first
    ∧ first !!! "e" = {["e"]}.
Proof.
  destruct (result_returns (get_first_set (grammar_of [("S", ["aSb"; "e"])])))
    as [first E]; [by vm_compute|].
  exists first. split; [exact E|].
  apply (first_set_equations [("S", ["aSb"; "e"])] first); [|exact E].
  vm_compute. repeat constructor.
Defined.

(** X6.  A round of the FIRST loop removes nothing from the sets, and, on
    sets defined for the symbols of the grammar, its flag [updated] is up
    exactly when the round changed a set. *)
Theorem first_round_grows rules first :
  first_ok (grammar_of rules) first →
  (∀ k, first !!! k ⊆ (first_pass (grammar_of rules) first).1 !!! k)
  ∧ ((first_pass (grammar_of rules) first).2 = true
     ↔ (first_pass (grammar_of rules) first).1 ≠ first).
Proof.
  intros HF. destruct (grammar_of_ok rules) as [Hok _]. split.
  - apply first_pass_below.
  - destruct (first_pass_step _ Hok first HF) as [_ Hadv].
    destruct (first_pass (grammar_of rules) first) as [F' b]. simpl.
    destruct b.
    + split; [|done]. intros _ ->. apply advances_flagged in Hadv. lia.
    + apply advances_unflagged in Hadv. subst. split; [done|]. by intros [].
Qed.

Lemma first_round_grows_witness :
  (first_pass (grammar_of [("S", ["aSb"; "e"])])
     (first_init (grammar_of [("S", ["aSb"; "e"])]))).2 = true
  ↔ (first_pass (grammar_of [("S", ["aSb"; "e"])])
       (first_init (grammar_of [("S", ["aSb"; "e"])]))).1
    ≠ first_init (grammar_of [("S", ["aSb"; "e"])]).
Proof.
  apply (first_round_grows [("S", ["aSb"; "e"])]
           (first_init (grammar_of [("S", ["aSb"; "e"])]))).
  apply first_init_ok.
Defined.

(** X7.  The FOLLOW sets computed from the computed FIRST sets are defined
    for the non-terminals and for nothing else, none of them holds [e],
    and one more round of the loop leaves them unchanged. *)
Theorem follow_set_fixpoint rules first follow :
  get_first_set (grammar_of rules) = Ok first →
  get_follow_set (grammar_of rules) first = Ok follow →
  dom follow = non_terminals (grammar_of rules)
  ∧ (∀ k, "e" ∉ follow !!! k)
  ∧ follow_pass (grammar_of rules) first follow = (follow, false).
Proof.
  intros HF HFo. destruct (grammar_of_ok rules) as [Hok _].
  destruct (get_first_set_returns _ Hok) as (F' & HF' & Hfok & _).
  rewrite HF in HF'. injection HF' as <-.
  pose proof (get_follow_set_cases _ Hok first) as H. rewrite HFo in H.
  destruct H as (_ & [Hd _] & Hst & _). split_and!; [done| |done].
  eapply get_follow_set_no_eps; [|exact HFo].
  intros s Hs. by eapply first_ok_symbol.
Qed.

Lemma follow_set_fixpoint_witness :
  ∃ first follow,
    get_first_set (grammar_of [("S", ["aSb"; "e"])]) = Ok first
    ∧ get_follow_set (grammar_of [("S", ["aSb"; "e"])]) first = Ok follow
    ∧ dom follow = non_terminals (grammar_of [("S", ["aSb"; "e"])]).
Proof.
  destruct (result_returns (get_first_set (grammar_of [("S", ["aSb"; "e"])])))
    as [first E]; [by vm_compute|].
  assert (∃ follow, get_follow_set (grammar_of [("S", ["aSb"; "e"])]) first = Ok follow)
    as [follow E'].
  { apply result_returns.
    apply (result_holds
             (λ first, match get_follow_set (grammar_of [("S", ["aSb"; "e"])]) first with
                       | Ok _ => true
                       | _ => false
                       end) _ first E).
    by vm_compute. }
  exists first, follow. split_and!; [exact E|exact E'|].
  apply (follow_set_fixpoint [("S", ["aSb"; "e"])] first follow E E').
Defined.

(** X8.  The computed FOLLOW sets solve the FOLLOW inclusions: for a
    production other than [e] of a non-terminal [A] in which an uppercase
    symbol [B] is followed by [rest], FOLLOW of [B] contains what
    [get_follow_set] takes as FIRST of [rest], and contains FOLLOW of [A]
    when all of [rest] can vanish. *)
Theorem follow_set_inclusions rules first follow A q pre B rest :
  get_follow_set (grammar_of rules) first = Ok follow →
  (A, q) ∈ rules_of (productions (grammar_of rules)) → q ≠ "e" →
  chars q = pre ++ B :: rest → isupper B = true →
  (first_of_rest first rest).1 ⊆ follow !!! B
  ∧ ((first_of_rest first rest).2 = true → follow !!! A ⊆ follow !!! B).
Proof.
  intros HFo Hq Hne Hsplit HB. destruct (grammar_of_ok rules) as [Hok _].
  pose proof (get_follow_set_cases _ Hok first) as H. rewrite HFo in H.
  destruct H as (_ & Hfok & Hst & _).
  by apply (follow_pass_stable _ Hok first follow A q pre B rest).
Qed.

Lemma follow_set_inclusions_witness :
  ∃ follow,
    get_follow_set (grammar_of [("S", ["AB"]); ("A", ["a"]); ("B", ["b"; "e"])]) ∅
    = Ok follow
    ∧ follow !!! "S" ⊆ follow !!! "B".
Proof.
  destruct (result_returns
              (get_follow_set
                 (grammar_of [("S", ["AB"]); ("A", ["a"]); ("B", ["b"; "e"])]) ∅))
    as [follow E]; [by vm_compute|].
  exists follow. split; [exact E|].
  apply (follow_set_inclusions [("S", ["AB"]); ("A", ["a"]); ("B", ["b"; "e"])]
           ∅ follow "S" "AB" ["A"] "B" [] E); try done.
  vm_compute. repeat constructor.
Defined.

(** ** ll1_parser.py *)

Lemma writers_elem g first_sets follow_sets A t q :
  q ∈ writers g first_sets follow_sets A t
  ↔ (A, q) ∈ rules_of (productions g) ∧ selects first_sets follow_sets A q t.
Proof.
  unfold writers. rewrite list_elem_of_bind. split.
  - intros ([A' q'] & Hin & Hr). simpl in Hin.
    case_decide as HA; [|by apply elem_of_nil in Hin]. subst.
    apply elem_of_replicate in Hin as [-> Hn]. split; [done|].
    rewrite hits_spec in Hn. unfold selects.
    repeat case_decide; first [tauto|done].
  - intros [Hr Hs]. exists (A, q). split; [|done]. simpl. rewrite decide_True by done.
    apply elem_of_replicate. split; [done|]. rewrite hits_spec. unfold selects in Hs.
    repeat case_decide; first [lia|tauto].
Qed.

(** X9.  The cells of the table of a constructed parser.  A cell
    ([A], [t]) is absent exactly when no production of [A] is written under
    [t].  A cell that holds a production holds a production of [A] that is
    written under [t], and that is the only one. *)
Theorem table_cells rules p A t :
  LL1Parser.new (grammar_of rules) = Ok p →
  ((LL1Parser.parse_table p !!! A) !! t = None
   ↔ ∀ q, (A, q) ∈ rules_of (productions (grammar_of rules)) →
          ¬ selects (LL1Parser.first_sets p) (LL1Parser.follow_sets p) A q t)
  ∧ ∀ q, (LL1Parser.parse_table p !!! A) !! t = Some (Some q) →
      (A, q) ∈ rules_of (productions (grammar_of rules))
      ∧ selects (LL1Parser.first_sets p) (LL1Parser.follow_sets p) A q t
      ∧ ∀ q', (A, q') ∈ rules_of (productions (grammar_of rules)) →
              selects (LL1Parser.first_sets p) (LL1Parser.follow_sets p) A q' t →
              q' = q.
Proof.
  intros E. pose proof (new_built rules p E) as Hb.
  rewrite (built_table _ _ Hb), build_parse_table_cell, cell_after_cases.
  pose proof (writers_elem (grammar_of rules) (LL1Parser.first_sets p)
                (LL1Parser.follow_sets p) A t) as Hw.
  destruct (writers _ _ _ A t) as [|x [|y l]].
  - split; [|done]. split; [|done]. intros _ q Hq Hs.
    by apply (elem_of_nil q), Hw.
  - split.
    + split; [done|]. intros H. destruct (H x); apply Hw; left.
    + intros q [= <-]. destruct (proj1 (Hw x)) as [H1 H2]; [left|].
      split_and!; [done|done|]. intros q' Hq' Hs'.
      assert (q' ∈ [x]) as Hin by (apply Hw; done). by apply list_elem_of_singleton in Hin.
  - split; [|done]. split; [done|]. intros H. destruct (H x); apply Hw; left.
Qed.

Lemma table_cells_witness :
  ∃ p, LL1Parser.new (grammar_of [("S", ["aSb"; "e"])]) = Ok p
       ∧ ∀ q, (LL1Parser.parse_table p !!! "S") !! "a" = Some (Some q) →
           ("S", q) ∈ rules_of (productions (grammar_of [("S", ["aSb"; "e"])])).
Proof.
  destruct (result_returns (LL1Parser.new (grammar_of [("S", ["aSb"; "e"])]))) as [p E];
    [by vm_compute|].
  exists p. split; [exact E|]. intros q Hq.
  apply (table_cells [("S", ["aSb"; "e"])] p "S" "a" E). exact Hq.
Defined.

(** X10.  [_check_if_ll1] on the table of a constructed parser: the grammar
    is reported as LL(1) exactly when no cell was written more than once,
    and then a production of [A] written under [t] is what the cell
    ([A], [t]) holds. *)
Theorem ll1_condition rules p :
  LL1Parser.new (grammar_of rules) = Ok p →
  (LL1Parser.is_ll1 p = true
   ↔ ∀ A t, length (writers (grammar_of rules) (LL1Parser.first_sets p)
                      (LL1Parser.follow_sets p) A t) ≤ 1)
  ∧ (LL1Parser.is_ll1 p = true →
     ∀ A q t, (A, q) ∈ rules_of (productions (grammar_of rules)) →
       selects (LL1Parser.first_sets p) (LL1Parser.follow_sets p) A q t →
       (LL1Parser.parse_table p !!! A) !! t = Some (Some q)).
Proof.
  intros E. pose proof (new_built rules p E) as Hb. split.
  - rewrite (built_is_ll1 _ _ Hb), check_if_ll1_spec. split.
    + intros H A t. specialize (H A t).
      rewrite (built_table _ _ Hb), build_parse_table_cell, cell_after_cases in H.
      destruct (writers _ _ _ A t) as [|x [|y l]]; simpl; [lia|lia|done].
    + intros H A t. specialize (H A t).
      rewrite (built_table _ _ Hb), build_parse_table_cell, cell_after_cases.
      destruct (writers _ _ _ A t) as [|x [|y l]]; simpl in *; [done|done|lia].
  - intros Hll1 A q t Hq Hs.
    apply (ll1_unique _ _ Hb Hll1 A t q Hq).
    assert (q ∈ writers (grammar_of rules) (LL1Parser.first_sets p)
                  (LL1Parser.follow_sets p) A t) as Hin by (apply writers_elem; done).
    rewrite hits_spec. unfold selects in Hs. repeat case_decide; first [lia|tauto].
Qed.

Lemma ll1_condition_witness :
  ∃ p, LL1Parser.new (grammar_of [("S", ["aSb"; "e"])]) = Ok p
       ∧ (LL1Parser.is_ll1 p = true
          ↔ ∀ A t, length (writers (grammar_of [("S", ["aSb"; "e"])])
                             (LL1Parser.first_sets p) (LL1Parser.follow_sets p) A t) ≤ 1).
Proof.
  destruct (result_returns (LL1Parser.new (grammar_of [("S", ["aSb"; "e"])]))) as [p E];
    [by vm_compute|].
  exists p. split; [exact E|].
  apply (ll1_condition [("S", ["aSb"; "e"])] p E).
Defined.

(** *** The stack machine *)





Lemma table_cell_rule g p top row c q :
  built g p → LL1Parser.parse_table p !! top = Some row → row !! c = Some (Some q) →
  (top, q) ∈ rules_of (productions g).
Proof.
  intros Hb Hrow Hc. apply (ll1_cell g p Hb top c q).
  by rewrite (lookup_total_correct _ _ _ Hrow).
Qed.

Lemma step_keeps_symbols g p input top stk ptr stk' ptr' :
  built g p → stack_symbols g (top :: stk) →
  LL1Parser.step p input top stk ptr = LL1Parser.Continue stk' ptr' →
  stack_symbols g stk'.
Proof.
  intros Hb [_ Hstk]%Forall_cons. unfold LL1Parser.step.
  case_bool_decide; [by intros [= <- _]|].
  destruct (isupper top); simpl.
  - destruct (LL1Parser.parse_table p !! top) as [row|] eqn:Hrow; [|done].
    destruct (row !! LL1Parser.current_input input ptr) as [[q|]|] eqn:Hc; [|done|done].
    pose proof (table_cell_rule g p top row _ q Hb Hrow Hc) as Hq.
    case_bool_decide; intros [= <- _]; [|done].
    apply Forall_app. split; [|done]. apply Forall_forall. intros s Hs.
    right. unfold stack_sym. left. by eapply rules_of_symbol.
  - case_bool_decide; [|done]. by intros [= <- _].
Qed.

Lemma step_never_fails g p input top stk ptr e :
  grammar_ok g → built g p → stack_symbols g (top :: stk) →
  LL1Parser.step p input top stk ptr ≠ LL1Parser.Fail e.
Proof.
  intros Hok Hb [Htop _]%Forall_cons. unfold LL1Parser.step.
  case_bool_decide; [done|].
  destruct (isupper top) eqn:Hu; simpl; [|by case_bool_decide].
  assert (top ∈ non_terminals g) as Hnt.
  { destruct Htop as [->|Htop]; [done|]. by apply (stack_sym_non_terminal g p). }
  pose proof (build_parse_table_dom g (LL1Parser.first_sets p) (LL1Parser.follow_sets p))
    as Hd.
  rewrite <-(built_table g p Hb) in Hd.
  assert (top ∈ dom (LL1Parser.parse_table p)) as [row Hrow]%elem_of_dom by set_solver.
  rewrite Hrow. destruct (row !! _) as [[q|]|]; [|done|done]. by case_bool_decide.
Qed.

Lemma loop_never_raises g p input :
  grammar_ok g → built g p →
  ∀ fuel rounds stk ptr n r,
    stack_symbols g stk →
    LL1Parser.loop p input fuel rounds stk ptr = Some (n, r) →
    ∀ e, r ≠ LL1Parser.Raised e.
Proof.
  intros Hok Hb fuel. induction fuel as [|fuel IH]; intros rounds stk ptr n r Hstk.
  - destruct stk; simpl; [|done]. by intros [= _ <-].
  - destruct stk as [|top stk]; simpl; [by intros [= _ <-]|].
    destruct (LL1Parser.step p input top stk ptr) as [stk' ptr'|b|e'] eqn:Hs.
    + apply IH. by eapply step_keeps_symbols.
    + by intros [= _ <-].
    + by destruct (step_never_fails g p input top stk ptr e' Hok Hb Hstk).
Qed.

(** X12.  [parse] of a constructed LL(1) parser raises no exception,
    whatever the grammar and the input: a run that ends, ends with a
    boolean.  Every uppercase symbol that reaches the top of the stack has
    a row in the table. *)
Theorem parse_never_raises rules p input_string fuel r :
  LL1Parser.new (grammar_of rules) = Ok p →
  LL1Parser.parse p input_string fuel = Some r →
  ∃ b, r = Ok b.
Proof.
  intros E. pose proof (new_built rules p E) as Hb.
  destruct (grammar_of_ok rules) as [Hok _].
  unfold LL1Parser.parse, LL1Parser.parse_run.
  destruct (LL1Parser.is_ll1 p); simpl; [|intros [= <-]; by eexists].
  destruct (LL1Parser.loop p _ fuel 0 _ 0) as [[n x]|] eqn:El; [|done].
  assert (∀ e, x ≠ LL1Parser.Raised e) as Hx.
  { eapply (loop_never_raises _ p _ Hok Hb); [|exact El].
    apply Forall_cons. split.
    - right. unfold stack_sym. right. by rewrite (built_grammar _ _ Hb).
    - apply Forall_cons. split; [by left|constructor]. }
  destruct x as [ptr| |e]; simpl; [intros [= <-]; by eexists..|].
  by destruct (Hx e).
Qed.

Lemma parse_never_raises_witness :
  ∃ p r,
    LL1Parser.new (grammar_of [("S", ["aSb"; "e"])]) = Ok p
    ∧ LL1Parser.parse p "ab" 20 = Some r ∧ ∃ b, r = Ok b.
Proof.
  destruct (result_returns (LL1Parser.new (grammar_of [("S", ["aSb"; "e"])]))) as [p E];
    [by vm_compute|].
  assert (is_Some (LL1Parser.parse p "ab" 20)) as [r Er].
  { apply (bool_decide_eq_true_1 _).
    apply (result_holds (λ p, bool_decide (is_Some (LL1Parser.parse p "ab" 20))) _ p E).
    by vm_compute. }
  exists p, r. split_and!; [exact E|exact Er|].
  apply (parse_never_raises [("S", ["aSb"; "e"])] p "ab" 20 r E Er).
Defined.

(** *** What an accepting run has consumed *)

Lemma read_nil input ptr : read input ptr ptr = [].
Proof. unfold read. by rewrite Nat.sub_diag. Qed.

Lemma read_cons input ptr ptr' :
  ptr + 1 ≤ ptr' →
  read input ptr ptr' = LL1Parser.current_input input ptr :: read input (ptr + 1) ptr'.
Proof.
  intros H. unfold read. replace (ptr' - ptr) with (S (ptr' - (ptr + 1))) by lia.
  simpl. by rewrite Nat.add_1_r.
Qed.

Lemma loop_yields g p input :
  built g p →
  ∀ fuel rounds stk ptr n ptr',
    LL1Parser.loop p input fuel rounds stk ptr = Some (n, LL1Parser.StackEmpty ptr') →
    ptr ≤ ptr' ∧ yields g stk (read input ptr ptr').
Proof.
  intros Hb fuel. induction fuel as [|fuel IH]; intros rounds stk ptr n ptr'.
  - destruct stk; simpl; [|done]. intros [= _ <-]. rewrite read_nil.
    split; [done|constructor].
  - destruct stk as [|top stk]; simpl.
    { intros [= _ <-]. rewrite read_nil. split; [done|constructor]. }
    destruct (LL1Parser.step p input top stk ptr) as [stk' ptr1|b|e] eqn:Hs; [|done|done].
    intros [Hle Hy]%IH. revert Hs. unfold LL1Parser.step.
    case_bool_decide as He.
    { intros [= <- <-]. subst. split; [done|]. by constructor. }
    destruct (isupper top) eqn:Hu; simpl.
    + destruct (LL1Parser.parse_table p !! top) as [row|] eqn:Hrow; [|done].
      destruct (row !! LL1Parser.current_input input ptr) as [[q|]|] eqn:Hc; [|done|done].
      pose proof (table_cell_rule g p top row _ q Hb Hrow Hc) as Hq.
      case_bool_decide as Hqe; intros [= <- <-]; (split; [done|]).
      * by apply (yields_rule g top q).
      * apply (yields_rule g top q); [done|done|].
        assert (q = "e") as -> by (by destruct (decide (q = "e"))). simpl.
        by constructor.
    + case_bool_decide as Hcur; [|done]. intros [= <- <-]. split; [lia|].
      rewrite read_cons by lia. rewrite <-Hcur. by constructor.
Qed.

Lemma yields_app g stk1 stk2 w :
  yields g (stk1 ++ stk2) w →
  ∃ w1 w2, w = w1 ++ w2 ∧ yields g stk1 w1 ∧ yields g stk2 w2.
Proof.
  intros H. remember (stk1 ++ stk2) as stk eqn:E. revert stk1 E.
  induction H as [|stk w H IH|t stk w Hu Hne H IH|A q stk w Hu Hq H IH]; intros stk1 E.
  - symmetry in E. apply app_eq_nil in E as [-> ->]. exists [], []. repeat constructor.
  - destruct stk1 as [|s stk1]; simpl in E; subst.
    + exists [], w. split_and!; [done|constructor|by constructor].
    + injection E as <- ->. destruct (IH stk1 eq_refl) as (w1 & w2 & -> & H1 & H2).
      exists w1, w2. split_and!; [done|by constructor|done].
  - destruct stk1 as [|s stk1]; simpl in E; subst.
    + exists [], (t :: w). split_and!; [done|constructor|by constructor].
    + injection E as <- ->. destruct (IH stk1 eq_refl) as (w1 & w2 & -> & H1 & H2).
      exists (t :: w1), w2. split_and!; [done|by constructor|done].
  - destruct stk1 as [|s stk1]; simpl in E; subst.
    + exists [], w. split_and!; [done|constructor|by apply (yields_rule g A q)].
    + injection E as <- ->.
      destruct (IH (chars q ++ stk1)) as (w1 & w2 & -> & H1 & H2); [by rewrite app_assoc|].
      exists w1, w2. split_and!; [done|by apply (yields_rule g A q)|done].
Qed.

Lemma yields_end_marker g w : yields g ["$"] w → w = ["$"].
Proof.
  inversion 1 as [| |t stk w' Hu Hne H'|A q stk w' Hu]; subst; [|done].
  by inversion H'.
Qed.

Lemma yields_no_dollar g stk w :
  "$" ∉ symbols_of (productions g) → yields g stk w → "$" ∉ stk → "$" ∉ w.
Proof.
  intros Hd. induction 1 as [|stk w H IH|t stk w Hu Hne H IH|A q stk w Hu Hq H IH];
    intros Hstk.
  - apply not_elem_of_nil.
  - apply IH. set_solver.
  - apply not_elem_of_cons. split; [set_solver|]. apply IH. set_solver.
  - apply IH. rewrite elem_of_app. intros [Hin|Hin]; [|set_solver].
    apply Hd. by eapply rules_of_symbol.
Qed.

Lemma read_from_start input n :
  read input 0 n
  = take n (chars input) ++ replicate (n - length (chars input)) "$".
Proof.
  unfold read. rewrite Nat.sub_0_r. induction n as [|n IH]; [done|].
  rewrite seq_S, fmap_app, IH. simpl. unfold LL1Parser.current_input.
  destruct (chars input !! n) as [x|] eqn:E; simpl.
  - pose proof (lookup_lt_Some _ _ _ E) as Hlt.
    replace (n - length (chars input)) with 0 by lia.
    replace (S n - length (chars input)) with 0 by lia. simpl.
    rewrite !app_nil_r. by rewrite (take_S_r _ _ x).
  - apply lookup_ge_None in E.
    rewrite !take_ge by lia.
    replace (S n - length (chars input)) with (S (n - length (chars input))) by lia.
    rewrite <-app_assoc. f_equal. by rewrite replicate_S_end.
Qed.

Lemma ends_dollar_chars s : ends_dollar s = true → ∃ w, chars s = w ++ ["$"].
Proof.
  induction s as [|c s IH]; [done|]. simpl. destruct s as [|c' s'].
  - intros ->%bool_decide_eq_true_1. by exists [].
  - intros [w Hw]%IH. exists (String c EmptyString :: w). simpl in *. by rewrite Hw.
Qed.

(** An accepting run from the stack of the start symbol above the end
    marker, in a grammar without [$]: the start symbol yields the input up
    to its last [$], or up to the one before when the input ends in two. *)
Lemma accepted_yields g p input fuel :
  built g p → "$" ∉ symbols_of (productions g) → start_symbol g ≠ "$" →
  LL1Parser.parse p input fuel = Some (Ok true) →
  ∃ w, yields g [start_symbol g] w
       ∧ (chars (LL1Parser.normalize input) = w ++ ["$"]
          ∨ chars (LL1Parser.normalize input) = w ++ ["$"; "$"]).
Proof.
  intros Hb Hd Hstart. unfold LL1Parser.parse, LL1Parser.parse_run.
  destruct (LL1Parser.is_ll1 p); simpl; [|done].
  rewrite (built_grammar g p Hb).
  destruct (LL1Parser.loop p _ fuel 0 _ 0) as [[n [ptr| |e]]|] eqn:El; simpl; try done.
  intros [= Hacc]. apply accepts_spec in Hacc.
  destruct (loop_yields g p _ Hb _ _ _ _ _ _ El) as [_ Hy].
  apply (yields_app g [start_symbol g] ["$"]) in Hy as (w1 & w2 & Hw & H1 & H2).
  apply yields_end_marker in H2 as ->.
  assert ("$" ∉ w1) as Hw1.
  { eapply yields_no_dollar; [done|exact H1|]. set_solver. }
  exists w1. split; [done|].
  rewrite read_from_start in Hw.
  destruct (ends_dollar_chars _ (normalize_ends input)) as [cs Hcs].
  rewrite <-length_chars in Hacc. rewrite Hcs in Hw, Hacc |- *.
  rewrite length_app in Hw, Hacc. simpl in Hw, Hacc.
  destruct (decide (ptr = length cs + 1)) as [->|Hne1].
  - left. rewrite take_ge in Hw by (rewrite length_app; simpl; lia).
    replace (length cs + 1 - (length cs + 1)) with 0 in Hw by lia.
    simpl in Hw. rewrite app_nil_r in Hw. by apply app_inj_tail in Hw as [-> _].
  - destruct (decide (ptr + 1 = length cs + 1)) as [Hp|Hne2].
    + right. assert (ptr = length cs) as -> by lia.
      rewrite take_app_length in Hw. replace (length cs - (length cs + 1)) with 0 in Hw by lia.
      simpl in Hw. rewrite app_nil_r in Hw. subst cs. by rewrite <-app_assoc.
    + exfalso. assert (length cs + 1 < ptr) as Hlt by lia.
      rewrite take_ge in Hw by (rewrite length_app; simpl; lia).
      replace (ptr - (length cs + 1)) with (S (ptr - (length cs + 1) - 1)) in Hw by lia.
      rewrite replicate_S_end, !app_assoc in Hw.
      apply app_inj_tail in Hw as [Hw _]. apply Hw1. rewrite <-Hw. set_solver.
Qed.

(** X13.  What the LL(1) parser accepts is derivable.  In a grammar in
    which [$] does not occur in a production, when [parse] answers [True]
    the start symbol yields the input without its final [$] (appended when
    absent) through the productions, or, when the input ends in two [$],
    the input without these two. *)
Theorem parse_sound rules p input_string fuel :
  dollar_free (grammar_of rules) →
  LL1Parser.new (grammar_of rules) = Ok p →
  LL1Parser.parse p input_string fuel = Some (Ok true) →
  ∃ w, yields (grammar_of rules) ["S"] w
       ∧ (chars (LL1Parser.normalize input_string) = w ++ ["$"]
          ∨ chars (LL1Parser.normalize input_string) = w ++ ["$"; "$"]).
Proof.
  intros Hd E Hp. pose proof (new_built rules p E) as Hb.
  destruct (grammar_of_ok rules) as [_ Hs]. rewrite <-Hs.
  apply (accepted_yields _ p input_string fuel Hb Hd); [|done]. by rewrite Hs.
Qed.

Lemma parse_sound_witness :
  ∃ w, yields (grammar_of [("S", ["aSb"; "e"])]) ["S"] w
       ∧ (chars (LL1Parser.normalize "aabb") = w ++ ["$"]
          ∨ chars (LL1Parser.normalize "aabb") = w ++ ["$"; "$"]).
Proof.
  destruct (result_returns (LL1Parser.new (grammar_of [("S", ["aSb"; "e"])]))) as [p E];
    [by vm_compute|].
  apply (parse_sound [("S", ["aSb"; "e"])] p "aabb" 20).
  - apply (bool_decide_eq_true_1 _). by vm_compute.
  - exact E.
  - assert (match LL1Parser.parse p "aabb" 20 with Some (Ok true) => true | _ => false end
            = true) as H.
    { apply (result_holds
               (λ p, match LL1Parser.parse p "aabb" 20 with
                     | Some (Ok true) => true
                     | _ => false
                     end) _ p E).
      by vm_compute. }
    by destruct (LL1Parser.parse p "aabb" 20) as [[[]| |]|].
Defined.

(** ** slr1_parser.py *)

Lemma dict_get_defined k d :
  NoDup (dict_keys d) →
  dict_get k (defined d)
  = match dict_get k d with Some (p :: ps) => Some (p :: ps) | _ => None end.
Proof.
  unfold defined, dict_keys. induction d as [|[k' v] d IH]; csimpl; [done|].
  rewrite NoDup_cons. intros [Hk Hnd]. rewrite filter_cons. simpl.
  destruct (decide (k = k')) as [->|Hne].
  - destruct v as [|p ps].
    + rewrite decide_False by (by intros []).
      apply dict_get_None. intros H%defined_keys. done.
    + rewrite decide_True by done. simpl. by rewrite decide_True.
  - destruct (decide (v ≠ [])); simpl; [rewrite decide_False by done|]; by apply IH.
Qed.

(** X14.  The productions of the augmented grammar, whatever the source
    grammar defines.  A non-terminal other than [S'] has the productions
    it has in the source grammar, and is absent when it has none there;
    [S'] has the productions it has in the source grammar, if any,
    followed by the source start symbol. *)
Theorem augmented_lookup rules k :
  let g := grammar_of rules in
  let kept :=
    match dict_get k (productions g) with Some (p :: ps) => Some (p :: ps) | _ => None end in
  dict_get k (productions (SLR1Parser._augment_grammar g))
  = if decide (k = "S'") then Some (default [] kept ++ [start_symbol g]) else kept.
Proof.
  intros g kept. destruct (grammar_of_ok rules) as [Hok _]. fold g in Hok.
  rewrite augment_productions by done. subst kept.
  rewrite <-(dict_get_defined k (productions g)) by apply Hok.
  destruct (decide ("S'" ∈ dict_keys (defined (productions g)))) as [Hin|Hin].
  - rewrite dict_get_append. case_decide; subst; [|done].
    destruct (dict_get "S'" (defined (productions g))) eqn:E; [done|].
    by apply dict_get_None in E.
  - rewrite dict_get_app. simpl. case_decide as Hk; subst.
    + apply dict_get_None in Hin. by rewrite Hin.
    + by destruct (dict_get k (defined (productions g))).
Qed.

(** X15.  The canonical collection, when its construction returns: its
    first state is the closure of the initial item; its items are
    productions of the augmented grammar with the dot inside; and it has at
    least one state and at most as many as there are sets of such items. *)
Theorem collection_bound rules :
  let g := grammar_of rules in
  let aug := SLR1Parser._augment_grammar g in
  match SLR1Parser._build_canonical_collection g aug with
  | Ok (states, transitions) =>
      (∃ initial_items,
         SLR1Parser._closure aug {[("S'", start_symbol g, 0)]} = Ok initial_items
         ∧ states !! 0 = Some initial_items)
      ∧ (∀ state A q d, state ∈ states → (A, q, d) ∈ state →
           (A, q) ∈ rules_of (productions aug) ∧ d ≤ String.length q)
      ∧ 1 ≤ length states ≤ 2 ^ length (SLR1Parser.item_universe aug)
  | _ => True
  end.
Proof.
  intros g aug. destruct (grammar_of_ok rules) as [Hok _].
  pose proof (build_canonical_cases g aug (augment_start_rule g Hok)) as H.
  destruct (SLR1Parser._build_canonical_collection g aug) as [[states T]| |];
    [|done|done].
  destruct H as [[Hnd Hst _ _] (I0 & HI0 & H0)]. simpl in *. split_and!.
  - by exists I0.
  - intros st A q d Hin Hit. apply universe_elem. by apply (Hst st Hin).
  - apply lookup_lt_Some in H0. lia.
  - etrans; [apply (subsets_bound (universe aug) states Hnd)|].
    + intros st Hin. by apply Hst.
    + apply Nat.pow_le_mono_r; [lia|apply size_universe].
Qed.

(** *** Decoding the actions *)

Lemma is_nat_pretty_char d : (d < 10)%N → Ascii.is_nat (pretty_N_char d) = Some (N.to_nat d).
Proof.
  intros H.
  assert (d = 0 ∨ d = 1 ∨ d = 2 ∨ d = 3 ∨ d = 4 ∨ d = 5 ∨ d = 6 ∨ d = 7 ∨ d = 8 ∨ d = 9)%N
    as Hd by lia.
  repeat (destruct Hd as [->|Hd]; [done|]). by subst.
Qed.

Lemma int_of_digits_pretty x :
  ∀ s, ∃ k, ∀ acc,
    int_of_digits acc (pretty_N_go x s) = int_of_digits (acc * 10 ^ k + N.to_nat x) s.
Proof.
  induction (N.lt_wf_0 x) as [x _ IH]. intros s.
  destruct (decide (x = 0)%N) as [->|Hx].
  - exists 0. intros acc. rewrite pretty_N_go_0. f_equal. simpl. lia.
  - assert (0 < x)%N as Hpos by lia. rewrite pretty_N_go_step by done.
    destruct (IH (x `div` 10)%N) with (s := String (pretty_N_char (x `mod` 10)) s) as [k Hk].
    { apply N.div_lt; lia. }
    exists (S k). intros acc. rewrite Hk. simpl.
    rewrite is_nat_pretty_char by (apply N.mod_lt; lia). f_equal.
    pose proof (N.div_mod x 10) as Hdm.
    assert (N.to_nat x = 10 * N.to_nat (x `div` 10) + N.to_nat (x `mod` 10)) as -> by lia.
    lia.
Qed.

Lemma int_of_string_pretty (n : nat) : int_of_string (pretty n) = Some n.
Proof.
  unfold pretty, pretty_nat, pretty, pretty_N.
  case_decide as Hn.
  - assert (n = 0) as -> by lia. done.
  - destruct (int_of_digits_pretty (N.of_nat n) "") as [k Hk].
    assert (pretty_N_go (N.of_nat n) "" ≠ "") as Hne.
    { rewrite pretty_N_go_step by lia. intros H.
      destruct (int_of_digits_pretty (N.of_nat n `div` 10)
                  (String (pretty_N_char (N.of_nat n `mod` 10)) "")) as [k' Hk'].
      specialize (Hk' 0). rewrite H in Hk'. simpl in Hk'.
      rewrite is_nat_pretty_char in Hk' by (apply N.mod_lt; lia). simpl in Hk'.
      pose proof (N.div_mod (N.of_nat n) 10). injection Hk' as Hk'. lia. }
    unfold int_of_string. specialize (Hk 0). simpl in Hk.
    destruct (pretty_N_go (N.of_nat n) "") eqn:E; [done|].
    rewrite Hk. simpl. f_equal. lia.
Qed.

Lemma append_assoc (s1 s2 s3 : string) : (s1 +:+ s2) +:+ s3 = s1 +:+ (s2 +:+ s3).
Proof.
  induction s1 as [|c s1 IH]; [done|].
  change (String c ((s1 +:+ s2) +:+ s3) = String c (s1 +:+ (s2 +:+ s3))). by f_equal.
Qed.

Lemma append_nil_r (s : string) : s +:+ "" = s.
Proof.
  induction s as [|c s IH]; [done|]. change (String c (s +:+ "") = String c s). by f_equal.
Qed.

Lemma split_arrow_free piece s : has_arrow s = false → split_arrow piece s = [piece +:+ s].
Proof.
  revert piece. induction s as [|c s IH]; intros piece; simpl.
  - by rewrite append_nil_r.
  - intros H.
    assert (split_arrow (piece +:+ String c "") s = [piece +:+ String c s]) as Hrec.
    { rewrite IH.
      - by rewrite append_assoc.
      - destruct c as [[] [] [] [] [] [] [] []]; try done;
          destruct s as [|[[] [] [] [] [] [] [] []] s']; done. }
    destruct c as [[] [] [] [] [] [] [] []]; try done;
      destruct s as [|[[] [] [] [] [] [] [] []] s']; done.
Qed.

Lemma split_arrow_first piece s rest :
  has_arrow s = false →
  split_arrow piece (s +:+ "->" +:+ rest) = (piece +:+ s) :: split_arrow "" rest.
Proof.
  revert piece. induction s as [|c s IH]; intros piece; simpl.
  - by rewrite append_nil_r.
  - intros H.
    assert (has_arrow s = false) as Hs.
    { destruct c as [[] [] [] [] [] [] [] []]; try done;
        destruct s as [|[[] [] [] [] [] [] [] []] s']; done. }
    assert (split_arrow (piece +:+ String c "") (s +:+ "->" +:+ rest)
            = (piece +:+ String c s) :: split_arrow "" rest) as Hrec.
    { rewrite IH by done. by rewrite append_assoc. }
    destruct c as [[] [] [] [] [] [] [] []]; try done.
    destruct s as [|[[] [] [] [] [] [] [] []] s']; done.
Qed.

(** X16.  The actions [_build_parsing_tables] writes are read back by
    [parse] as what was written: a shift action [s] followed by the number
    of a state is told from the others by its first character and gives
    back that number; a reduce action for a non-terminal and a production
    that do not contain [->] gives back the two; and [acc] is neither. *)
Theorem actions_decode (n : nat) (non_terminal production : string) :
  has_arrow non_terminal = false → has_arrow production = false →
  (SLR1Parser.starts_with "s" ("s" +:+ pretty n) = true
   ∧ int_of_string (SLR1Parser.tail ("s" +:+ pretty n)) = Some n)
  ∧ (SLR1Parser.starts_with "s" ("r" +:+ non_terminal +:+ "->" +:+ production) = false
     ∧ SLR1Parser.starts_with "r" ("r" +:+ non_terminal +:+ "->" +:+ production) = true
     ∧ split_arrow "" (SLR1Parser.tail ("r" +:+ non_terminal +:+ "->" +:+ production))
       = [non_terminal; production])
  ∧ (SLR1Parser.starts_with "s" "acc" = false ∧ SLR1Parser.starts_with "r" "acc" = false).
Proof.
  intros HA Hq. split_and!; try done.
  - apply int_of_string_pretty.
  - change (SLR1Parser.tail ("r" +:+ non_terminal +:+ "->" +:+ production))
      with (non_terminal +:+ "->" +:+ production).
    rewrite split_arrow_first by done. by rewrite split_arrow_free.
Qed.

Lemma actions_decode_witness :
  split_arrow "" (SLR1Parser.tail ("r" +:+ "T" +:+ "->" +:+ "T*F")) = ["T"; "T*F"]
  ∧ int_of_string (SLR1Parser.tail ("s" +:+ pretty 12)) = Some 12.
Proof.
  destruct (actions_decode 12 "T" "T*F") as ((_ & H1) & (_ & _ & H2) & _); [done|done|].
  by split.
Defined.

(** *** Closure and goto *)

Lemma closure_item_closed aug C acc it acc' :
  SLR1Parser.closure_item aug C acc it = Ok acc' →
  acc ⊆ acc' ∧ closed_over aug {[it]} (C ∪ acc').
Proof.
  destruct it as [[A q] d]. unfold SLR1Parser.closure_item.
  destruct (SLR1Parser.dot_at_end q d) eqn:Hend.
  { intros [= <-]. split; [done|]. intros A' q' d' B [= -> -> ->]%elem_of_singleton.
    congruence. }
  destruct (chars q !! d) as [B|] eqn:HB; [|done].
  case_bool_decide as Hnt.
  - destruct (dict_get B (productions aug)) as [prods|] eqn:Hget; [|done].
    intros [= <-].
    assert (∀ ps acc0,
      acc0 ⊆ foldl (λ acc prod, if bool_decide ((B, prod, 0) ∉ C)
                                then {[(B, prod, 0)]} ∪ acc else acc) acc0 ps
      ∧ ∀ prod, prod ∈ ps →
          (B, prod, 0) ∈ C ∪ foldl (λ acc prod, if bool_decide ((B, prod, 0) ∉ C)
                                                then {[(B, prod, 0)]} ∪ acc else acc)
                                   acc0 ps) as H.
    { induction ps as [|prod ps IH]; intros acc0; simpl.
      - split; [done|]. by intros prod Hin%elem_of_nil.
      - destruct (IH (if bool_decide ((B, prod, 0) ∉ C)
                      then {[(B, prod, 0)]} ∪ acc0 else acc0)) as [H1 H2].
        split.
        + etrans; [|exact H1]. case_bool_decide; [apply union_subseteq_r|done].
        + intros prod' [->|Hin]%elem_of_cons; [|by apply H2].
          case_bool_decide as Hc.
          * apply elem_of_union_r, H1, elem_of_union_l. by apply elem_of_singleton.
          * apply elem_of_union_l. by destruct (decide ((B, prod, 0) ∈ C)). }
    destruct (H prods acc) as [H1 H2]. split; [done|].
    intros A' q' d' B' [= -> -> ->]%elem_of_singleton _ HB' _.
    rewrite HB in HB'. injection HB' as <-. by exists prods.
  - intros [= <-]. split; [done|].
    intros A' q' d' B' [= -> -> ->]%elem_of_singleton _ HB' HB''.
    rewrite HB in HB'. by injection HB' as <-.
Qed.

Lemma closed_over_mono aug items C C' :
  C ⊆ C' → closed_over aug items C → closed_over aug items C'.
Proof.
  intros Hsub H A q d B Hin Hend HB Hnt.
  destruct (H A q d B Hin Hend HB Hnt) as (prods & Hget & Hp).
  exists prods. split; [done|]. intros prod Hprod. by apply Hsub, Hp.
Qed.

Lemma closure_fold_closed aug C l :
  ∀ acc acc', foldlM (SLR1Parser.closure_item aug C) acc l = Ok acc' →
    acc ⊆ acc' ∧ closed_over aug (list_to_set l) (C ∪ acc').
Proof.
  induction l as [|it l IH]; intros acc acc'; simpl.
  - intros [= <-]. split; [done|]. by intros A q d B Hin%elem_of_empty.
  - destruct (SLR1Parser.closure_item aug C acc it) as [acc1| |] eqn:E;
      cbn [mbind result_bind]; [|done|done].
    intros [H1 H2]%IH. destruct (closure_item_closed aug C acc it acc1 E) as [H3 H4].
    split; [by etrans|]. intros A q d B [Hin|Hin]%elem_of_union.
    + assert (C ∪ acc1 ⊆ C ∪ acc') as Hsub by (by apply union_mono_l).
      exact (closed_over_mono aug {[it]} _ _ Hsub H4 A q d B Hin).
    + exact (H2 A q d B Hin).
Qed.

Lemma closure_pass_closed aug C C' :
  SLR1Parser.closure_pass aug C = Ok (C', false) → C' = C ∧ closed_over aug C C.
Proof.
  unfold SLR1Parser.closure_pass.
  destruct (foldlM (SLR1Parser.closure_item aug C) ∅ (elements C)) as [new| |] eqn:E;
    cbn [mbind result_bind]; [|done|done].
  case_bool_decide as Hnew; [|done]. intros [= <-]. split; [done|]. subst new.
  destruct (closure_fold_closed aug C _ _ _ E) as [_ H].
  intros A q d B Hin Hend HB Hnt. destruct (H A q d B) as (prods & Hget & Hp); try done.
  - by apply elem_of_list_to_set, elem_of_elements.
  - exists prods. split; [done|]. intros prod Hprod.
    specialize (Hp prod Hprod). by rewrite (right_id_L ∅ (∪)) in Hp.
Qed.

(** X17.  [_closure] never exhausts its fuel: it returns, or raises
    [KeyError] on a non-terminal without productions.  The set it returns
    contains the items given; every other item in it starts a production
    of the grammar; and it is closed: for an item with a non-terminal [B]
    after the dot it holds the items that start the productions of [B]. *)
Theorem closure_closed (aug : Grammar) (items : gset item) :
  match SLR1Parser._closure aug items with
  | Ok closure =>
      items ⊆ closure
      ∧ (∀ it, it ∈ closure →
           it ∈ items ∨ ∃ A q, it = (A, q, 0) ∧ (A, q) ∈ rules_of (productions aug))
      ∧ closed_over aug closure closure
  | Raise e =>
      ∃ k, e = KeyError k ∧ k ∈ non_terminals aug ∧ k ∉ dict_keys (productions aug)
  | OutOfFuel => False
  end.
Proof.
  pose proof (closure_cases aug items) as H.
  destruct (SLR1Parser._closure aug items) as [C| |] eqn:E; [|done|done].
  destruct H as [H1 H2]. split_and!; [done| |].
  - intros it [Hin|Hin]%H2%elem_of_union; [by left|right].
    unfold start_items in Hin.
    apply elem_of_list_to_set, list_elem_of_fmap in Hin as ([A q] & -> & Hq).
    by exists A, q.
  - unfold SLR1Parser._closure in E.
    destruct (iterate_stable (SLR1Parser.closure_pass aug) (λ _, True)
                (λ _ _ _ _ _, I) _ _ _ I E) as (C0 & _ & HC0).
    by destruct (closure_pass_closed aug C0 C HC0) as [-> ?].
Qed.

Lemma goto_kernel symbol l :
  ∀ acc it,
    it ∈ foldl (SLR1Parser.goto_item symbol) acc l
    ↔ it ∈ acc
      ∨ ∃ A q d, it = (A, q, d + 1) ∧ (A, q, d) ∈ l
                 ∧ SLR1Parser.dot_at_end q d = false ∧ chars q !! d = Some symbol.
Proof.
  induction l as [|[[A q] d] l IH]; intros acc it; simpl.
  - split; [by left|]. intros [?|(? & ? & ? & _ & ?%elem_of_nil & _)]; done.
  - rewrite IH. clear IH. split.
    + intros [Hin|(A' & q' & d' & -> & Hin & Hend & Hs)].
      * destruct (SLR1Parser.dot_at_end q d) eqn:Hend; [by left|].
        case_bool_decide as Hs; [|by left].
        apply elem_of_union in Hin as [->%elem_of_singleton|Hin]; [|by left].
        right. exists A, q, d. split_and!; [done|left|done|done].
      * right. exists A', q', d'. split_and!; [done|by right|done|done].
    + intros [Hin|(A' & q' & d' & -> & [[= -> -> ->]|Hin]%elem_of_cons & Hend & Hs)].
      * left. destruct (SLR1Parser.dot_at_end q d); [done|].
        case_bool_decide; [|done]. by apply elem_of_union_r.
      * left. rewrite Hend, bool_decide_eq_true_2 by done.
        by apply elem_of_union_l, elem_of_singleton.
      * right. by exists A', q', d'.
Qed.

Lemma closure_empty aug : SLR1Parser._closure aug ∅ = Ok ∅.
Proof.
  unfold SLR1Parser._closure, SLR1Parser.closure_fuel. cbn [iterate].
  unfold SLR1Parser.closure_pass. rewrite elements_empty. cbn [foldlM].
  cbn [mbind result_bind mret result_ret]. by rewrite bool_decide_eq_true_2.
Qed.

(** X18.  [_goto] never exhausts its fuel.  The set it returns holds every
    item of the state that has the symbol after the dot, with the dot moved
    over it; every item in it is such an item or starts a production; and
    it is empty exactly when no item of the state has the symbol after the
    dot. *)
Theorem goto_moves_dot (aug : Grammar) (items : gset item) (symbol : string) :
  match SLR1Parser._goto aug items symbol with
  | Ok goto_items =>
      (∀ A q d, (A, q, d) ∈ items → SLR1Parser.dot_at_end q d = false →
         chars q !! d = Some symbol → (A, q, d + 1) ∈ goto_items)
      ∧ (∀ it, it ∈ goto_items →
           (∃ A q d, it = (A, q, d + 1) ∧ (A, q, d) ∈ items
                     ∧ SLR1Parser.dot_at_end q d = false ∧ chars q !! d = Some symbol)
           ∨ ∃ A q, it = (A, q, 0) ∧ (A, q) ∈ rules_of (productions aug))
      ∧ (goto_items = ∅
         ↔ ∀ A q d, (A, q, d) ∈ items → SLR1Parser.dot_at_end q d = false →
                    chars q !! d ≠ Some symbol)
  | Raise e =>
      ∃ k, e = KeyError k ∧ k ∈ non_terminals aug ∧ k ∉ dict_keys (productions aug)
  | OutOfFuel => False
  end.
Proof.
  unfold SLR1Parser._goto.
  set (kernel := foldl (SLR1Parser.goto_item symbol) ∅ (elements items)).
  assert (∀ it, it ∈ kernel
            ↔ ∃ A q d, it = (A, q, d + 1) ∧ (A, q, d) ∈ items
                       ∧ SLR1Parser.dot_at_end q d = false ∧ chars q !! d = Some symbol)
    as Hk.
  { intros it. unfold kernel. rewrite goto_kernel. split.
    - intros [?%elem_of_empty|(A & q & d & -> & Hin%elem_of_elements & ?)]; [done|].
      by exists A, q, d.
    - intros (A & q & d & -> & Hin & ?). right. exists A, q, d.
      split; [done|]. by rewrite elem_of_elements. }
  destruct (decide (kernel = ∅)) as [He|Hne].
  - rewrite He, closure_empty. split_and!.
    + intros A q d Hin Hend Hs. exfalso. apply (not_elem_of_empty (C := gset item) (A, q, d + 1)).
      rewrite <-He. apply Hk. by exists A, q, d.
    + by intros it Hin%elem_of_empty.
    + split; [|done]. intros _ A q d Hin Hend Hs.
      apply (not_elem_of_empty (C := gset item) (A, q, d + 1)).
      rewrite <-He. apply Hk. by exists A, q, d.
  - pose proof (closure_cases aug kernel) as H.
    destruct (SLR1Parser._closure aug kernel) as [G| |]; [|done|done].
    destruct H as [H1 H2]. split_and!.
    + intros A q d Hin Hend Hs. apply H1, Hk. by exists A, q, d.
    + intros it [Hin|Hin]%H2%elem_of_union; [left; by apply Hk|right].
      unfold start_items in Hin.
      apply elem_of_list_to_set, list_elem_of_fmap in Hin as ([A q] & -> & Hq).
      by exists A, q.
    + apply set_choose_L in Hne as [it Hit]. split.
      * intros ->. by apply H1, elem_of_empty in Hit.
      * intros H. apply Hk in Hit as (A & q & d & -> & Hin & Hend & Hs).
        by destruct (H A q d Hin Hend).
Qed.
